(** * torch-ac: the experience-collection core of [BaseAlgo]

    A shallow embedding of [torch_ac/algos/base.py]: the constructor
    [BaseAlgo.__init__] and the rollout method
    [BaseAlgo.collect_experiences], with the properties their
    specification states about advantage estimation, batch reshaping,
    episode statistics and construction-time checks.

    Modelling conventions.
    - Tensor scalars (torch float32) are exact rationals [Qc]: the finite
      values, rounding aside; integer tensors hold [Z].  Where a statement
      turns on a product with 0, the values float32 has beside the finite
      ones are treated with [float32] and [float_mul].
    - A one-dimensional tensor is a [list]; a [T x N] buffer is a list of
      [T] rows.  Row assignment [buf[i] = row] is stdpp's list insert; the
      loop index always lies inside the buffer, whose number of rows is
      fixed at construction.
    - Python exceptions are values of [exn]; a method is a function from
      the state before the call to an [outcome], which carries the state
      reached when the exception was raised.
    - The environment bridge, the policy, the observation preprocessor and
      the action sampler are collaborators outside the file; they are the
      fields of the class [Externals]. *)

From stdpp Require Import gmap strings list.
From Stdlib Require Import QArith Qcanon.

Local Open Scope Qc_scope.

(** ** Exceptions and the state-and-exception monad *)

Inductive exn : Type :=
  | AssertionError (msg : string)
  | ZeroDivisionError
  | KeyError (key : string)
  | IndexError
  | UnboundLocalError (name : string)
  | TypeError (msg : string)
  | RuntimeError (msg : string).

Inductive outcome (S A : Type) : Type :=
  | Return (a : A) (s : S)
  | Raise (e : exn) (s : S).
Arguments Return {S A} a s.
Arguments Raise {S A} e s.

Definition M (S A : Type) : Type := S -> outcome S A.

Definition ret {S A} (a : A) : M S A := fun s => Return a s.
Definition bind {S A B} (c : M S A) (k : A -> M S B) : M S B :=
  fun s => match c s with
           | Return a s' => k a s'
           | Raise e s' => Raise e s'
           end.

Declare Scope py_scope.
Delimit Scope py_scope with py.
Notation "'let*' x ':=' c 'in' k" := (bind c (fun x => k))
  (at level 10, x pattern, c at level 100, k at level 200) : py_scope.

(** [for x in xs: body x acc], the loop-carried locals being [acc]. *)
Fixpoint for_each {S A L} (xs : list A) (body : A -> L -> M S L) (acc : L)
  : M S L :=
  match xs with
  | [] => ret acc
  | x :: xs' => bind (body x acc) (for_each xs' body)
  end.

(** What a call returned, if it did, and whether it did. *)
Definition returned {S A} (o : outcome S A) : option (A * S) :=
  match o with
  | Return a s => Some (a, s)
  | Raise _ _ => None
  end.

Definition succeeded {S A} (o : outcome S A) : bool :=
  match o with
  | Return _ _ => true
  | Raise _ _ => false
  end.

(** ** Tensors *)

Abbreviation vec := (list Qc).
Abbreviation mat := (list (list Qc)).

Definition of_bool (b : bool) : Qc := if b then 1 else 0.

(** Elementwise arithmetic on tensors of one shape (the operands of the
    source always have one: [N] entries). *)
Definition vadd (v w : vec) : vec := zip_with Qcplus v w.
Definition vmul (v w : vec) : vec := zip_with Qcmult v w.

(** [torch.zeros(n)] and [torch.ones(n)]. *)
Definition zeros (n : nat) : vec := replicate n 0.
Definition ones (n : nat) : vec := replicate n 1.

(** [memory * mask.unsqueeze(1)]: row [p] of the [N x D] memory scaled by
    entry [p] of the mask, for a product [mul] of scalars. *)
Definition scale_rows {A} (mul : A -> A -> A)
    (memory : list (list A)) (mask : list A) : list (list A) :=
  zip_with (fun row m => (fun x => mul x m) <$> row) memory mask.

Definition mask_memory (memory : mat) (mask : vec) : mat :=
  scale_rows Qcmult memory mask.




(** [buf[i]] and [v[i].item()].  On an instance built by the constructor
    and fed by collaborators that answer one entry per process every index
    read is in range; the default stands where Python would raise. *)
Definition row {A} (buf : list (list A)) (i : nat) : list A :=
  default [] (buf !! i).
Definition item (v : vec) (i : nat) : Qc := default 0 (v !! i).

(** An operand of a Python arithmetic expression: a Python number or a
    tensor; a number broadcasts over a tensor. *)
Inductive operand : Type :=
  | Num (x : Qc)
  | Tensor (v : vec).

Definition broadcast (op : Qc -> Qc -> Qc) (a b : operand) : operand :=
  match a, b with
  | Num x, Num y => Num (op x y)
  | Num x, Tensor w => Tensor (op x <$> w)
  | Tensor v, Num y => Tensor ((fun x => op x y) <$> v)
  | Tensor v, Tensor w => Tensor (zip_with op v w)
  end.

Definition oadd := broadcast Qcplus.
Definition osub := broadcast Qcminus.
Definition omul := broadcast Qcmult.

(** [buf[i] = e]: the value written into a row of [n] entries. *)
Definition to_row (n : nat) (e : operand) : vec :=
  match e with
  | Num x => replicate n x
  | Tensor v => v
  end.

(** [l[-k:]] for [k >= 0]: Python reads [-0] as [0], the whole list. *)
Definition last_n {A} (k : nat) (l : list A) : list A :=
  match k with
  | O => l
  | S _ => drop (length l - k) l
  end.

(** [t.transpose(0, 1)] of a buffer with [n] columns, then
    [.reshape(-1)] (or [.reshape(-1, D)] when the cells are vectors). *)
Fixpoint transpose {A} (n : nat) (buf : list (list A)) : list (list A) :=
  match buf with
  | [] => replicate n []
  | r :: buf' => zip_with cons r (transpose n buf')
  end.

Definition reshape_flat {A} (rows : list (list A)) : list A := concat rows.

Definition flatten_TP {A} (n : nat) (buf : list (list A)) : list A :=
  reshape_flat (transpose n buf).

(** ** External collaborators

    The environment bridge ([ParallelEnv]), the policy ([acmodel]), the
    observation preprocessor and the action distribution are outside
    [base.py].  The policy runs under [torch.no_grad()] and is a function
    of its arguments; sampling consumes a generator state. *)

(** The metadata mapping a process reports at a step. *)
Abbreviation info_dict := (gmap string Qc).

Class Externals : Type := {
  Obs : Type;               (* a raw observation of one process *)
  PObs : Type;              (* a preprocessed batch of observations *)
  Dist : Type;              (* a batch of action distributions *)
  EnvState : Type;          (* the bridge, with the N environments *)
  Rng : Type;               (* the sampler's generator *)
  len_envs : nat;           (* len(envs) *)
  env_reset : EnvState -> EnvState * list Obs;
  env_step : EnvState -> list Z ->
             EnvState * (list Obs * vec * list bool * list info_dict);
  acmodel_recurrent : bool;
  acmodel_memory_size : nat;
  acmodel : PObs -> option mat -> Dist * vec * mat;
  dist_sample : Dist -> Rng -> list Z * Rng;
  dist_log_prob : Dist -> list Z -> vec;
  preprocess_obss : list Obs -> PObs;
}.

Section Collector.
Context `{Ext : Externals}.

(** What lies outside the collector: the bridge, the generator, and the
    record of the arguments of every forward pass of the policy. *)
Record World : Type := {
  env : EnvState;
  rng : Rng;
  forward_calls : list (PObs * option mat);
}.

(** ** The instance *)

Definition reshaper : Type := Obs -> Z -> Qc -> bool -> Qc.

(** Parameters stored by the constructor. *)
Record Params : Type := {
  num_frames_per_proc : nat;
  discount : Qc;
  lr : Qc;
  gae_lambda : Qc;
  entropy_coef : Qc;
  value_loss_coef : Qc;
  max_grad_norm : Qc;
  recurrence : Z;
  reshape_reward : option reshaper;
  num_procs : nat;
  num_frames : nat;
}.

(** Experience values: the live state of the rollout and the [T x N]
    buffers.  [memory] and [memories] exist only for a recurrent policy;
    for another policy they are never read. *)
Record Experience : Type := {
  obs : list Obs;
  obss : list (option (list Obs));
  memory : mat;
  memories : list mat;
  mask : vec;
  masks : mat;
  actions : list (list Z);
  values : mat;
  rewards : mat;
  rewards_PERFORMANCE : mat;
  rewards_BUTTON_PRESSES : mat;
  rewards_PHONES_CLEANED : mat;
  rewards_DIRT_CLEANED : mat;
  advantages : mat;
  log_probs : mat;
}.

(** Running episode accumulators, one entry per process. *)
Record Episode : Type := {
  log_episode_return_MESSES : vec;
  log_episode_return_PERFORMANCE_FULL : vec;
  log_episode_return_PERFORMANCE : vec;
  log_episode_return_BUTTON_PRESSES : vec;
  log_episode_return_PHONES_CLEANED : vec;
  log_episode_return_DIRT_CLEANED : vec;
  log_episode_return : vec;
  log_episode_reshaped_return : vec;
  log_episode_reshaped_return_PERFORMANCE : vec;
  log_episode_reshaped_return_BUTTON_PRESSES : vec;
  log_episode_reshaped_return_PHONES_CLEANED : vec;
  log_episode_reshaped_return_DIRT_CLEANED : vec;
  log_episode_num_frames : vec;
}.

(** Histories of completed episodes and the counter of completions. *)
Record History : Type := {
  log_done_counter : nat;
  log_return : vec;
  log_return_MESSES : vec;
  log_return_PERFORMANCE_FULL : vec;
  log_return_PERFORMANCE : vec;
  log_return_BUTTON_PRESSES : vec;
  log_return_PHONES_CLEANED : vec;
  log_return_DIRT_CLEANED : vec;
  log_reshaped_return : vec;
  log_reshaped_return_PERFORMANCE : vec;
  log_reshaped_return_BUTTON_PRESSES : vec;
  log_reshaped_return_PHONES_CLEANED : vec;
  log_reshaped_return_DIRT_CLEANED : vec;
  log_num_frames : vec;
}.

Record BaseAlgo : Type := {
  params : Params;
  exper : Experience;
  episode : Episode;
  history : History;
}.

(** ** [BaseAlgo.__init__] *)

(** [a % b] on Python integers: the sign of the divisor, as [Z.modulo];
    a zero divisor raises. *)
Definition py_mod (a b : Z) : exn + Z :=
  if decide (b = 0%Z) then inl ZeroDivisionError else inr (a `mod` b)%Z.

Definition init_episode (n : nat) : Episode :=
  {| log_episode_return_MESSES := zeros n;
     log_episode_return_PERFORMANCE_FULL := zeros n;
     log_episode_return_PERFORMANCE := zeros n;
     log_episode_return_BUTTON_PRESSES := zeros n;
     log_episode_return_PHONES_CLEANED := zeros n;
     log_episode_return_DIRT_CLEANED := zeros n;
     log_episode_return := zeros n;
     log_episode_reshaped_return := zeros n;
     log_episode_reshaped_return_PERFORMANCE := zeros n;
     log_episode_reshaped_return_BUTTON_PRESSES := zeros n;
     log_episode_reshaped_return_PHONES_CLEANED := zeros n;
     log_episode_reshaped_return_DIRT_CLEANED := zeros n;
     log_episode_num_frames := zeros n |}.

(** [[0] * n] for every history list. *)
Definition init_history (n : nat) : History :=
  {| log_done_counter := 0;
     log_return := replicate n 0;
     log_return_MESSES := replicate n 0;
     log_return_PERFORMANCE_FULL := replicate n 0;
     log_return_PERFORMANCE := replicate n 0;
     log_return_BUTTON_PRESSES := replicate n 0;
     log_return_PHONES_CLEANED := replicate n 0;
     log_return_DIRT_CLEANED := replicate n 0;
     log_reshaped_return := replicate n 0;
     log_reshaped_return_PERFORMANCE := replicate n 0;
     log_reshaped_return_BUTTON_PRESSES := replicate n 0;
     log_reshaped_return_PHONES_CLEANED := replicate n 0;
     log_reshaped_return_DIRT_CLEANED := replicate n 0;
     log_num_frames := replicate n 0 |}.

(** Lines 76-132: the instance over [t] frames per process, the
    environment having answered [obs0] to the reset. *)
Definition allocate (t : nat) (discount_ lr_ gae_lambda_ entropy_coef_
    value_loss_coef_ max_grad_norm_ : Qc) (recurrence_ : Z)
    (reshape_reward_ : option reshaper) (obs0 : list Obs) : BaseAlgo :=
  let n := len_envs in
  let zeros_TN := replicate t (zeros n) in
  {| params :=
       {| num_frames_per_proc := t;
          discount := discount_;
          lr := lr_;
          gae_lambda := gae_lambda_;
          entropy_coef := entropy_coef_;
          value_loss_coef := value_loss_coef_;
          max_grad_norm := max_grad_norm_;
          recurrence := recurrence_;
          reshape_reward := reshape_reward_;
          num_procs := n;
          num_frames := t * n |};
     exper :=
       {| obs := obs0;
          obss := replicate t None;
          memory := replicate n (zeros acmodel_memory_size);
          memories := replicate t (replicate n (zeros acmodel_memory_size));
          mask := ones n;
          masks := zeros_TN;
          actions := replicate t (replicate n 0%Z);
          values := zeros_TN;
          rewards := zeros_TN;
          rewards_PERFORMANCE := zeros_TN;
          rewards_BUTTON_PRESSES := zeros_TN;
          rewards_PHONES_CLEANED := zeros_TN;
          rewards_DIRT_CLEANED := zeros_TN;
          advantages := zeros_TN;
          log_probs := zeros_TN |};
     episode := init_episode n;
     history := init_history n |}.

(** The constructor, from the two control assertions on.  The arguments
    [envs], [acmodel], [device] and [preprocess_obss] are those of
    [Externals].  The first [torch.zeros] shaped by [num_frames_per_proc]
    raises on a negative dimension. *)
Definition init (num_frames_per_proc_ : Z) (discount_ lr_ gae_lambda_
    entropy_coef_ value_loss_coef_ max_grad_norm_ : Qc) (recurrence_ : Z)
    (reshape_reward_ : option reshaper) : M World BaseAlgo :=
  fun w =>
  (* assert self.acmodel.recurrent or self.recurrence == 1 *)
  if negb (acmodel_recurrent || bool_decide (recurrence_ = 1%Z))
  then Raise (AssertionError "") w else
  (* assert self.num_frames_per_proc % self.recurrence == 0 *)
  match py_mod num_frames_per_proc_ recurrence_ with
  | inl e => Raise e w
  | inr r =>
    if negb (bool_decide (r = 0%Z)) then Raise (AssertionError "") w else
    (* self.obs = self.env.reset() *)
    let '(env', obs0) := env_reset (env w) in
    let w' := {| env := env'; rng := rng w;
                 forward_calls := forward_calls w |} in
    if decide (num_frames_per_proc_ < 0)%Z
    then Raise (RuntimeError
                  "Trying to create tensor with negative dimension") w'
    else Return (allocate (Z.to_nat num_frames_per_proc_) discount_ lr_
                          gae_lambda_ entropy_coef_ value_loss_coef_
                          max_grad_norm_ recurrence_ reshape_reward_ obs0)
                w'
  end.

(** ** [BaseAlgo.collect_experiences]: the rollout loop *)

(** The local variables the loop carries from one iteration to the next.
    The six tuples and [info] are unbound until first assigned; a tuple is
    read only under its flag, which is set where the tuple is bound. *)
Record Locals : Type := {
  hasMesses : bool;
  hasPerf : bool;
  hasPerfFull : bool;
  hasButtonPresses : bool;
  hasPhonesCleaned : bool;
  hasDirtCleaned : bool;
  messes : vec;
  performancesFULL : vec;
  performances : vec;
  button_presses : vec;
  phones_cleaned : vec;
  dirt_cleaned : vec;
  info : option (list info_dict);
}.

Definition init_locals : Locals :=
  {| hasMesses := false; hasPerf := false; hasPerfFull := false;
     hasButtonPresses := false; hasPhonesCleaned := false;
     hasDirtCleaned := false;
     messes := []; performancesFULL := []; performances := [];
     button_presses := []; phones_cleaned := []; dirt_cleaned := [];
     info := None |}.

(** [tuple([i[key] for i in info])]: the first mapping without [key]
    raises. *)
Definition comprehension (key : string) (infos : list info_dict)
  : exn + vec :=
  match mapM (fun d : info_dict => d !! key) infos with
  | Some v => inr v
  | None => inl (KeyError key)
  end.

(** [if key in info[0]: has = True; tup = tuple([i[key] for i in info])]. *)
Definition discover (key : string) (info0 : info_dict)
    (infos : list info_dict) (has : bool) (tup : vec)
  : exn + (bool * vec) :=
  if bool_decide (is_Some (info0 !! key))
  then match comprehension key infos with
       | inl e => inl e
       | inr v => inr (true, v)
       end
  else inr (has, tup).

(** Lines 187-209: channel discovery at one step, on the metadata of
    process 0. *)
Definition discover_channels (infos : list info_dict) (loc : Locals)
  : exn + Locals :=
  match infos !! 0%nat with
  | None => inl IndexError
  | Some info0 =>
    match discover "messes_cleaned" info0 infos
            (hasMesses loc) (messes loc) with
    | inl e => inl e
    | inr (hM, m) =>
    match discover "performance_full" info0 infos
            (hasPerfFull loc) (performancesFULL loc) with
    | inl e => inl e
    | inr (hPF, pf) =>
    match discover "performance" info0 infos
            (hasPerf loc) (performances loc) with
    | inl e => inl e
    | inr (hP, pe) =>
    match discover "button_presses" info0 infos
            (hasButtonPresses loc) (button_presses loc) with
    | inl e => inl e
    | inr (hB, bp) =>
    match discover "phones_cleaned" info0 infos
            (hasPhonesCleaned loc) (phones_cleaned loc) with
    | inl e => inl e
    | inr (hPh, ph) =>
    match discover "dirt_cleaned" info0 infos
            (hasDirtCleaned loc) (dirt_cleaned loc) with
    | inl e => inl e
    | inr (hD, dc) =>
      inr {| hasMesses := hM; hasPerf := hP; hasPerfFull := hPF;
             hasButtonPresses := hB; hasPhonesCleaned := hPh;
             hasDirtCleaned := hD;
             messes := m; performancesFULL := pf; performances := pe;
             button_presses := bp; phones_cleaned := ph;
             dirt_cleaned := dc;
             info := Some infos |}
    end end end end end end
  end.

(** Lines 213-221: the transition recorded at slot [i] and the new live
    state. *)
Definition store_transition (i : nat) (e : Experience) (obs' : list Obs)
    (memory' : mat) (done : list bool) (action : list Z) (value : vec)
  : Experience :=
  {| obss := <[i := Some (obs e)]> (obss e);
     obs := obs';
     memories := if acmodel_recurrent
                 then <[i := memory e]> (memories e) else memories e;
     memory := if acmodel_recurrent then memory' else memory e;
     masks := <[i := mask e]> (masks e);
     mask := (fun d => 1 - of_bool d) <$> done;
     actions := <[i := action]> (actions e);
     values := <[i := value]> (values e);
     rewards := rewards e;
     rewards_PERFORMANCE := rewards_PERFORMANCE e;
     rewards_BUTTON_PRESSES := rewards_BUTTON_PRESSES e;
     rewards_PHONES_CLEANED := rewards_PHONES_CLEANED e;
     rewards_DIRT_CLEANED := rewards_DIRT_CLEANED e;
     advantages := advantages e;
     log_probs := log_probs e |}.

Definition set_rewards (e : Experience) (r : mat) : Experience :=
  {| obss := obss e; obs := obs e; memories := memories e;
     memory := memory e; masks := masks e; mask := mask e;
     actions := actions e; values := values e;
     rewards := r;
     rewards_PERFORMANCE := rewards_PERFORMANCE e;
     rewards_BUTTON_PRESSES := rewards_BUTTON_PRESSES e;
     rewards_PHONES_CLEANED := rewards_PHONES_CLEANED e;
     rewards_DIRT_CLEANED := rewards_DIRT_CLEANED e;
     advantages := advantages e;
     log_probs := log_probs e |}.

(** Lines 223-226: the reshaped rewards of one step, over
    [zip(obs, action, reward, done)]. *)
Definition reshaped_rewards (f : reshaper) (obs' : list Obs)
    (action : list Z) (reward : vec) (done : list bool) : vec :=
  zip_with (fun oa rd => f oa.1 oa.2 rd.1 rd.2)
           (zip obs' action) (zip reward done).

(** Lines 230-240: the [else] branch of the reward recording, then the
    log-probabilities. *)
Definition store_rewards (i : nat) (loc : Locals) (e : Experience)
    (reward : vec) (log_prob : vec) : Experience :=
  {| obss := obss e; obs := obs e; memories := memories e;
     memory := memory e; masks := masks e; mask := mask e;
     actions := actions e; values := values e;
     rewards := <[i := reward]> (rewards e);
     rewards_PERFORMANCE :=
       if hasPerf loc
       then <[i := performances loc]> (rewards_PERFORMANCE e)
       else rewards_PERFORMANCE e;
     rewards_BUTTON_PRESSES :=
       if hasButtonPresses loc
       then <[i := button_presses loc]> (rewards_BUTTON_PRESSES e)
       else rewards_BUTTON_PRESSES e;
     rewards_PHONES_CLEANED :=
       if hasPhonesCleaned loc
       then <[i := phones_cleaned loc]> (rewards_PHONES_CLEANED e)
       else rewards_PHONES_CLEANED e;
     rewards_DIRT_CLEANED :=
       if hasDirtCleaned loc
       then <[i := dirt_cleaned loc]> (rewards_DIRT_CLEANED e)
       else rewards_DIRT_CLEANED e;
     advantages := advantages e;
     log_probs := <[i := log_prob]> (log_probs e) |}.

(** Lines 243-273: the running sums take this step's values. *)
Definition accumulate (n i : nat) (loc : Locals) (e : Experience)
    (reward : vec) (a : Episode) : Episode :=
  {| log_episode_return_MESSES :=
       if hasMesses loc
       then vadd (log_episode_return_MESSES a) (messes loc)
       else log_episode_return_MESSES a;
     log_episode_return_PERFORMANCE_FULL :=
       if hasPerfFull loc
       then vadd (log_episode_return_PERFORMANCE_FULL a)
                 (performancesFULL loc)
       else log_episode_return_PERFORMANCE_FULL a;
     log_episode_return_PERFORMANCE :=
       if hasPerf loc
       then vadd (log_episode_return_PERFORMANCE a) (performances loc)
       else log_episode_return_PERFORMANCE a;
     log_episode_return_BUTTON_PRESSES :=
       if hasButtonPresses loc
       then vadd (log_episode_return_BUTTON_PRESSES a) (button_presses loc)
       else log_episode_return_BUTTON_PRESSES a;
     log_episode_return_PHONES_CLEANED :=
       if hasPhonesCleaned loc
       then vadd (log_episode_return_PHONES_CLEANED a) (phones_cleaned loc)
       else log_episode_return_PHONES_CLEANED a;
     log_episode_return_DIRT_CLEANED :=
       if hasDirtCleaned loc
       then vadd (log_episode_return_DIRT_CLEANED a) (dirt_cleaned loc)
       else log_episode_return_DIRT_CLEANED a;
     log_episode_return := vadd (log_episode_return a) reward;
     log_episode_reshaped_return :=
       vadd (log_episode_reshaped_return a) (row (rewards e) i);
     log_episode_reshaped_return_PERFORMANCE :=
       vadd (log_episode_reshaped_return_PERFORMANCE a)
            (row (rewards_PERFORMANCE e) i);
     log_episode_reshaped_return_BUTTON_PRESSES :=
       vadd (log_episode_reshaped_return_BUTTON_PRESSES a)
            (row (rewards_BUTTON_PRESSES e) i);
     log_episode_reshaped_return_PHONES_CLEANED :=
       vadd (log_episode_reshaped_return_PHONES_CLEANED a)
            (row (rewards_PHONES_CLEANED e) i);
     log_episode_reshaped_return_DIRT_CLEANED :=
       vadd (log_episode_reshaped_return_DIRT_CLEANED a)
            (row (rewards_DIRT_CLEANED e) i);
     log_episode_num_frames := vadd (log_episode_num_frames a) (ones n) |}.

(** Lines 276-308: the body of the loop over [enumerate(done)] for a
    process [p] whose flag is set.  The guards of the button-press and
    phone histories are those of the source. *)
Definition flush_one (loc : Locals) (a : Episode) (p : nat) (h : History)
  : History :=
  {| log_done_counter := log_done_counter h + 1;
     log_return_MESSES :=
       if hasMesses loc
       then log_return_MESSES h ++ [item (log_episode_return_MESSES a) p]
       else log_return_MESSES h;
     log_return_PERFORMANCE_FULL :=
       if hasPerfFull loc
       then log_return_PERFORMANCE_FULL h
            ++ [item (log_episode_return_PERFORMANCE_FULL a) p]
       else log_return_PERFORMANCE_FULL h;
     log_return_PERFORMANCE :=
       if hasPerf loc
       then log_return_PERFORMANCE h
            ++ [item (log_episode_return_PERFORMANCE a) p]
       else log_return_PERFORMANCE h;
     log_reshaped_return_PERFORMANCE :=
       if hasPerf loc
       then log_reshaped_return_PERFORMANCE h
            ++ [item (log_episode_reshaped_return_PERFORMANCE a) p]
       else log_reshaped_return_PERFORMANCE h;
     log_return_BUTTON_PRESSES :=
       if hasPhonesCleaned loc
       then log_return_BUTTON_PRESSES h
            ++ [item (log_episode_return_BUTTON_PRESSES a) p]
       else log_return_BUTTON_PRESSES h;
     log_reshaped_return_BUTTON_PRESSES :=
       if hasPhonesCleaned loc
       then log_reshaped_return_BUTTON_PRESSES h
            ++ [item (log_episode_reshaped_return_BUTTON_PRESSES a) p]
       else log_reshaped_return_BUTTON_PRESSES h;
     log_return_PHONES_CLEANED :=
       if hasButtonPresses loc
       then log_return_PHONES_CLEANED h
            ++ [item (log_episode_return_PHONES_CLEANED a) p]
       else log_return_PHONES_CLEANED h;
     log_reshaped_return_PHONES_CLEANED :=
       if hasButtonPresses loc
       then log_reshaped_return_PHONES_CLEANED h
            ++ [item (log_episode_reshaped_return_PHONES_CLEANED a) p]
       else log_reshaped_return_PHONES_CLEANED h;
     log_return_DIRT_CLEANED :=
       if hasDirtCleaned loc
       then log_return_DIRT_CLEANED h
            ++ [item (log_episode_return_DIRT_CLEANED a) p]
       else log_return_DIRT_CLEANED h;
     log_reshaped_return_DIRT_CLEANED :=
       if hasDirtCleaned loc
       then log_reshaped_return_DIRT_CLEANED h
            ++ [item (log_episode_reshaped_return_DIRT_CLEANED a) p]
       else log_reshaped_return_DIRT_CLEANED h;
     log_return := log_return h ++ [item (log_episode_return a) p];
     log_reshaped_return :=
       log_reshaped_return h ++ [item (log_episode_reshaped_return a) p];
     log_num_frames :=
       log_num_frames h ++ [item (log_episode_num_frames a) p] |}.

(** Lines 275-308: [for i, done_ in enumerate(done)], from index [p]. *)
Fixpoint flush_done (loc : Locals) (a : Episode) (p : nat)
    (done : list bool) (h : History) : History :=
  match done with
  | [] => h
  | done_ :: rest =>
    flush_done loc a (S p) rest (if done_ then flush_one loc a p h else h)
  end.

(** Lines 310-323: every running sum is multiplied by the new mask. *)
Definition reset_done (mask_ : vec) (a : Episode) : Episode :=
  {| log_episode_return := vmul (log_episode_return a) mask_;
     log_episode_return_PERFORMANCE_FULL :=
       vmul (log_episode_return_PERFORMANCE_FULL a) mask_;
     log_episode_return_MESSES := vmul (log_episode_return_MESSES a) mask_;
     log_episode_return_PERFORMANCE :=
       vmul (log_episode_return_PERFORMANCE a) mask_;
     log_episode_return_BUTTON_PRESSES :=
       vmul (log_episode_return_BUTTON_PRESSES a) mask_;
     log_episode_return_PHONES_CLEANED :=
       vmul (log_episode_return_PHONES_CLEANED a) mask_;
     log_episode_return_DIRT_CLEANED :=
       vmul (log_episode_return_DIRT_CLEANED a) mask_;
     log_episode_reshaped_return :=
       vmul (log_episode_reshaped_return a) mask_;
     log_episode_reshaped_return_PERFORMANCE :=
       vmul (log_episode_reshaped_return_PERFORMANCE a) mask_;
     log_episode_reshaped_return_BUTTON_PRESSES :=
       vmul (log_episode_reshaped_return_BUTTON_PRESSES a) mask_;
     log_episode_reshaped_return_PHONES_CLEANED :=
       vmul (log_episode_reshaped_return_PHONES_CLEANED a) mask_;
     log_episode_reshaped_return_DIRT_CLEANED :=
       vmul (log_episode_reshaped_return_DIRT_CLEANED a) mask_;
     log_episode_num_frames := vmul (log_episode_num_frames a) mask_ |}.

(** The policy's forward pass, recorded in the world.  Lines 171-174 and
    329-332: a recurrent policy receives [self.memory * self.mask.unsqueeze(1)]. *)
Definition memory_argument (e : Experience) : option mat :=
  if acmodel_recurrent then Some (mask_memory (memory e) (mask e)) else None.

Definition forward (e : Experience) (w : World)
  : Dist * vec * mat * World :=
  let preprocessed_obs := preprocess_obss (obs e) in
  let '(dist, value, memory') :=
    acmodel preprocessed_obs (memory_argument e) in
  (dist, value, memory',
   {| env := env w; rng := rng w;
      forward_calls :=
        forward_calls w ++ [(preprocessed_obs, memory_argument e)] |}).

Definition with_exper (self : BaseAlgo) (e : Experience) : BaseAlgo :=
  {| params := params self; exper := e;
     episode := episode self; history := history self |}.

(** Lines 169-177: the policy is asked, an action is sampled, the bridge
    steps. *)
Definition interact (e : Experience) (w : World)
  : Dist * vec * mat * list Z
    * (list Obs * vec * list bool * list info_dict) * World :=
  let '(dist, value, memory', w1) := forward e w in
  let '(action, rng') := dist_sample dist (rng w1) in
  let '(env', result) := env_step (env w1) action in
  (dist, value, memory', action, result,
   {| env := env'; rng := rng'; forward_calls := forward_calls w1 |}).

(** The metadata the next step will receive. *)
Definition step_infos (e : Experience) (w : World) : list info_dict :=
  (interact e w).1.2.2.

(** Lines 167-323: one iteration of [for i in range(num_frames_per_proc)]. *)
Definition rollout_step (i : nat) (loc : Locals)
  : M (BaseAlgo * World) Locals :=
  fun '(self, w) =>
  let e := exper self in
  let '(dist, value, memory', action, (obs', reward, done, infos), w2) :=
    interact e w in
  match discover_channels infos loc with
  | inl err => Raise err (self, w2)
  | inr loc' =>
    let e1 := store_transition i e obs' memory' done action value in
    match reshape_reward (params self) with
    | Some f =>
      let e2 :=
        set_rewards e1
          (<[i := reshaped_rewards f obs' action reward done]> (rewards e1)) in
      Raise (AssertionError "no idea how to use performance here")
            (with_exper self e2, w2)
    | None =>
      let e2 := store_rewards i loc' e1 reward (dist_log_prob dist action) in
      let a1 := accumulate (num_procs (params self)) i loc' e2 reward
                           (episode self) in
      let h1 := flush_done loc' a1 0 done (history self) in
      let a2 := reset_done (mask e2) a1 in
      Return loc'
        ({| params := params self; exper := e2;
            episode := a2; history := h1 |}, w2)
    end
  end.

(** Lines 166-323. *)
Definition rollout : M (BaseAlgo * World) Locals :=
  fun '(self, w) =>
  for_each (seq 0 (num_frames_per_proc (params self))) rollout_step
           init_locals (self, w).

(** ** The advantage estimator, lines 334-340 *)

(** One iteration of [for i in reversed(range(T))]; the pair carries
    [self.advantages] and the local [next_value].  The body runs for
    [T >= 1] only, where [T - 1] on naturals is Python's. *)
Definition gae_step (T n : nat) (discount_ gae_lambda_ : Qc)
    (values_ rewards_ masks_ : mat) (mask_ : vec)
    (st : mat * vec) (i : nat) : mat * vec :=
  let '(advantages_, next_value) := st in
  let next_mask :=
    if bool_decide (i < T - 1)%nat then row masks_ (i + 1) else mask_ in
  let next_value :=
    if bool_decide (i < T - 1)%nat then row values_ (i + 1)
    else next_value in
  let next_advantage :=
    if bool_decide (i < T - 1)%nat then Tensor (row advantages_ (i + 1))
    else Num 0 in
  let delta :=
    osub (oadd (Tensor (row rewards_ i))
               (omul (omul (Num discount_) (Tensor next_value))
                     (Tensor next_mask)))
         (Tensor (row values_ i)) in
  let advantage :=
    oadd delta
         (omul (omul (omul (Num discount_) (Num gae_lambda_)) next_advantage)
               (Tensor next_mask)) in
  (<[i := to_row n advantage]> advantages_, next_value).

Definition gae (T n : nat) (discount_ gae_lambda_ : Qc)
    (values_ rewards_ masks_ : mat) (mask_ : vec) (next_value : vec)
    (advantages_ : mat) : mat :=
  (foldl (gae_step T n discount_ gae_lambda_ values_ rewards_ masks_ mask_)
         (advantages_, next_value) (reverse (seq 0 T))).1.

Definition set_advantages (e : Experience) (adv : mat) : Experience :=
  {| obss := obss e; obs := obs e; memories := memories e;
     memory := memory e; masks := masks e; mask := mask e;
     actions := actions e; values := values e;
     rewards := rewards e;
     rewards_PERFORMANCE := rewards_PERFORMANCE e;
     rewards_BUTTON_PRESSES := rewards_BUTTON_PRESSES e;
     rewards_PHONES_CLEANED := rewards_PHONES_CLEANED e;
     rewards_DIRT_CLEANED := rewards_DIRT_CLEANED e;
     advantages := adv;
     log_probs := log_probs e |}.

Definition compute_advantages (p : Params) (next_value : vec)
    (e : Experience) : Experience :=
  set_advantages e
    (gae (num_frames_per_proc p) (num_procs p) (discount p) (gae_lambda p)
         (values e) (rewards e) (masks e) (mask e) next_value
         (advantages e)).

(** ** The batch reshaper, lines 350-369 *)

Record Exps : Type := {
  exps_obs : PObs;
  exps_memory : option (list vec);
  exps_mask : option (list vec);
  exps_action : list Z;
  exps_value : vec;
  exps_reward : vec;
  exps_advantage : vec;
  exps_returnn : vec;
  exps_log_prob : vec;
}.

(** [self.obss[i][j]]. *)
Definition obs_cell (obss_ : list (option (list Obs))) (i j : nat)
  : exn + Obs :=
  match obss_ !! i with
  | None => inl IndexError
  | Some None => inl (TypeError "'NoneType' object is not subscriptable")
  | Some (Some o) =>
    match o !! j with
    | None => inl IndexError
    | Some x => inr x
    end
  end.

Fixpoint sequence {A} (l : list (exn + A)) : exn + list A :=
  match l with
  | [] => inr []
  | inl e :: _ => inl e
  | inr a :: l' =>
    match sequence l' with
    | inl e => inl e
    | inr r => inr (a :: r)
    end
  end.

(** [[self.obss[i][j] for j in range(P) for i in range(T)]]. *)
Definition flat_obs (T n : nat) (obss_ : list (option (list Obs)))
  : exn + list Obs :=
  sequence (j ← seq 0 n; i ← seq 0 T; [obs_cell obss_ i j]).

(** What [reshape(-1, 0)] raises at line 356. *)
Definition reshape_error : string :=
  "cannot reshape tensor of 0 elements into shape [-1, 0] because the unspecified dimension size -1 can be any value and is ambiguous".

(** Line 356 reshapes the memories to [(-1, memory_size)]: with a memory
    of size 0 the dimension [-1] cannot be inferred and torch raises. *)
Definition make_exps (p : Params) (e : Experience) : exn + Exps :=
  match flat_obs (num_frames_per_proc p) (num_procs p) (obss e) with
  | inl err => inl err
  | inr obs_list =>
    if acmodel_recurrent && bool_decide (acmodel_memory_size = 0%nat)
    then inl (RuntimeError reshape_error)
    else
    let n := num_procs p in
    let value := flatten_TP n (values e) in
    let advantage := flatten_TP n (advantages e) in
    inr {| exps_obs := preprocess_obss obs_list;
           exps_memory :=
             if acmodel_recurrent
             then Some (flatten_TP n (memories e)) else None;
           exps_mask :=
             if acmodel_recurrent
             then Some ((fun x => [x]) <$> flatten_TP n (masks e))
             else None;
           exps_action := flatten_TP n (actions e);
           exps_value := value;
           exps_reward := flatten_TP n (rewards e);
           exps_advantage := advantage;
           exps_returnn := vadd value advantage;
           exps_log_prob := flatten_TP n (log_probs e) |}
  end.

(** ** The summary, lines 373-407 *)

Record Logs : Type := {
  return_per_episode : vec;
  reshaped_return_per_episode : vec;
  num_frames_per_episode : vec;
  logs_num_frames : nat;
  messes_per_episode : vec;
  performance_full_per_episode : vec;
  performance_per_episode : vec;
  reshaped_performance_per_episode : vec;
  buttons_per_episode : vec;
  reshaped_buttons_per_episode : vec;
  phones_per_episode : vec;
  reshaped_phones_per_episode : vec;
  dirt_per_episode : vec;
  reshaped_dirt_per_episode : vec;
  numberOfPermutes : Qc;
  buttonValue : Qc;
}.

(** [info[0][key]] after the loop. *)
Definition last_info (loc : Locals) (key : string) : exn + Qc :=
  match info loc with
  | None => inl (UnboundLocalError "info")
  | Some infos =>
    match infos !! 0%nat with
    | None => inl IndexError
    | Some info0 =>
      match info0 !! key with
      | None => inl (KeyError key)
      | Some x => inr x
      end
    end
  end.

Definition keep_of (p : Params) (h : History) : nat :=
  log_done_counter h `max` num_procs p.

Definition make_logs (p : Params) (h : History) (loc : Locals)
  : exn + Logs :=
  let keep := keep_of p h in
  match last_info loc "numberOfPermutes" with
  | inl err => inl err
  | inr permutes =>
    match last_info loc "buttonValue" with
    | inl err => inl err
    | inr button =>
      inr {| return_per_episode := last_n keep (log_return h);
             reshaped_return_per_episode :=
               last_n keep (log_reshaped_return h);
             num_frames_per_episode := last_n keep (log_num_frames h);
             logs_num_frames := num_frames p;
             messes_per_episode := last_n keep (log_return_MESSES h);
             performance_full_per_episode :=
               last_n keep (log_return_PERFORMANCE_FULL h);
             performance_per_episode :=
               last_n keep (log_return_PERFORMANCE h);
             reshaped_performance_per_episode :=
               last_n keep (log_reshaped_return_PERFORMANCE h);
             buttons_per_episode :=
               last_n keep (log_return_BUTTON_PRESSES h);
             reshaped_buttons_per_episode :=
               last_n keep (log_reshaped_return_BUTTON_PRESSES h);
             phones_per_episode :=
               last_n keep (log_return_PHONES_CLEANED h);
             reshaped_phones_per_episode :=
               last_n keep (log_reshaped_return_PHONES_CLEANED h);
             dirt_per_episode := last_n keep (log_return_DIRT_CLEANED h);
             reshaped_dirt_per_episode :=
               last_n keep (log_reshaped_return_DIRT_CLEANED h);
             numberOfPermutes := permutes;
             buttonValue := button |}
    end
  end.

(** Lines 404-407. *)
Definition truncate (n : nat) (h : History) : History :=
  {| log_done_counter := 0;
     log_return := last_n n (log_return h);
     log_reshaped_return := last_n n (log_reshaped_return h);
     log_num_frames := last_n n (log_num_frames h);
     log_return_MESSES := log_return_MESSES h;
     log_return_PERFORMANCE_FULL := log_return_PERFORMANCE_FULL h;
     log_return_PERFORMANCE := log_return_PERFORMANCE h;
     log_return_BUTTON_PRESSES := log_return_BUTTON_PRESSES h;
     log_return_PHONES_CLEANED := log_return_PHONES_CLEANED h;
     log_return_DIRT_CLEANED := log_return_DIRT_CLEANED h;
     log_reshaped_return_PERFORMANCE := log_reshaped_return_PERFORMANCE h;
     log_reshaped_return_BUTTON_PRESSES :=
       log_reshaped_return_BUTTON_PRESSES h;
     log_reshaped_return_PHONES_CLEANED :=
       log_reshaped_return_PHONES_CLEANED h;
     log_reshaped_return_DIRT_CLEANED :=
       log_reshaped_return_DIRT_CLEANED h |}.

(** Lines 327-332: the bootstrap value of the state after the last step. *)
Definition bootstrap : M (BaseAlgo * World) vec :=
  fun '(self, w) =>
  let '(_, next_value, _, w1) := forward (exper self) w in
  Return next_value (self, w1).

(** Lines 334-340. *)
Definition estimate (next_value : vec) : M (BaseAlgo * World) unit :=
  fun '(self, w) =>
  Return tt
    (with_exper self (compute_advantages (params self) next_value
                                         (exper self)), w).

(** Lines 350-409. *)
Definition summarize (loc : Locals) : M (BaseAlgo * World) (Exps * Logs) :=
  fun '(self, w) =>
  match make_exps (params self) (exper self) with
  | inl err => Raise err (self, w)
  | inr exps =>
    match make_logs (params self) (history self) loc with
    | inl err => Raise err (self, w)
    | inr logs =>
      Return (exps, logs)
        ({| params := params self; exper := exper self;
            episode := episode self;
            history := truncate (num_procs (params self)) (history self) |},
         w)
    end
  end.

Local Open Scope py_scope.

Definition collect_experiences : M (BaseAlgo * World) (Exps * Logs) :=
  let* loc := rollout in
  let* next_value := bootstrap in
  let* _ := estimate next_value in
  summarize loc.

Local Close Scope py_scope.

End Collector.

Arguments World Ext : clear implicits.
Arguments BaseAlgo Ext : clear implicits.

(** ** A scripted bridge and a constant policy

    Concrete collaborators on which the collector runs: the bridge replays
    a script, one entry per step holding a (reward, done, metadata) triple
    per process; the policy answers the same value for every process. *)

Module Scripted.

Definition cell : Type := Qc * bool * info_dict.

Definition idle : cell := (0, false, ∅).

Definition step_script (n : nat) (script : list (list cell)) (_ : list Z)
  : list (list cell) * (list nat * vec * list bool * list info_dict) :=
  let cells := resize n idle (default [] (head script)) in
  (tail script,
   (replicate n 0%nat, (fun c => c.1.1) <$> cells,
    (fun c => c.1.2) <$> cells, (fun c => c.2) <$> cells)).

Definition ext (n d : nat) (recurrent : bool) (value : Qc) : Externals :=
  {| Obs := nat;
     PObs := list nat;
     Dist := unit;
     EnvState := list (list cell);
     Rng := unit;
     len_envs := n;
     env_reset := fun s => (s, replicate n 0%nat);
     env_step := step_script n;
     acmodel_recurrent := recurrent;
     acmodel_memory_size := d;
     acmodel := fun _ _ => (tt, replicate n value, replicate n (replicate d 1));
     dist_sample := fun _ g => (replicate n 0%Z, g);
     dist_log_prob := fun _ _ => replicate n 0;
     preprocess_obss := fun o => o |}.

Definition world (n d : nat) (recurrent : bool) (value : Qc)
    (script : list (list cell)) : World (ext n d recurrent value) :=
  @Build_World (ext n d recurrent value) script tt [].

(** The metadata every step of a well-behaved run carries. *)
Definition passthrough : info_dict :=
  {[ "numberOfPermutes" := 0; "buttonValue" := 0 ]}.

End Scripted.

(** The rational [a / b]. *)
Definition q (a : Z) (b : positive) : Qc := Q2Qc (a # b).


Local Open Scope nat_scope.

(** ** Facts on lists used as tensors *)

Section Lists.
Context {A : Type}.
Implicit Types (buf : list (list A)) (T n t p : nat).

(** A buffer of [T] rows of [n] entries. *)
Definition is_TN T n buf : Prop :=
  length buf = T ∧ Forall (fun r => length r = n) buf.

Lemma length_transpose n buf :
  Forall (fun r => length r = n) buf → length (transpose n buf) = n.
Proof.
  induction 1 as [|r buf Hr _ IH]; simpl.
  - apply length_replicate.
  - rewrite length_zip_with. lia.
Qed.

Lemma lookup_transpose n buf p :
  Forall (fun r => length r = n) buf → p < n →
  ∃ col, transpose n buf !! p = Some col
         ∧ ∀ t, col !! t = buf !! t ≫= (fun r => r !! p).
Proof.
  intros Hbuf Hp. induction Hbuf as [|r buf Hr Hbuf (col & Hcol & IH)]; simpl.
  - exists []. split; [by rewrite lookup_replicate_2|done].
  - destruct (lookup_lt_is_Some_2 r p) as [x Hx]; [lia|].
    exists (x :: col). split.
    + by rewrite lookup_zip_with, Hx, Hcol.
    + intros [|t]; simpl; [done|apply IH].
Qed.

Lemma lookup_concat_uniform T (rows : list (list A)) p t :
  Forall (fun r => length r = T) rows → t < T →
  concat rows !! (p * T + t) = rows !! p ≫= (fun r => r !! t).
Proof.
  intros Hrows Ht. revert p.
  induction Hrows as [|r rows Hr _ IH]; intros p; simpl.
  - rewrite !lookup_nil. reflexivity.
  - destruct p as [|p]; simpl.
    + rewrite lookup_app_l by lia. reflexivity.
    + rewrite lookup_app_r by lia.
      replace (T + p * T + t - length r) with (p * T + t) by lia.
      apply IH.
Qed.

Lemma length_concat_uniform T (rows : list (list A)) :
  Forall (fun r => length r = T) rows →
  length (concat rows) = length rows * T.
Proof.
  induction 1 as [|r rows Hr _ IH]; simpl; [done|].
  rewrite length_app, IH, Hr. reflexivity.
Qed.

Lemma transpose_rows T n buf :
  is_TN T n buf → Forall (fun c => length c = T) (transpose n buf).
Proof.
  intros [<- Hbuf]. induction Hbuf as [|r buf Hr Hbuf IH]; simpl.
  - apply Forall_replicate. reflexivity.
  - apply Forall_lookup_2. intros i c. rewrite lookup_zip_with.
    intros Hc. apply bind_Some in Hc as (x & _ & Hc).
    apply bind_Some in Hc as (c' & Hc' & [= <-]).
    simpl. f_equal. eapply (Forall_lookup_1 _ _ _ _ IH Hc').
Qed.

Lemma length_flatten_TP T n buf :
  is_TN T n buf → length (flatten_TP n buf) = T * n.
Proof.
  intros Hb. unfold flatten_TP, reshape_flat.
  rewrite (length_concat_uniform T) by by apply transpose_rows.
  rewrite length_transpose by apply Hb. lia.
Qed.

(** Flat index [p * T + t] holds the cell [[t][p]]. *)
Lemma lookup_flatten_TP T n buf t p :
  is_TN T n buf → t < T → p < n →
  flatten_TP n buf !! (p * T + t) = buf !! t ≫= (fun r => r !! p).
Proof.
  intros Hb Ht Hp. unfold flatten_TP, reshape_flat.
  rewrite (lookup_concat_uniform T); [|by apply transpose_rows|done].
  destruct (lookup_transpose n buf p) as (col & -> & Hcol);
    [apply Hb|done|]. apply Hcol.
Qed.

(** The inverse permutation: cell [[t][p]] is read back from flat index
    [p * T + t]. *)
Definition unflatten T n (flat : list A) : list (list A) :=
  (fun t => omap (fun p => flat !! (p * T + t)) (seq 0 n)) <$> seq 0 T.

Lemma omap_ext_Forall {B} (f g : B → option A) (l : list B) :
  Forall (fun x => f x = g x) l → omap f l = omap g l.
Proof. induction 1 as [|x l Hx _ IH]; csimpl; [done|]. by rewrite Hx, IH. Qed.

Lemma omap_lookup_seq (r : list A) :
  omap (fun p => r !! p) (seq 0 (length r)) = r.
Proof.
  induction r as [|x r IH]; csimpl; [done|].
  rewrite <- fmap_S_seq. f_equal.
  rewrite <- IH at 2. clear IH.
  generalize (seq 0 (length r)). intros l.
  induction l as [|y l IH]; csimpl; [done|]. by rewrite IH.
Qed.

Lemma unflatten_flatten T n buf :
  is_TN T n buf → unflatten T n (flatten_TP n buf) = buf.
Proof.
  intros Hb. apply list_eq. intros t. unfold unflatten.
  rewrite list_lookup_fmap.
  destruct (decide (t < T)) as [Ht|Ht].
  - rewrite lookup_seq_lt by done. simpl.
    destruct (lookup_lt_is_Some_2 buf t) as [r Hr]; [destruct Hb; lia|].
    rewrite Hr. f_equal.
    assert (length r = n) as Hn.
    { destruct Hb as [_ Hb]. eapply (Forall_lookup_1 _ _ _ _ Hb Hr). }
    transitivity (omap (fun p => r !! p) (seq 0 n));
      [|by rewrite <- Hn, omap_lookup_seq].
    apply omap_ext_Forall, Forall_forall. intros p Hp.
    apply elem_of_seq in Hp.
    rewrite (lookup_flatten_TP T) by (done || lia). by rewrite Hr.
  - rewrite lookup_seq_ge by lia. simpl. symmetry.
    apply lookup_ge_None. destruct Hb. lia.
Qed.

End Lists.


(** ** Shapes

    The bridge and the policy answer one entry per process. *)

Class ExternalsOk `{Ext : Externals} : Prop := {
  env_reset_shape s : length (env_reset s).2 = len_envs;
  env_step_shape s a s' o r d i :
    env_step s a = (s', (o, r, d, i)) →
    length o = len_envs ∧ length r = len_envs
    ∧ length d = len_envs ∧ length i = len_envs;
  acmodel_shape o m dist v m' :
    acmodel o m = (dist, v, m') →
    length v = len_envs ∧ length m' = len_envs;
  dist_sample_shape d g a g' :
    dist_sample d g = (a, g') → length a = len_envs;
  dist_log_prob_shape d a : length (dist_log_prob d a) = len_envs;
}.

Section Shapes.
Context `{Ok : ExternalsOk}.

(** The shape invariant of an instance: [T x N] buffers and per-process
    vectors of [N] entries. *)
Record shaped (self : BaseAlgo Ext) : Prop := {
  sh_procs : num_procs (params self) = len_envs;
  sh_obs : length (obs (exper self)) = len_envs;
  sh_obss : length (obss (exper self)) = num_frames_per_proc (params self);
  sh_memory : length (memory (exper self)) = len_envs;
  sh_mask : length (mask (exper self)) = len_envs;
  sh_memories :
    is_TN (num_frames_per_proc (params self)) len_envs
          (memories (exper self));
  sh_masks :
    is_TN (num_frames_per_proc (params self)) len_envs (masks (exper self));
  sh_actions :
    is_TN (num_frames_per_proc (params self)) len_envs
          (actions (exper self));
  sh_values :
    is_TN (num_frames_per_proc (params self)) len_envs (values (exper self));
  sh_rewards :
    is_TN (num_frames_per_proc (params self)) len_envs
          (rewards (exper self));
  sh_advantages :
    is_TN (num_frames_per_proc (params self)) len_envs
          (advantages (exper self));
  sh_log_probs :
    is_TN (num_frames_per_proc (params self)) len_envs
          (log_probs (exper self));
}.

Lemma is_TN_replicate {A} T n (r : list A) :
  length r = n → is_TN T n (replicate T r).
Proof.
  intros Hr. split; [apply length_replicate|by apply Forall_replicate].
Qed.

Lemma is_TN_insert {A} T n (buf : list (list A)) i r :
  is_TN T n buf → length r = n → is_TN T n (<[i := r]> buf).
Proof.
  intros [HT Hb] Hr. split; [by rewrite length_insert|].
  by apply Forall_insert.
Qed.

Lemma init_shaped nf d l g ec vc mg rc rr w self w' :
  init nf d l g ec vc mg rc rr w = Return self w' → shaped self.
Proof.
  unfold init. destruct (negb _); [done|].
  destruct (py_mod nf rc) as [|r]; [done|]. destruct (negb _); [done|].
  destruct (env_reset (env w)) as [env' obs0] eqn:Hreset.
  case_decide; [done|]. intros [= <- _].
  pose proof (env_reset_shape (env w)) as Hobs. rewrite Hreset in Hobs.
  split; simpl; try done;
    try (apply is_TN_replicate; apply length_replicate);
    apply length_replicate.
Qed.

Lemma is_TN_row {A} T n (buf : list (list A)) i :
  is_TN T n buf → i < T → length (row buf i) = n.
Proof.
  intros [HT Hb] Hi. unfold row.
  destruct (lookup_lt_is_Some_2 buf i) as [r Hr]; [lia|]. rewrite Hr.
  apply (Forall_lookup_1 _ _ _ _ Hb Hr).
Qed.

Lemma rollout_step_shaped i loc self w loc' self' w' :
  rollout_step i loc (self, w) = Return loc' (self', w') →
  shaped self → shaped self' ∧ params self' = params self.
Proof.
  unfold rollout_step, interact, forward.
  destruct (acmodel _ _) as [[dist value] memory'] eqn:Hac.
  destruct (dist_sample _ _) as [action rng'] eqn:Hsample.
  destruct (env_step _ _) as [env' [[[obs' reward] done] infos]] eqn:Hstep.
  destruct (discover_channels infos loc) as [|loc1]; [done|].
  destruct (reshape_reward (params self)); [done|].
  intros [= <- <- <-] Hsh. split; [|done].
  apply acmodel_shape in Hac as [Hvalue Hmem].
  apply dist_sample_shape in Hsample.
  apply env_step_shape in Hstep as (Ho & Hr & Hd & Hi).
  destruct Hsh. split; simpl; try done.
  - by rewrite length_insert.
  - by destruct acmodel_recurrent.
  - by rewrite length_fmap.
  - destruct acmodel_recurrent; [by apply is_TN_insert|done].
  - by apply is_TN_insert.
  - by apply is_TN_insert.
  - by apply is_TN_insert.
  - by apply is_TN_insert.
  - apply is_TN_insert; [done|]. apply dist_log_prob_shape.
Qed.

Lemma for_each_inv {S A L} (I : L → S → Prop) (body : A → L → M S L)
    (xs : list A) acc s acc' s' :
  (∀ x a s a' s', x ∈ xs → I a s → body x a s = Return a' s' → I a' s') →
  I acc s → for_each xs body acc s = Return acc' s' → I acc' s'.
Proof.
  revert acc s. induction xs as [|x xs IH]; intros acc s Hbody HI; simpl.
  - by intros [= <- <-].
  - unfold bind. destruct (body x acc s) as [a1 s1|] eqn:Hx; [|done].
    apply IH.
    + intros y a t a' t' Hy. apply Hbody. by right.
    + eapply Hbody; [by left|done|done].
Qed.

Lemma rollout_shaped self w loc self' w' :
  rollout (self, w) = Return loc (self', w') →
  shaped self → shaped self' ∧ params self' = params self.
Proof.
  unfold rollout. intros Hrun Hsh.
  refine (for_each_inv
            (fun _ s => shaped s.1 ∧ params s.1 = params self)
            _ _ _ _ _ _ _ _ Hrun); [|by split].
  intros x a [s1 w1] a' [s2 w2] _ [H1 H2] Hstep. simpl in *.
  destruct (rollout_step_shaped _ _ _ _ _ _ _ Hstep H1).
  split; [done|congruence].
Qed.

(** The estimator keeps the shape of the advantage buffer. *)
Lemma gae_step_shaped T n dc lam vals rews msks msk adv nv i :
  is_TN T n vals → is_TN T n rews → is_TN T n msks → length msk = n →
  i < T → is_TN T n adv → length nv = n →
  is_TN T n (gae_step T n dc lam vals rews msks msk (adv, nv) i).1
  ∧ length (gae_step T n dc lam vals rews msks msk (adv, nv) i).2 = n.
Proof.
  intros Hv Hr Hm Hk Hi Ha Hn. unfold gae_step. simpl.
  pose proof (is_TN_row T n rews i Hr Hi) as Hri.
  pose proof (is_TN_row T n vals i Hv Hi) as Hvi.
  case_bool_decide as Hlt.
  - assert (i + 1 < T) as Hi1 by lia.
    pose proof (is_TN_row T n msks _ Hm Hi1).
    pose proof (is_TN_row T n vals _ Hv Hi1).
    pose proof (is_TN_row T n adv _ Ha Hi1).
    split; [|done]. apply is_TN_insert; [done|]. simpl.
    rewrite !length_zip_with, !length_fmap. lia.
  - split; [|done]. apply is_TN_insert; [done|]. simpl.
    rewrite !length_zip_with, !length_fmap. lia.
Qed.

Lemma gae_shaped T n dc lam vals rews msks msk nv adv :
  is_TN T n vals → is_TN T n rews → is_TN T n msks → length msk = n →
  is_TN T n adv → length nv = n →
  is_TN T n (gae T n dc lam vals rews msks msk nv adv).
Proof.
  intros Hv Hr Hm Hk Ha Hn. unfold gae.
  assert (Forall (fun i => i < T) (reverse (seq 0 T))) as Hl.
  { apply Forall_forall. intros i Hi. apply elem_of_reverse, elem_of_seq in Hi. lia. }
  revert adv nv Ha Hn Hl. generalize (reverse (seq 0 T)). intros l.
  induction l as [|i l IH]; intros adv nv Ha Hn Hl; cbn [foldl]; [done|].
  inversion_clear Hl as [|? ? Hi Hl'].
  destruct (gae_step_shaped T n dc lam vals rews msks msk adv nv i)
    as [H1 H2]; try done.
  destruct (gae_step _ _ _ _ _ _ _ _ _ _) as [adv1 nv1]. by apply IH.
Qed.

Lemma collect_shaped self w exps logs self' w' :
  collect_experiences (self, w) = Return (exps, logs) (self', w') →
  shaped self → shaped self' ∧ params self' = params self.
Proof.
  unfold collect_experiences, bind.
  destruct (rollout (self, w)) as [loc [s1 w1]|] eqn:Hroll; [|done].
  intros Hrun Hsh.
  destruct (rollout_shaped _ _ _ _ _ Hroll Hsh) as [Hs1 Hp1].
  unfold bootstrap, forward in Hrun.
  destruct (acmodel _ _) as [[dist next_value] mem'] eqn:Hac.
  apply acmodel_shape in Hac as [Hnv _].
  unfold estimate, summarize in Hrun. cbn [params exper with_exper] in Hrun.
  destruct (make_exps _ _) as [|exps1]; [done|].
  destruct (make_logs _ _ _) as [|logs1]; [done|].
  injection Hrun as _ _ <- _. split; [|done].
  destruct Hs1. split; simpl; try done.
  rewrite sh_procs0. by apply gae_shaped.
Qed.

End Shapes.

(** ** The advantage recurrence *)

Section Gae.
Variables (T n : nat) (dc lam : Qc) (vals rews msks : mat) (msk nv0 : vec).

Let step := gae_step T n dc lam vals rews msks msk.

(** The row the estimator writes at slot [t], reading slot [t + 1] of
    [adv]. *)
Definition gae_row (adv : mat) (t : nat) : vec :=
  default [] ((step (adv, nv0) t).1 !! t).

Lemma gae_step_length st i : length (step st i).1 = length st.1.
Proof. destruct st as [adv nv]. unfold step, gae_step. simpl. apply length_insert. Qed.

Lemma gae_step_other st i t : t ≠ i → (step st i).1 !! t = st.1 !! t.
Proof.
  intros Hne. destruct st as [adv nv]. unfold step, gae_step. simpl.
  by apply list_lookup_insert_ne.
Qed.

Lemma gae_foldl_length l st : length (foldl step st l).1 = length st.1.
Proof.
  revert st. induction l as [|i l IH]; intros st; cbn [foldl]; [done|].
  by rewrite IH, gae_step_length.
Qed.

Lemma gae_foldl_frame l st t :
  t ∉ l → (foldl step st l).1 !! t = st.1 !! t.
Proof.
  revert st. induction l as [|i l IH]; intros st Hl; cbn [foldl]; [done|].
  apply not_elem_of_cons in Hl as [Hne Hl].
  by rewrite IH, gae_step_other.
Qed.

(** A step at [i] below [T - 1] ignores the carried [next_value]; the
    step at [T - 1] is the first one and reads the bootstrap value. *)
Lemma gae_step_self adv nv i :
  i < length adv → (i < T - 1 ∨ nv = nv0) →
  (step (adv, nv) i).1 !! i = Some (gae_row adv i).
Proof.
  intros Hi Hnv. unfold gae_row, step, gae_step. simpl.
  rewrite !list_lookup_insert_eq by done. simpl.
  destruct Hnv as [Hlt| ->]; [|done].
  by rewrite !bool_decide_eq_true_2.
Qed.

Lemma gae_row_ext adv adv' t :
  adv !! (t + 1) = adv' !! (t + 1) → length adv = length adv' →
  t < length adv →
  gae_row adv t = gae_row adv' t.
Proof.
  intros Hrow Hlen Ht. unfold gae_row, step, gae_step. simpl.
  rewrite !list_lookup_insert_eq by lia. simpl.
  unfold row. by rewrite Hrow.
Qed.

Lemma gae_prefix adv0 m :
  length adv0 = T → m ≤ T →
  let adv := (foldl step (adv0, nv0) (reverse (seq (T - m) m))).1 in
  ∀ t, T - m ≤ t < T → adv !! t = Some (gae_row adv t).
Proof.
  intros HT. induction m as [|m IH]; intros Hm adv t Ht; [lia|].
  subst adv. replace (T - S m) with (T - m - 1) in * by lia.
  assert (seq (T - m - 1) (S m) = (T - m - 1) :: seq (T - m) m) as ->.
  { simpl. do 2 f_equal. lia. }
  rewrite reverse_cons, foldl_app. cbn [foldl].
  set (st := foldl step (adv0, nv0) (reverse (seq (T - m) m))) in *.
  assert (length st.1 = T) as Hlen by (subst st; by rewrite gae_foldl_length).
  destruct (decide (t = T - m - 1)) as [->|Hne].
  - destruct st as [adv nv] eqn:Hst. simpl in Hlen.
    rewrite gae_step_self; [|lia|].
    + f_equal. apply gae_row_ext; [|by rewrite gae_step_length|lia].
      symmetry. apply gae_step_other. lia.
    + destruct m as [|m]; [right|left; lia].
      subst st. simpl in Hst. by injection Hst.
  - rewrite gae_step_other by done. rewrite IH by lia.
    f_equal. apply gae_row_ext.
    + symmetry. apply gae_step_other. lia.
    + by rewrite gae_step_length.
    + lia.
Qed.

Lemma gae_rows adv0 t :
  length adv0 = T → t < T →
  let adv := gae T n dc lam vals rews msks msk nv0 adv0 in
  adv !! t = Some (gae_row adv t).
Proof.
  intros HT Ht. unfold gae.
  pose proof (gae_prefix adv0 T HT (le_n T)) as H.
  rewrite Nat.sub_diag in H. apply H. lia.
Qed.

End Gae.

(** The entry of process [p] at slot [t] of a buffer. *)
Definition cell (buf : mat) (t p : nat) : Qc := item (row buf t) p.

Lemma lookup_item (v : vec) n p :
  length v = n → p < n → v !! p = Some (item v p).
Proof.
  intros Hv Hp. unfold item.
  destruct (lookup_lt_is_Some_2 v p) as [x ->]; [lia|done].
Qed.

Lemma lookup_row_cell T n (buf : mat) t p :
  is_TN T n buf → t < T → p < n → row buf t !! p = Some (cell buf t p).
Proof.
  intros Hb Ht Hp. apply (lookup_item _ n); [|done]. by apply (is_TN_row T).
Qed.

Lemma lookup_cell T n (buf : mat) t p :
  is_TN T n buf → t < T → p < n →
  buf !! t ≫= (fun r => r !! p) = Some (cell buf t p).
Proof.
  intros Hb Ht Hp. rewrite <- (lookup_row_cell T n) by done. unfold row.
  destruct (lookup_lt_is_Some_2 buf t) as [r ->]; [destruct Hb; lia|done].
Qed.



(** ** The end-to-end scenario of the advantage estimator *)

(** Three steps of two processes, reward 1, no termination. *)
Definition steady_script : list (list Scripted.cell) :=
  replicate 3 (replicate 2 (1%Qc, false, Scripted.passthrough)).




(** ** The phases of a successful cycle *)

Section Phases.
Context `{Ext : Externals}.

(** The value the policy gives to the state after the last step. *)
Definition bootstrap_value (e : Experience) : vec :=
  (acmodel (preprocess_obss (obs e)) (memory_argument e)).1.2.

Lemma collect_inv self w exps logs self' w' :
  collect_experiences (self, w) = Return (exps, logs) (self', w') →
  ∃ loc s1 w1,
    rollout (self, w) = Return loc (s1, w1)
    ∧ let e1 := compute_advantages (params s1)
                  (bootstrap_value (exper s1)) (exper s1) in
      make_exps (params s1) e1 = inr exps
      ∧ make_logs (params s1) (history s1) loc = inr logs
      ∧ self' = {| params := params s1; exper := e1;
                   episode := episode s1;
                   history := truncate (num_procs (params s1))
                                       (history s1) |}
      ∧ w' = {| env := env w1; rng := rng w1;
                forward_calls :=
                  forward_calls w1
                  ++ [(preprocess_obss (obs (exper s1)),
                       memory_argument (exper s1))] |}.
Proof.
  unfold collect_experiences, bind.
  destruct (rollout (self, w)) as [loc [s1 w1]|] eqn:Hroll; [|done].
  unfold bootstrap, forward, bootstrap_value.
  destruct (acmodel _ _) as [[dist next_value] mem'] eqn:Hac.
  unfold estimate, summarize. cbn [params exper with_exper history episode].
  destruct (make_exps _ _) as [|exps1] eqn:Hexps; [done|].
  destruct (make_logs _ _ _) as [|logs1] eqn:Hlogs; [done|].
  intros [= <- <- <- <-]. exists loc, s1, w1.
  rewrite Hac. cbn [fst snd]. by rewrite Hexps.
Qed.

(** The flat list of observations. *)
Lemma sequence_inr {A} (l : list (exn + A)) flat :
  sequence l = inr flat → l = inr <$> flat.
Proof.
  revert flat. induction l as [|[e|a] l IH]; intros flat; simpl.
  - by intros [= <-].
  - done.
  - destruct (sequence l) as [|r]; [done|]. intros [= <-].
    simpl. f_equal. by apply IH.
Qed.

Lemma obs_grid {B} (f : nat → nat → B) T n :
  (j ← seq 0 n; i ← seq 0 T; [f i j])
  = concat ((fun j => (fun i => f i j) <$> seq 0 T) <$> seq 0 n).
Proof.
  generalize (seq 0 n). intros l. induction l as [|j l IH]; csimpl; [done|].
  rewrite IH. f_equal.
Qed.

Lemma flat_obs_inr T n obss_ flat :
  flat_obs T n obss_ = inr flat →
  length flat = T * n
  ∧ ∀ t p, t < T → p < n →
      ∃ x, flat !! (p * T + t) = Some x ∧ obs_cell obss_ t p = inr x.
Proof.
  unfold flat_obs. intros Hseq. apply sequence_inr in Hseq.
  rewrite obs_grid in Hseq.
  assert (Forall (fun r : list (exn + Obs) => length r = T)
            ((fun j => (fun i => obs_cell obss_ i j) <$> seq 0 T)
               <$> seq 0 n)) as Hrows.
  { apply Forall_fmap, Forall_forall. intros j _. simpl.
    by rewrite length_fmap, length_seq. }
  split.
  - apply (f_equal length) in Hseq.
    rewrite (length_concat_uniform T) in Hseq by done.
    rewrite !length_fmap, length_seq in Hseq. lia.
  - intros t p Ht Hp.
    apply (f_equal (fun l => l !! (p * T + t))) in Hseq.
    rewrite (lookup_concat_uniform T) in Hseq by done.
    rewrite !list_lookup_fmap, lookup_seq_lt in Hseq by done. simpl in Hseq.
    rewrite list_lookup_fmap, lookup_seq_lt in Hseq by done. simpl in Hseq.
    destruct (flat !! (p * T + t)) as [x|]; [|done].
    exists x. split; [done|]. by injection Hseq.
Qed.

End Phases.

(** The scripted collaborators answer one entry per process. *)
Lemma scripted_ok n d recurrent value :
  @ExternalsOk (Scripted.ext n d recurrent value).
Proof.
  split; simpl.
  - intros s. apply length_replicate.
  - intros s a s' o r dn i. unfold Scripted.step_script.
    intros [= <- <- <- <- <-].
    by rewrite !length_fmap, length_resize, length_replicate.
  - intros o m dist v m' [= <- <- <-]. by rewrite !length_replicate.
  - intros dd g a g' [= <- <-]. apply length_replicate.
  - intros dd a. apply length_replicate.
Qed.

(** ** The batch reshaper *)

(** Buffer cell [[t][p]], when it exists. *)
Definition at_cell {A} (buf : list (list A)) (t p : nat) : option A :=
  buf !! t ≫= (fun r => r !! p).

Section Reshaper.
Context `{Ok : ExternalsOk}.

Lemma make_exps_inv p e exps :
  make_exps p e = inr exps →
  ∃ flat,
    flat_obs (num_frames_per_proc p) (num_procs p) (obss e) = inr flat
    ∧ exps_obs exps = preprocess_obss flat
    ∧ exps_memory exps =
        (if acmodel_recurrent
         then Some (flatten_TP (num_procs p) (memories e)) else None)
    ∧ exps_mask exps =
        (if acmodel_recurrent
         then Some ((fun x => [x]) <$> flatten_TP (num_procs p) (masks e))
         else None)
    ∧ exps_action exps = flatten_TP (num_procs p) (actions e)
    ∧ exps_value exps = flatten_TP (num_procs p) (values e)
    ∧ exps_reward exps = flatten_TP (num_procs p) (rewards e)
    ∧ exps_advantage exps = flatten_TP (num_procs p) (advantages e)
    ∧ exps_returnn exps = vadd (exps_value exps) (exps_advantage exps)
    ∧ exps_log_prob exps = flatten_TP (num_procs p) (log_probs e).
Proof.
  unfold make_exps. destruct (flat_obs _ _ _) as [|flat]; [done|].
  destruct (acmodel_recurrent && _); [done|].
  intros [= <-]. exists flat. simpl. repeat split; reflexivity.
Qed.

(** What a successful cycle leaves: a shaped instance whose batch is the
    flattening of its buffers. *)
Lemma collect_exps self w exps logs self' w' :
  shaped self →
  collect_experiences (self, w) = Return (exps, logs) (self', w') →
  shaped self' ∧ make_exps (params self') (exper self') = inr exps.
Proof.
  intros Hsh Hrun.
  destruct (collect_shaped _ _ _ _ _ _ Hrun Hsh) as [Hsh' _].
  split; [done|].
  apply collect_inv in Hrun as (loc & s1 & w1 & _ & Hexps & _ & -> & _).
  exact Hexps.
Qed.

End Reshaper.

(** A construction followed by a cycle, both successful. *)
Definition first_cycle_ok `{Ext : Externals}
    (o : outcome (World Ext) (BaseAlgo Ext)) : bool :=
  match o with
  | Return self w => succeeded (collect_experiences (self, w))
  | Raise _ _ => false
  end.

Lemma first_cycle_inv `{Ext : Externals}
    (o : outcome (World Ext) (BaseAlgo Ext)) :
  first_cycle_ok o = true →
  ∃ self w exps logs self' w',
    o = Return self w
    ∧ collect_experiences (self, w) = Return (exps, logs) (self', w').
Proof.
  destruct o as [self w|]; [|done]. simpl.
  destruct (collect_experiences (self, w))
    as [[exps logs] [self' w']|] eqn:Hrun; [|done].
  intros _. by exists self, w, exps, logs, self', w'.
Qed.

(** Rewards that name their cell: process [p] earns [10 * t + p] at step
    [t], over three steps of two processes. *)
Definition grid_script : list (list Scripted.cell) :=
  (fun t : Z =>
     (fun p : Z => (q (10 * t + p) 1, false, Scripted.passthrough))
       <$> [0; 1]%Z)
    <$> [0; 1; 2]%Z.

(** C2. After a successful cycle over [T] steps of [N] processes, every
    field of the flat batch holds buffer cell [[t][p]] at flat index
    [p * T + t]: the numeric fields, the observations handed to the
    preprocessor (entry [p] of the list recorded at slot [t]), and the
    memory and mask of a recurrent policy; and the inverse permutation of
    each numeric field is the buffer itself. *)
Theorem reshape_process_major `{Ok : ExternalsOk} self w exps logs self' w' :
  shaped self →
  collect_experiences (self, w) = Return (exps, logs) (self', w') →
  let T := num_frames_per_proc (params self') in
  let n := num_procs (params self') in
  let e := exper self' in
  (∀ t p, t < T → p < n →
     is_Some (at_cell (actions e) t p)
     ∧ exps_action exps !! (p * T + t) = at_cell (actions e) t p
     ∧ exps_value exps !! (p * T + t) = Some (cell (values e) t p)
     ∧ exps_reward exps !! (p * T + t) = Some (cell (rewards e) t p)
     ∧ exps_advantage exps !! (p * T + t) = Some (cell (advantages e) t p)
     ∧ exps_log_prob exps !! (p * T + t) = Some (cell (log_probs e) t p))
  ∧ (∃ flat, exps_obs exps = preprocess_obss flat
       ∧ ∀ t p, t < T → p < n →
           ∃ r o, obss e !! t = Some (Some r) ∧ r !! p = Some o
                  ∧ flat !! (p * T + t) = Some o)
  ∧ (acmodel_recurrent = true →
     ∃ mem msk, exps_memory exps = Some mem ∧ exps_mask exps = Some msk
       ∧ unflatten T n mem = memories e
       ∧ ∀ t p, t < T → p < n →
           is_Some (at_cell (memories e) t p)
           ∧ mem !! (p * T + t) = at_cell (memories e) t p
           ∧ msk !! (p * T + t) = Some [cell (masks e) t p])
  ∧ unflatten T n (exps_action exps) = actions e
  ∧ unflatten T n (exps_value exps) = values e
  ∧ unflatten T n (exps_reward exps) = rewards e
  ∧ unflatten T n (exps_advantage exps) = advantages e
  ∧ unflatten T n (exps_log_prob exps) = log_probs e.
Proof.
  intros Hsh Hrun T n e.
  destruct (collect_exps _ _ _ _ _ _ Hsh Hrun) as [Hsh' Hexps].
  apply make_exps_inv in Hexps
    as (flat & Hflat & Hobs & Hmem & Hmsk & Ha & Hv & Hr & Had & _ & Hl).
  destruct Hsh'. subst T n e. rewrite sh_procs0 in *.
  set (T := num_frames_per_proc (params self')) in *.
  assert (∀ A (buf : list (list A)) t p,
            is_TN T len_envs buf → t < T → p < len_envs →
            is_Some (at_cell buf t p)) as Hsome.
  { intros A buf t p [HT Hb] Ht Hp. unfold at_cell.
    destruct (lookup_lt_is_Some_2 buf t) as [r Hrow]; [lia|].
    rewrite Hrow. simpl. apply lookup_lt_is_Some_2.
    by rewrite (Forall_lookup_1 _ _ _ _ Hb Hrow). }
  split; [|split; [|split]].
  - intros t p Ht Hp. rewrite Ha, Hv, Hr, Had, Hl.
    rewrite !(lookup_flatten_TP T) by done.
    rewrite !(lookup_cell T len_envs) by done.
    by split; [apply Hsome|].
  - exists flat. split; [done|].
    apply flat_obs_inr in Hflat as [_ Hcells]. intros t p Ht Hp.
    destruct (Hcells t p Ht Hp) as (o & Hflat & Hcell).
    unfold obs_cell in Hcell.
    destruct (obss (exper self') !! t) as [[r|]|]; [|done..].
    destruct (r !! p) as [x|] eqn:Hx; [|done].
    injection Hcell as ->. by exists r, o.
  - intros Hrec. rewrite Hrec in Hmem, Hmsk.
    eexists _, _. split; [done|]. split; [done|].
    split; [by apply unflatten_flatten|].
    intros t p Ht Hp. split; [by apply Hsome|].
    rewrite list_lookup_fmap, !(lookup_flatten_TP T) by done.
    split; [done|]. by rewrite (lookup_cell T len_envs).
  - rewrite Ha, Hv, Hr, Had, Hl.
    by rewrite !(unflatten_flatten T len_envs).
Qed.


(** On the grid script the reward of process 1 at step 2 sits at flat
    index [1 * 3 + 2]. *)
Lemma reshape_process_major_witness :
  let E := Scripted.ext 2 1 true 0%Qc in
  ∃ self w exps logs self' w',
    @init E 3 (q 99 100) 0%Qc (q 95 100) 0%Qc 0%Qc 0%Qc 1 None
          (Scripted.world 2 1 true 0%Qc grid_script) = Return self w
    ∧ @collect_experiences E (self, w) = Return (exps, logs) (self', w')
    ∧ exps_reward exps !! (1 * 3 + 2)
      = Some (cell (rewards (exper self')) 2 1).
Proof.
  intros E. subst E.
  destruct (first_cycle_inv
              (@init (Scripted.ext 2 1 true 0%Qc) 3 (q 99 100) 0%Qc (q 95 100) 0%Qc 0%Qc 0%Qc 1 None
                     (Scripted.world 2 1 true 0%Qc grid_script)))
    as (self & w & exps & logs & self' & w' & Hinit & Hrun);
    [vm_compute; reflexivity|].
  exists self, w, exps, logs, self', w'. split; [done|]. split; [done|].
  pose proof (@init_shaped _ (scripted_ok 2 1 true 0%Qc)
                _ _ _ _ _ _ _ _ _ _ _ _ Hinit) as Hsh.
  destruct (@collect_shaped _ (scripted_ok 2 1 true 0%Qc)
              _ _ _ _ _ _ Hrun Hsh) as [_ Hpar].
  assert (params self' = params self ∧ num_frames_per_proc (params self) = 3
          ∧ num_procs (params self) = 2) as (Hp & HT & Hn).
  { split; [done|]. clear Hrun Hsh Hpar. unfold init in Hinit. simpl in Hinit.
    by injection Hinit as <- _. }
  pose proof (proj1 (@reshape_process_major _ (scripted_ok 2 1 true 0%Qc)
                       _ _ _ _ _ _ Hsh Hrun) 2 1) as H.
  rewrite Hp, HT, Hn in H.
  apply H; lia.
Defined.

(** The rewards of the grid script in the flat batch: process 0 first, in
    time order, then process 1. *)
Definition grid_flat_rewards : option vec :=
  let E := Scripted.ext 2 1 true 0%Qc in
  '(self, w) ← returned
     (@init E 3 (q 99 100) 0%Qc (q 95 100) 0%Qc 0%Qc 0%Qc 1 None
            (Scripted.world 2 1 true 0%Qc grid_script));
  '(exps, _, _) ← returned (@collect_experiences E (self, w));
  Some (exps_reward exps).

Example grid_flat_rewards_eq :
  grid_flat_rewards
  = Some [q 0 1; q 10 1; q 20 1; q 1 1; q 11 1; q 21 1].
Proof. apply (bool_decide_unpack _). vm_compute. exact I. Qed.

(** C3. Every field of the flat batch a cycle returns has [T * N] entries
    (the observations are counted where they are handed to the
    preprocessor; memory and mask exist for a recurrent policy only), and
    [returnn[k] = value[k] + advantage[k]] at every flat index [k]. *)
Theorem batch_shape `{Ok : ExternalsOk} self w exps logs self' w' :
  shaped self →
  collect_experiences (self, w) = Return (exps, logs) (self', w') →
  let T := num_frames_per_proc (params self) in
  let n := num_procs (params self) in
  length (exps_action exps) = T * n
  ∧ length (exps_value exps) = T * n
  ∧ length (exps_reward exps) = T * n
  ∧ length (exps_advantage exps) = T * n
  ∧ length (exps_returnn exps) = T * n
  ∧ length (exps_log_prob exps) = T * n
  ∧ (∃ flat, exps_obs exps = preprocess_obss flat ∧ length flat = T * n)
  ∧ (if acmodel_recurrent
     then ∃ mem msk, exps_memory exps = Some mem ∧ exps_mask exps = Some msk
            ∧ length mem = T * n ∧ length msk = T * n
     else exps_memory exps = None ∧ exps_mask exps = None)
  ∧ ∀ k, k < T * n →
      ∃ v a, exps_value exps !! k = Some v
             ∧ exps_advantage exps !! k = Some a
             ∧ exps_returnn exps !! k = Some (v + a)%Qc.
Proof.
  intros Hsh Hrun T n.
  destruct (collect_shaped _ _ _ _ _ _ Hrun Hsh) as [_ Hpar].
  destruct (collect_exps _ _ _ _ _ _ Hsh Hrun) as [Hsh' Hexps].
  apply make_exps_inv in Hexps
    as (flat & Hflat & Hobs & Hmem & Hmsk & Ha & Hv & Hr & Had & Hret & Hl).
  destruct Hsh'. rewrite Hpar in *. fold T in sh_memories0, sh_masks0,
    sh_actions0, sh_values0, sh_rewards0, sh_advantages0, sh_log_probs0,
    Hflat.
  fold n in sh_procs0, Hflat, Hmem, Hmsk, Ha, Hv, Hr, Had, Hl.
  clearbody T n. subst n.
  assert (length (exps_value exps) = T * len_envs) as Hlv
    by (rewrite Hv; by apply length_flatten_TP).
  assert (length (exps_advantage exps) = T * len_envs) as Hla
    by (rewrite Had; by apply length_flatten_TP).
  repeat split; try done.
  - rewrite Ha. by apply length_flatten_TP.
  - rewrite Hr. by apply length_flatten_TP.
  - rewrite Hret. unfold vadd. rewrite length_zip_with. lia.
  - rewrite Hl. by apply length_flatten_TP.
  - exists flat. split; [done|].
    by apply flat_obs_inr in Hflat as [Hlen _].
  - destruct acmodel_recurrent; [|done].
    eexists _, _. split; [done|]. split; [done|].
    rewrite length_fmap. split; by apply length_flatten_TP.
  - intros k Hk.
    destruct (lookup_lt_is_Some_2 (exps_value exps) k) as [v Hkv]; [lia|].
    destruct (lookup_lt_is_Some_2 (exps_advantage exps) k) as [a Hka]; [lia|].
    exists v, a. split; [done|]. split; [done|].
    rewrite Hret. unfold vadd. by rewrite lookup_zip_with, Hkv, Hka.
Qed.

(** The batch of the grid script: six entries per field. *)
Lemma batch_shape_witness :
  ∃ self w exps logs self' w',
    @init (Scripted.ext 2 1 true 0%Qc)
          3 (q 99 100) 0%Qc (q 95 100) 0%Qc 0%Qc 0%Qc 1 None
          (Scripted.world 2 1 true 0%Qc grid_script) = Return self w
    ∧ @collect_experiences (Scripted.ext 2 1 true 0%Qc) (self, w)
      = Return (exps, logs) (self', w')
    ∧ length (exps_returnn exps) = 3 * 2.
Proof.
  destruct (first_cycle_inv
              (@init (Scripted.ext 2 1 true 0%Qc)
                     3 (q 99 100) 0%Qc (q 95 100) 0%Qc 0%Qc 0%Qc 1 None
                     (Scripted.world 2 1 true 0%Qc grid_script)))
    as (self & w & exps & logs & self' & w' & Hinit & Hrun);
    [vm_compute; reflexivity|].
  exists self, w, exps, logs, self', w'. split; [done|]. split; [done|].
  pose proof (@init_shaped _ (scripted_ok 2 1 true 0%Qc)
                _ _ _ _ _ _ _ _ _ _ _ _ Hinit) as Hsh.
  assert (num_frames_per_proc (params self) = 3
          ∧ num_procs (params self) = 2) as (HT & Hn).
  { clear Hrun Hsh. unfold init in Hinit. simpl in Hinit.
    by injection Hinit as <- _. }
  pose proof (@batch_shape _ (scripted_ok 2 1 true 0%Qc)
                _ _ _ _ _ _ Hsh Hrun) as H.
  rewrite HT, Hn in H. apply H.
Defined.

(** ** Construction *)

Section Construction.
Context `{Ext : Externals}.

(** The arguments the constructor accepts. *)
Definition admissible (nf rc : Z) : Prop :=
  (0 ≤ nf)%Z ∧ rc ≠ 0%Z ∧ (rc | nf)%Z ∧ (acmodel_recurrent = false → rc = 1%Z).

(** The two control assertions of lines 66-67. *)
Definition checks (nf rc : Z) : Prop :=
  rc ≠ 0%Z ∧ (rc | nf)%Z ∧ (acmodel_recurrent = false → rc = 1%Z).

(** The precondition as the specification words it: a positive multiple of
    the recurrence, and recurrence 1 for a policy that is not recurrent. *)
Definition spec_precondition (nf rc : Z) : Prop :=
  (0 < nf)%Z ∧ (rc | nf)%Z ∧ (acmodel_recurrent = false → rc = 1%Z).

Lemma init_Return nf d l g ec vc mg rc rr w self w' :
  init nf d l g ec vc mg rc rr w = Return self w' →
  self = allocate (Z.to_nat nf) d l g ec vc mg rc rr (env_reset (env w)).2
  ∧ w' = {| env := (env_reset (env w)).1; rng := rng w;
            forward_calls := forward_calls w |}.
Proof.
  unfold init. destruct (negb _); [done|].
  destruct (py_mod nf rc) as [|r]; [done|]. destruct (negb _); [done|].
  destruct (env_reset (env w)) as [env' obs0].
  case_decide; [done|]. by intros [= <- <-].
Qed.

Lemma succeeded_inv {S A} (o : outcome S A) :
  succeeded o = true → ∃ a s, o = Return a s.
Proof. destruct o as [a s|]; [by exists a, s|done]. Qed.

Lemma init_cases nf d l g ec vc mg rc rr w :
  (checks nf rc ∧ (0 ≤ nf)%Z
   ∧ ∃ self w', init nf d l g ec vc mg rc rr w = Return self w')
  ∨ (checks nf rc ∧ (nf < 0)%Z
     ∧ ∃ m w', init nf d l g ec vc mg rc rr w = Raise (RuntimeError m) w')
  ∨ (¬ checks nf rc
     ∧ (init nf d l g ec vc mg rc rr w = Raise (AssertionError "") w
        ∨ init nf d l g ec vc mg rc rr w = Raise ZeroDivisionError w)).
Proof.
  unfold init, checks, py_mod.
  destruct acmodel_recurrent eqn:Hrec; simpl.
  - case_decide as Hrc0.
    { right. right. split; [|by right]. by intros [? _]. }
    case_bool_decide as Hmod; simpl.
    + apply Z.mod_divide in Hmod; [|done].
      destruct (env_reset (env w)) as [env' obs0].
      case_decide; [right; left|left]; (split; [done|]);
        (split; [lia|]); eauto.
    + right. right. split; [|by left].
      intros (_ & Hdiv & _). by apply Z.mod_divide in Hdiv.
  - case_bool_decide as Hrc1; simpl.
    + subst rc. case_decide; [done|]. rewrite Z.mod_1_r. simpl.
      assert ((1 | nf)%Z) by apply Z.divide_1_l.
      destruct (env_reset (env w)) as [env' obs0].
      case_decide; [right; left|left]; (split; [done|]);
        (split; [lia|]); eauto.
    + right. right. split; [|by left]. intros (_ & _ & H). by apply Hrc1, H.
Qed.

(** The exceptions a cycle can raise. *)
Definition cycle_exn (e : exn) : Prop :=
  match e with
  | IndexError | KeyError _ | TypeError _ | UnboundLocalError _
  | RuntimeError _ => True
  | AssertionError msg => msg = "no idea how to use performance here"
  | ZeroDivisionError => False
  end.

Lemma for_each_raise {S A L} (body : A → L → M S L) xs acc s e s' :
  for_each xs body acc s = Raise e s' →
  ∃ x a t, x ∈ xs ∧ body x a t = Raise e s'.
Proof.
  revert acc s. induction xs as [|x xs IH]; intros acc s; simpl; [done|].
  unfold bind. destruct (body x acc s) as [a1 s1|e1 s1] eqn:Hx.
  - intros Hrest. destruct (IH _ _ Hrest) as (y & a & t & Hy & Hb).
    exists y, a, t. split; [by right|done].
  - intros [= <- <-]. exists x, acc, s. split; [by left|done].
Qed.

Lemma discover_exn key info0 infos has tup e :
  discover key info0 infos has tup = inl e → cycle_exn e.
Proof.
  unfold discover, comprehension. case_bool_decide; [|done].
  destruct (mapM _ _); [done|]. by intros [= <-].
Qed.

Lemma discover_channels_exn infos loc e :
  discover_channels infos loc = inl e → cycle_exn e.
Proof.
  unfold discover_channels. destruct (infos !! 0) as [info0|];
    [|by intros [= <-]].
  repeat (match goal with
          | |- context [match discover ?k ?i0 ?il ?h ?t with _ => _ end] =>
            let H := fresh "H" in
            destruct (discover k i0 il h t) as [?|[? ?]] eqn:H;
            [intros [= <-]; by apply discover_exn in H|]
          end).
  done.
Qed.

Lemma rollout_step_exn i loc s e s' :
  rollout_step i loc s = Raise e s' → cycle_exn e.
Proof.
  destruct s as [self w]. unfold rollout_step, interact, forward.
  destruct (acmodel _ _) as [[dist value] memory'].
  destruct (dist_sample _ _) as [action rng'].
  destruct (env_step _ _) as [env' [[[obs' reward] done] infos]].
  destruct (discover_channels infos loc) as [err|loc1] eqn:Hd.
  - intros [= <- _]. by apply discover_channels_exn in Hd.
  - destruct (reshape_reward (params self)); [|done]. by intros [= <- _].
Qed.

Lemma sequence_exn {A} (l : list (exn + A)) e :
  sequence l = inl e → inl e ∈ l.
Proof.
  induction l as [|[e1|a] l IH]; simpl; [done| |].
  - intros [= <-]. by left.
  - destruct (sequence l); [|done]. intros [= <-]. right. by apply IH.
Qed.

Lemma make_exps_exn p ex e : make_exps p ex = inl e → cycle_exn e.
Proof.
  unfold make_exps, flat_obs.
  destruct (sequence _) as [err|flat] eqn:Hseq;
    [|destruct (acmodel_recurrent && _); [by intros [= <-]|done]].
  intros [= <-].
  apply sequence_exn in Hseq.
  apply list_elem_of_bind in Hseq as (j & Hseq & _).
  apply list_elem_of_bind in Hseq as (i & Hcell & _).
  apply list_elem_of_singleton in Hcell. unfold obs_cell in Hcell.
  destruct (obss ex !! i) as [[o|]|];
    [|by injection Hcell as ->|by injection Hcell as ->].
  destruct (o !! j); [done|by injection Hcell as ->].
Qed.

Lemma make_logs_exn p h loc e : make_logs p h loc = inl e → cycle_exn e.
Proof.
  assert (∀ k, last_info loc k = inl e → cycle_exn e) as Hinfo.
  { intros k. unfold last_info. destruct (info loc) as [infos|];
      [|by intros [= <-]].
    destruct (infos !! 0) as [info0|]; [|by intros [= <-]].
    destruct (info0 !! k); [done|by intros [= <-]]. }
  unfold make_logs.
  destruct (last_info loc "numberOfPermutes") eqn:H1;
    [intros [= <-]; by eapply Hinfo|].
  destruct (last_info loc "buttonValue") eqn:H2;
    [intros [= <-]; by eapply Hinfo|done].
Qed.

Lemma collect_exn s e s' :
  collect_experiences s = Raise e s' → cycle_exn e.
Proof.
  destruct s as [self w]. unfold collect_experiences, bind.
  destruct (rollout (self, w)) as [loc [s1 w1]|e1 s1] eqn:Hroll.
  - unfold bootstrap, forward.
    destruct (acmodel _ _) as [[dist next_value] mem'].
    unfold estimate, summarize. cbn [params exper with_exper history].
    destruct (make_exps _ _) as [|exps1] eqn:Hexps;
      [intros [= <- _]; by apply make_exps_exn in Hexps|].
    destruct (make_logs _ _ _) as [|logs1] eqn:Hlogs;
      [intros [= <- _]; by apply make_logs_exn in Hlogs|done].
  - intros [= <- <-]. unfold rollout in Hroll.
    apply for_each_raise in Hroll as (x & a & t & _ & Hstep).
    by apply rollout_step_exn in Hstep.
Qed.

End Construction.

(** C8, as the code has it.  Construction succeeds exactly when
    [num_frames_per_proc] is a non-negative multiple (zero included) of a
    non-zero [recurrence] and a policy that is not recurrent has
    [recurrence = 1]; otherwise it raises and produces no instance.  When
    one of the two control assertions fails the exception leaves before
    the environment is reset.  The assertions belong to construction: no
    exception of a collection cycle is one of them. *)
Theorem init_accepts `{Ext : Externals} nf d l g ec vc mg rc rr w :
  (succeeded (init nf d l g ec vc mg rc rr w) = true ↔ admissible nf rc)
  ∧ (¬ checks nf rc →
     init nf d l g ec vc mg rc rr w = Raise (AssertionError "") w
     ∨ init nf d l g ec vc mg rc rr w = Raise ZeroDivisionError w)
  ∧ (∀ s e s', collect_experiences s = Raise e s' →
       e ≠ AssertionError "" ∧ e ≠ ZeroDivisionError).
Proof.
  split; [|split].
  - unfold admissible.
    destruct (init_cases nf d l g ec vc mg rc rr w)
      as [(Hc & Hnf & self & w' & ->)
         |[(Hc & Hnf & m & w' & ->)|(Hc & [-> | ->])]];
      simpl; unfold checks in Hc; split; try done; try tauto; lia.
  - intros Hno.
    destruct (init_cases nf d l g ec vc mg rc rr w)
      as [(Hc & _)|[(Hc & _)|(_ & H)]]; done.
  - intros s e s' Hrun. apply collect_exn in Hrun.
    split; intros ->; done.
Qed.

(** Three frames with recurrence 1 and a policy that is not recurrent. *)
Lemma init_accepts_witness :
  succeeded (@init (Scripted.ext 2 0 false 0%Qc)
                   3 (q 99 100) 0%Qc (q 95 100) 0%Qc 0%Qc 0%Qc 1 None
                   (Scripted.world 2 0 false 0%Qc steady_script)) = true.
Proof.
  apply (proj1 (@init_accepts (Scripted.ext 2 0 false 0%Qc)
                  3 (q 99 100) 0%Qc (q 95 100) 0%Qc 0%Qc 0%Qc 1 None
                  (Scripted.world 2 0 false 0%Qc steady_script))).
  repeat split; [lia|lia|by exists 3%Z].
Defined.

(** C8, as stated, fails: zero frames per process are no positive multiple
    of the recurrence, and construction accepts them. *)
Lemma init_zero_frames :
  succeeded (@init (Scripted.ext 2 0 false 0%Qc)
                   0 (q 99 100) 0%Qc (q 95 100) 0%Qc 0%Qc 0%Qc 1 None
                   (Scripted.world 2 0 false 0%Qc [])) = true
  ∧ ¬ @spec_precondition (Scripted.ext 2 0 false 0%Qc) 0 1.
Proof.
  split; [vm_compute; reflexivity|]. intros [Hpos _]. lia.
Qed.

(** ** Reward reshaping *)

(** The metadata of a step names no key that a later mapping lacks. *)
Definition metadata_ok (infos : list info_dict) (loc : Locals) : bool :=
  match discover_channels infos loc with
  | inl _ => false
  | inr _ => true
  end.

Section Reshaping.
Context `{Ext : Externals}.

Lemma rollout_step_reshape i loc self w f loc1 :
  reshape_reward (params self) = Some f →
  discover_channels (step_infos (exper self) w) loc = inr loc1 →
  ∃ s',
    rollout_step i loc (self, w)
    = Raise (AssertionError "no idea how to use performance here") s'
    ∧ episode s'.1 = episode self ∧ history s'.1 = history self.
Proof.
  intros Hf. unfold step_infos, rollout_step.
  destruct (interact (exper self) w)
    as [[[[[dist value] memory'] action] [[[obs' reward] done] infos]] w2].
  simpl. intros ->. rewrite Hf. eexists. split; [done|]. done.
Qed.

End Reshaping.

(** A step of two processes that reports the performance channel. *)
Definition performance_script : list (list Scripted.cell) :=
  [ replicate 2 (1%Qc, false, <["performance" := q 5 1]> Scripted.passthrough) ].

(** C7. With a reward-reshaping function configured, a cycle of at least
    one step whose metadata is well formed (auxiliary channels active or
    not) raises the assertion error of line 228 at its first step; it
    returns no batch and no summary, and the running sums and histories of
    the aggregator are those before the call. *)
Theorem reshape_rejected `{Ext : Externals} self w f :
  reshape_reward (params self) = Some f →
  0 < num_frames_per_proc (params self) →
  metadata_ok (step_infos (exper self) w) init_locals = true →
  ∃ s',
    collect_experiences (self, w)
    = Raise (AssertionError "no idea how to use performance here") s'
    ∧ episode s'.1 = episode self ∧ history s'.1 = history self.
Proof.
  intros Hf HT Hmeta. unfold metadata_ok in Hmeta.
  destruct (discover_channels _ _) as [|loc1] eqn:Hd; [done|].
  destruct (rollout_step_reshape 0 init_locals self w f loc1 Hf Hd)
    as (s' & Hstep & Hs').
  exists s'. split; [|done].
  unfold collect_experiences, bind, rollout.
  destruct (num_frames_per_proc (params self)) as [|T]; [lia|].
  simpl. unfold bind. by rewrite Hstep.
Qed.

(** A reshaper that adds a bonus, on a step with an active performance
    channel. *)
Lemma reshape_rejected_witness :
  ∃ self w s',
    @init (Scripted.ext 2 0 false 0%Qc)
          1 (q 99 100) 0%Qc (q 95 100) 0%Qc 0%Qc 0%Qc 1
          (Some (fun _ _ r _ => (r + 1)%Qc))
          (Scripted.world 2 0 false 0%Qc performance_script) = Return self w
    ∧ @collect_experiences (Scripted.ext 2 0 false 0%Qc) (self, w)
      = Raise (AssertionError "no idea how to use performance here") s'
    ∧ history s'.1 = history self.
Proof.
  destruct (succeeded_inv
              (@init (Scripted.ext 2 0 false 0%Qc)
                     1 (q 99 100) 0%Qc (q 95 100) 0%Qc 0%Qc 0%Qc 1
                     (Some (fun _ _ r _ => (r + 1)%Qc))
                     (Scripted.world 2 0 false 0%Qc performance_script)))
    as (self & w & Hinit); [vm_compute; reflexivity|].
  destruct (init_Return _ _ _ _ _ _ _ _ _ _ _ _ Hinit) as [Hs Hw].
  destruct (@reshape_rejected (Scripted.ext 2 0 false 0%Qc) self w
              (fun _ _ r _ => (r + 1)%Qc)) as (s' & Hrun & _ & Hh).
  - by rewrite Hs.
  - rewrite Hs. simpl. lia.
  - rewrite Hs, Hw. vm_compute. reflexivity.
  - by exists self, w, s'.
Defined.


(** ** The memory handed to the policy *)

Lemma for_each_app {S A L} (body : A → L → M S L) xs ys acc s :
  for_each (xs ++ ys) body acc s
  = bind (for_each xs body acc) (for_each ys body) s.
Proof.
  revert acc s. induction xs as [|x xs IH]; intros acc s; simpl; [done|].
  unfold bind. destruct (body x acc s) as [a1 s1|]; [|done].
  rewrite IH. reflexivity.
Qed.

Section Memory.
Context `{Ok : ExternalsOk}.

(** The done flags the next step will receive. *)
Definition step_done (e : Experience) (w : World Ext) : list bool :=
  (interact e w).1.2.1.2.

(** The arguments of the forward pass made from a state. *)
Definition forward_call (e : Experience) : PObs * option mat :=
  (preprocess_obss (obs e), memory_argument e).

Lemma rollout_step_call i loc self w loc' self' w' :
  rollout_step i loc (self, w) = Return loc' (self', w') →
  forward_calls w' = forward_calls w ++ [forward_call (exper self)]
  ∧ mask (exper self')
    = (fun d => (1 - of_bool d)%Qc) <$> step_done (exper self) w.
Proof.
  unfold step_done, rollout_step, interact, forward, forward_call.
  destruct (acmodel _ _) as [[dist value] memory'].
  destruct (dist_sample _ _) as [action rng'].
  destruct (env_step _ _) as [env' [[[obs' reward] done] infos]].
  destruct (discover_channels infos loc) as [|loc1]; [done|].
  destruct (reshape_reward (params self)); [done|].
  by intros [= <- <- <-].
Qed.

Lemma rollout_calls xs loc self w loc' self' w' :
  for_each xs rollout_step loc (self, w) = Return loc' (self', w') →
  ∃ calls, forward_calls w' = forward_calls w ++ calls
           ∧ length calls = length xs.
Proof.
  revert loc self w. induction xs as [|i xs IH]; intros loc self w; simpl.
  - intros [= <- <- <-]. exists []. by rewrite app_nil_r.
  - unfold bind. destruct (rollout_step i loc (self, w))
      as [loc1 [s1 w1]|] eqn:Hstep; [|done].
    intros Hrest. apply IH in Hrest as (calls & Hcalls & Hlen).
    apply rollout_step_call in Hstep as [Hcall _].
    exists (forward_call (exper self) :: calls). split; [|by rewrite <- Hlen].
    by rewrite Hcalls, Hcall, <- app_assoc.
Qed.

Lemma rollout_prefix_shaped xs loc self w loc' self' w' :
  for_each xs rollout_step loc (self, w) = Return loc' (self', w') →
  shaped self → shaped self' ∧ params self' = params self.
Proof.
  intros Hrun Hsh.
  refine (for_each_inv
            (fun _ s => shaped s.1 ∧ params s.1 = params self)
            _ _ _ _ _ _ _ _ Hrun); [|by split].
  intros x a [s1 w1] a' [s2 w2] _ [H1 H2] Hstep. simpl in *.
  destruct (rollout_step_shaped _ _ _ _ _ _ _ Hstep H1).
  split; [done|congruence].
Qed.




End Memory.

(** Two steps of two processes; process 0 ends its episode at step 0. *)
Definition ending_script : list (list Scripted.cell) :=
  [ [ (1%Qc, true, Scripted.passthrough);
      (1%Qc, false, Scripted.passthrough) ];
    replicate 2 (1%Qc, false, Scripted.passthrough) ].

(** The memory arguments of the three forward passes of that cycle, for a
    policy whose memory output is all ones. *)
Definition ending_memory_arguments : option (list (option mat)) :=
  let E := Scripted.ext 2 1 true 0%Qc in
  '(self, w) ← returned
     (@init E 2 (q 99 100) 0%Qc (q 95 100) 0%Qc 0%Qc 0%Qc 1 None
            (Scripted.world 2 1 true 0%Qc ending_script));
  '(_, (_, w')) ← returned (@collect_experiences E (self, w));
  Some (snd <$> forward_calls w').

Example ending_memory_arguments_eq :
  ending_memory_arguments
  = Some [ Some [[0%Qc]; [0%Qc]];
           Some [[0%Qc]; [1%Qc]];
           Some [[1%Qc]; [1%Qc]] ].
Proof. apply (bool_decide_unpack _). vm_compute. exact I. Qed.



(** ** Auxiliary reward channels *)

(** The auxiliary channels that own a reward buffer. *)
Inductive channel : Type :=
  | PERFORMANCE
  | BUTTON_PRESSES
  | PHONES_CLEANED
  | DIRT_CLEANED.

Definition channel_key (c : channel) : string :=
  match c with
  | PERFORMANCE => "performance"
  | BUTTON_PRESSES => "button_presses"
  | PHONES_CLEANED => "phones_cleaned"
  | DIRT_CLEANED => "dirt_cleaned"
  end.

Definition channel_flag (c : channel) (loc : Locals) : bool :=
  match c with
  | PERFORMANCE => hasPerf loc
  | BUTTON_PRESSES => hasButtonPresses loc
  | PHONES_CLEANED => hasPhonesCleaned loc
  | DIRT_CLEANED => hasDirtCleaned loc
  end.

Section Channels.
Context `{Ext : Externals}.

Definition channel_rewards (c : channel) (e : Experience) : mat :=
  match c with
  | PERFORMANCE => rewards_PERFORMANCE e
  | BUTTON_PRESSES => rewards_BUTTON_PRESSES e
  | PHONES_CLEANED => rewards_PHONES_CLEANED e
  | DIRT_CLEANED => rewards_DIRT_CLEANED e
  end.

Lemma discover_inr key info0 infos has tup has' tup' :
  discover key info0 infos has tup = inr (has', tup') →
  has' = has || bool_decide (is_Some (info0 !! key)).
Proof.
  unfold discover. case_bool_decide.
  - destruct (comprehension key infos); [done|]. intros [= <- _].
    by rewrite orb_true_r.
  - intros [= <- _]. by rewrite orb_false_r.
Qed.

Lemma discover_inl key info0 infos has tup e :
  discover key info0 infos has tup = inl e →
  e = KeyError key ∧ is_Some (info0 !! key).
Proof.
  unfold discover, comprehension. case_bool_decide; [|done].
  destruct (mapM _ _); [done|]. by intros [= <-].
Qed.

(** A flag after a step: set before, or the key is in the metadata of
    process 0. *)
Lemma discover_channels_flag c infos loc loc' :
  discover_channels infos loc = inr loc' →
  ∃ info0, infos !! 0 = Some info0
    ∧ channel_flag c loc'
      = channel_flag c loc || bool_decide (is_Some (info0 !! channel_key c)).
Proof.
  unfold discover_channels. destruct (infos !! 0) as [info0|]; [|done].
  repeat (match goal with
          | |- context [match discover ?k ?i0 ?il ?h ?t with _ => _ end] =>
            let H := fresh "H" in
            destruct (discover k i0 il h t) as [?|[? ?]] eqn:H;
            [done|apply discover_inr in H]
          end).
  intros [= <-]. exists info0. split; [done|]. by destruct c.
Qed.

(** A key absent from the metadata of process 0 raises no [KeyError]. *)
Lemma discover_channels_absent c infos loc info0 e :
  discover_channels infos loc = inl e →
  infos !! 0 = Some info0 → info0 !! channel_key c = None →
  e ≠ KeyError (channel_key c).
Proof.
  unfold discover_channels. intros Hd H0 Habs. rewrite H0 in Hd.
  assert (∀ k, is_Some (info0 !! k) → KeyError k ≠ KeyError (channel_key c))
    as Hne.
  { intros k [x Hx] [= ->]. congruence. }
  revert Hd.
  repeat (match goal with
          | |- context [match discover ?k ?i0 ?il ?h ?t with _ => _ end] =>
            let H := fresh "H" in
            destruct (discover k i0 il h t) as [?|[? ?]] eqn:H;
            [intros [= <-]; apply discover_inl in H as [-> H]; by apply Hne|]
          end).
  done.
Qed.

Lemma rollout_step_channel c i loc self w loc' self' w' :
  rollout_step i loc (self, w) = Return loc' (self', w') →
  ∃ info0, step_infos (exper self) w !! 0 = Some info0
    ∧ channel_flag c loc'
      = channel_flag c loc || bool_decide (is_Some (info0 !! channel_key c))
    ∧ (channel_flag c loc' = false →
       channel_rewards c (exper self') = channel_rewards c (exper self)).
Proof.
  unfold step_infos, rollout_step.
  destruct (interact (exper self) w)
    as [[[[[dist value] memory'] action] [[[obs' reward] done] infos]] w2].
  simpl. destruct (discover_channels infos loc) as [|loc1] eqn:Hd; [done|].
  destruct (reshape_reward (params self)); [done|].
  intros [= <- <- <-].
  destruct (discover_channels_flag c _ _ _ Hd) as (info0 & H0 & Hflag).
  exists info0. split; [done|]. split; [done|].
  intros Hoff. destruct c; simpl in *; by rewrite Hoff.
Qed.

Lemma rollout_step_absent c i loc self w e s' info0 :
  rollout_step i loc (self, w) = Raise e s' →
  step_infos (exper self) w !! 0 = Some info0 →
  info0 !! channel_key c = None →
  e ≠ KeyError (channel_key c).
Proof.
  unfold step_infos, rollout_step.
  destruct (interact (exper self) w)
    as [[[[[dist value] memory'] action] [[[obs' reward] done] infos]] w2].
  simpl. destruct (discover_channels infos loc) as [err|loc1] eqn:Hd.
  - intros [= <- _] H0 Habs. by eapply discover_channels_absent.
  - destruct (reshape_reward (params self)); [|done]. by intros [= <- _].
Qed.

(** The key of channel [c] is absent from the metadata of process 0 at
    every step up to [t] of the cycle started from [(self, w)]. *)
Definition absent_through (c : channel) (self : BaseAlgo Ext) (w : World Ext)
    (t : nat) : Prop :=
  ∀ j lj sj wj info0, j ≤ t →
    for_each (seq 0 j) rollout_step init_locals (self, w)
    = Return lj (sj, wj) →
    step_infos (exper sj) wj !! 0 = Some info0 →
    info0 !! channel_key c = None.

Lemma absent_prefix c self w t loc st wt :
  for_each (seq 0 (S t)) rollout_step init_locals (self, w)
  = Return loc (st, wt) →
  absent_through c self w t →
  channel_flag c loc = false
  ∧ channel_rewards c (exper st) = channel_rewards c (exper self).
Proof.
  revert loc st wt. induction t as [|t IH]; intros loc st wt Hrun Habs.
  - simpl in Hrun. unfold bind in Hrun.
    destruct (rollout_step 0 init_locals (self, w))
      as [l1 [s1 w1]|] eqn:Hstep; [|done].
    injection Hrun as <- <- <-.
    destruct (rollout_step_channel c _ _ _ _ _ _ _ Hstep)
      as (info0 & H0 & Hflag & Hbuf).
    rewrite (Habs 0 init_locals self w info0 (le_n 0) eq_refl H0) in Hflag.
    assert (channel_flag c l1 = false) as Hoff
      by (rewrite Hflag; by destruct c).
    split; [done|by apply Hbuf].
  - replace (S (S t)) with (S t + 1) in Hrun by lia.
    rewrite seq_app, for_each_app in Hrun. unfold bind in Hrun.
    destruct (for_each (seq 0 (S t)) rollout_step init_locals (self, w))
      as [l1 [s1 w1]|] eqn:Hpre; [|done].
    simpl in Hrun. unfold bind in Hrun.
    destruct (rollout_step (S t) l1 (s1, w1))
      as [l2 [s2 w2]|] eqn:Hstep; [|done].
    injection Hrun as <- <- <-.
    destruct (IH _ _ _ eq_refl) as [Hoff1 Hbuf1].
    { intros j lj sj wj info0 Hj. apply Habs. lia. }
    destruct (rollout_step_channel c _ _ _ _ _ _ _ Hstep)
      as (info0 & H0 & Hflag & Hbuf).
    rewrite (Habs (S t) l1 s1 w1 info0 (le_n _) Hpre H0), Hoff1 in Hflag.
    simpl in Hflag. split; [done|]. rewrite <- Hbuf1. by apply Hbuf.
Qed.

End Channels.

(** C6, as the code has it.  When the key of an auxiliary channel has been
    absent from the metadata of process 0 at every step of the cycle up to
    and including [t], the steps up to [t] leave the channel's reward
    buffer as it was when the cycle began: slot [t] is unchanged, and it
    is zero on an instance fresh from the constructor.  A key absent from
    the metadata of process 0 never raises a [KeyError]. *)
Theorem absent_channel_slot `{Ext : Externals} c self w t loc st wt :
  for_each (seq 0 (S t)) rollout_step init_locals (self, w)
  = Return loc (st, wt) →
  absent_through c self w t →
  row (channel_rewards c (exper st)) t
  = row (channel_rewards c (exper self)) t
  ∧ (∀ T d l g ec vc mg rc rr obs0,
       self = allocate T d l g ec vc mg rc rr obs0 → t < T →
       row (channel_rewards c (exper st)) t = zeros len_envs)
  ∧ (∀ i loc0 s0 w0 e s' info0,
       rollout_step i loc0 (s0, w0) = Raise e s' →
       step_infos (exper s0) w0 !! 0 = Some info0 →
       info0 !! channel_key c = None →
       e ≠ KeyError (channel_key c)).
Proof.
  intros Hrun Habs.
  destruct (absent_prefix c _ _ _ _ _ _ Hrun Habs) as [_ Hbuf].
  split; [by rewrite Hbuf|]. split.
  - intros T d l g ec vc mg rc rr obs0 -> Ht. rewrite Hbuf.
    unfold row. destruct c; simpl; by rewrite lookup_replicate_2.
  - intros i loc0 s0 w0 e s' info0. apply rollout_step_absent.
Qed.

(** The first step of the steady script, which reports no auxiliary
    channel. *)
Lemma absent_channel_slot_witness :
  ∃ self w loc st wt,
    @init (Scripted.ext 2 0 false 0%Qc)
          3 (q 99 100) 0%Qc (q 95 100) 0%Qc 0%Qc 0%Qc 1 None
          (Scripted.world 2 0 false 0%Qc steady_script) = Return self w
    ∧ for_each (seq 0 1) (@rollout_step (Scripted.ext 2 0 false 0%Qc))
               init_locals (self, w) = Return loc (st, wt)
    ∧ row (rewards_PERFORMANCE (exper st)) 0
      = row (rewards_PERFORMANCE (exper self)) 0.
Proof.
  destruct (succeeded_inv
              (@init (Scripted.ext 2 0 false 0%Qc)
                     3 (q 99 100) 0%Qc (q 95 100) 0%Qc 0%Qc 0%Qc 1 None
                     (Scripted.world 2 0 false 0%Qc steady_script)))
    as (self & w & Hinit); [vm_compute; reflexivity|].
  destruct (init_Return _ _ _ _ _ _ _ _ _ _ _ _ Hinit) as [Hs Hw].
  destruct (succeeded_inv
              (for_each (seq 0 1)
                        (@rollout_step (Scripted.ext 2 0 false 0%Qc))
                        init_locals (self, w)))
    as (loc & [st wt] & Hrun); [rewrite Hs, Hw; vm_compute; reflexivity|].
  exists self, w, loc, st, wt. split; [done|]. split; [done|].
  assert (absent_through PERFORMANCE self w 0) as Habs.
  { intros j lj sj wj info0 Hj Hpre H0.
    assert (j = 0) as -> by lia.
    simpl in Hpre. injection Hpre as _ <- <-.
    assert (step_infos (exper self) w = replicate 2 Scripted.passthrough)
      as Hinfos by (rewrite Hs, Hw; vm_compute; reflexivity).
    rewrite Hinfos in H0. injection H0 as <-. by vm_compute. }
  apply (proj1 (@absent_channel_slot (Scripted.ext 2 0 false 0%Qc)
                  PERFORMANCE self w 0 loc st wt Hrun Habs)).
Defined.

(** Two steps of one process: the performance channel is reported at step
    0 and absent at step 1. *)
Definition sticky_script : list (list Scripted.cell) :=
  [ [ (1%Qc, false, <["performance" := q 5 1]> Scripted.passthrough) ];
    [ (1%Qc, false, Scripted.passthrough) ] ].

(** The performance buffer after one cycle over the sticky script, from a
    fresh instance. *)
Definition sticky_performance_buffer : option mat :=
  let E := Scripted.ext 1 0 false 0%Qc in
  '(self, w) ← returned
     (@init E 2 (q 99 100) 0%Qc (q 95 100) 0%Qc 0%Qc 0%Qc 1 None
            (Scripted.world 1 0 false 0%Qc sticky_script));
  '(_, (self', _)) ← returned (@collect_experiences E (self, w));
  Some (rewards_PERFORMANCE (exper self')).

(** C6, as stated, fails: the key is absent from the metadata of process 0
    at step 1, and slot 1 of the performance buffer holds the value
    reported at step 0, not zero. *)
Lemma absent_channel_stale :
  (sticky_script !! 1 ≫= (fun cells => cells !! 0))
  = Some (1%Qc, false, Scripted.passthrough)
  ∧ Scripted.passthrough !! "performance" = None
  ∧ sticky_performance_buffer = Some [[q 5 1]; [q 5 1]]
  ∧ sticky_performance_buffer ≠ Some [[q 5 1]; [0%Qc]].
Proof.
  split; [reflexivity|]. split; [by vm_compute|].
  assert (sticky_performance_buffer = Some [[q 5 1]; [q 5 1]]) as ->
    by (apply (bool_decide_unpack _); vm_compute; exact I).
  split; [done|]. apply (bool_decide_unpack _). vm_compute. exact I.
Qed.

(** ** Episode histories *)

(** The histories the summary truncates, and those it leaves alone. *)
Definition core_lists (h : History) : list vec :=
  [ log_return h; log_reshaped_return h; log_num_frames h ].

Definition aux_lists (h : History) : list vec :=
  [ log_return_MESSES h; log_return_PERFORMANCE_FULL h;
    log_return_PERFORMANCE h; log_reshaped_return_PERFORMANCE h;
    log_return_BUTTON_PRESSES h; log_reshaped_return_BUTTON_PRESSES h;
    log_return_PHONES_CLEANED h; log_reshaped_return_PHONES_CLEANED h;
    log_return_DIRT_CLEANED h; log_reshaped_return_DIRT_CLEANED h ].

(** [l'] is [l] with [k] entries appended, [k] satisfying [P]. *)
Definition extended (P : nat → Prop) (l l' : vec) : Prop :=
  ∃ app, l' = l ++ app ∧ P (length app).

(** Between [h] and [h'] [d] episodes were completed: the counter rose by
    [d], every core history received [d] entries and every auxiliary
    history at most [d]. *)
Definition grows (d : nat) (h h' : History) : Prop :=
  log_done_counter h' = log_done_counter h + d
  ∧ Forall2 (extended (fun k => k = d)) (core_lists h) (core_lists h')
  ∧ Forall2 (extended (fun k => k ≤ d)) (aux_lists h) (aux_lists h').

Lemma extended_refl (P : nat → Prop) l : P 0 → extended P l l.
Proof. intros H0. exists []. by rewrite app_nil_r. Qed.

Lemma extended_snoc (P : nat → Prop) l x : P 1 → extended P l (l ++ [x]).
Proof. intros H1. by exists [x]. Qed.

Lemma extended_trans (P Q R : nat → Prop) l1 l2 l3 :
  (∀ a b, P a → Q b → R (a + b)) →
  extended P l1 l2 → extended Q l2 l3 → extended R l1 l3.
Proof.
  intros HR (a1 & -> & Ha1) (a2 & -> & Ha2). exists (a1 ++ a2).
  rewrite app_assoc, length_app. split; [done|by apply HR].
Qed.

Lemma Forall2_extended_trans (P Q R : nat → Prop) (k1 k2 k3 : list vec) :
  (∀ a b, P a → Q b → R (a + b)) →
  Forall2 (extended P) k1 k2 → Forall2 (extended Q) k2 k3 →
  Forall2 (extended R) k1 k3.
Proof.
  intros HR H12. revert k3.
  induction H12 as [|l1 l2 k1 k2 H _ IH]; intros k3 H23;
    inversion_clear H23; constructor.
  - by eapply extended_trans.
  - by apply IH.
Qed.

Lemma grows_refl h : grows 0 h h.
Proof.
  split; [lia|]. split; repeat constructor; by apply extended_refl.
Qed.

Lemma grows_trans d1 d2 h1 h2 h3 :
  grows d1 h1 h2 → grows d2 h2 h3 → grows (d1 + d2) h1 h3.
Proof.
  intros (Hc1 & Hk1 & Ha1) (Hc2 & Hk2 & Ha2). split; [lia|]. split.
  - eapply Forall2_extended_trans; [|done..]. simpl. lia.
  - eapply Forall2_extended_trans; [|done..]. simpl. lia.
Qed.

Lemma flush_one_grows loc a p h : grows 1 h (flush_one loc a p h).
Proof.
  split; [done|]. split.
  - repeat constructor; by apply extended_snoc.
  - unfold aux_lists, flush_one. simpl.
    repeat constructor;
      repeat (match goal with
              | |- context [if ?b then _ else _] => destruct b
              end);
      (by apply extended_snoc; lia) || (by apply extended_refl; lia).
Qed.

(** The number of set flags. *)
Fixpoint count_done (done : list bool) : nat :=
  match done with
  | [] => 0
  | done_ :: rest => (if done_ then 1 else 0) + count_done rest
  end.

Lemma flush_done_grows loc a p done h :
  grows (count_done done) h (flush_done loc a p done h).
Proof.
  revert p h. induction done as [|d done IH]; intros p h; simpl.
  - apply grows_refl.
  - destruct d.
    + eapply grows_trans; [apply flush_one_grows|apply IH].
    + apply IH.
Qed.

Section Histories.
Context `{Ext : Externals}.

Lemma rollout_step_grows i loc self w loc' self' w' :
  rollout_step i loc (self, w) = Return loc' (self', w') →
  grows (count_done (step_done (exper self) w))
        (history self) (history self').
Proof.
  unfold step_done, rollout_step.
  destruct (interact (exper self) w)
    as [[[[[dist value] memory'] action] [[[obs' reward] done] infos]] w2].
  simpl. destruct (discover_channels infos loc) as [|loc1]; [done|].
  destruct (reshape_reward (params self)); [done|].
  intros [= <- <- <-]. apply flush_done_grows.
Qed.

Lemma rollout_grows xs loc self w loc' self' w' :
  for_each xs rollout_step loc (self, w) = Return loc' (self', w') →
  ∃ d, grows d (history self) (history self').
Proof.
  revert loc self w. induction xs as [|i xs IH]; intros loc self w; simpl.
  - intros [= <- <- <-]. exists 0. apply grows_refl.
  - unfold bind. destruct (rollout_step i loc (self, w))
      as [loc1 [s1 w1]|] eqn:Hstep; [|done].
    intros Hrest. apply IH in Hrest as (d & Hd).
    apply rollout_step_grows in Hstep. eexists.
    eapply grows_trans; done.
Qed.

End Histories.

(** Facts on [l[-k:]]. *)
Lemma length_last_n {A} k (l : list A) :
  0 < k → length (last_n k l) = k `min` length l.
Proof.
  intros Hk. destruct k as [|k]; [lia|]. unfold last_n.
  rewrite length_drop. lia.
Qed.

Lemma last_n_all {A} k (l : list A) : length l ≤ k → last_n k l = l.
Proof.
  intros Hk. destruct k as [|k]; [done|]. unfold last_n.
  replace (length l - S k) with 0 by lia. done.
Qed.

(** The windows of the summary, in the order of the histories. *)
Definition core_windows (logs : Logs) : list vec :=
  [ return_per_episode logs; reshaped_return_per_episode logs;
    num_frames_per_episode logs ].

Definition aux_windows (logs : Logs) : list vec :=
  [ messes_per_episode logs; performance_full_per_episode logs;
    performance_per_episode logs; reshaped_performance_per_episode logs;
    buttons_per_episode logs; reshaped_buttons_per_episode logs;
    phones_per_episode logs; reshaped_phones_per_episode logs;
    dirt_per_episode logs; reshaped_dirt_per_episode logs ].

Section Summary.
Context `{Ok : ExternalsOk}.

Lemma make_logs_inv p h loc logs :
  make_logs p h loc = inr logs →
  core_windows logs = last_n (keep_of p h) <$> core_lists h
  ∧ aux_windows logs = last_n (keep_of p h) <$> aux_lists h
  ∧ logs_num_frames logs = num_frames p
  ∧ ∃ infos info0, info loc = Some infos ∧ infos !! 0 = Some info0
      ∧ info0 !! "numberOfPermutes" = Some (numberOfPermutes logs)
      ∧ info0 !! "buttonValue" = Some (buttonValue logs).
Proof.
  unfold make_logs, last_info.
  destruct (info loc) as [infos|]; [|done].
  destruct (infos !! 0) as [info0|] eqn:H0; [|done].
  destruct (info0 !! "numberOfPermutes") as [x|] eqn:Hx; [|done].
  destruct (info0 !! "buttonValue") as [y|] eqn:Hy; [|done].
  intros [= <-]. split; [done|]. split; [done|]. split; [done|].
  exists infos, info0. cbn [numberOfPermutes buttonValue]. by repeat split.
Qed.

(** The metadata kept after the loop has one mapping per process. *)
Lemma rollout_info xs loc self w loc' self' w' infos :
  for_each xs rollout_step loc (self, w) = Return loc' (self', w') →
  (∀ i, info loc = Some i → length i = len_envs) →
  info loc' = Some infos → length infos = len_envs.
Proof.
  intros Hrun Hloc.
  refine (for_each_inv
            (fun l _ => ∀ i, info l = Some i → length i = len_envs)
            _ _ _ _ _ _ _ Hloc Hrun infos).
  clear Hrun Hloc. intros x a [s1 w1] a' [s2 w2] _ _.
  unfold rollout_step, interact, forward.
  destruct (acmodel _ _) as [[dist value] memory'].
  destruct (dist_sample _ _) as [action rng'].
  destruct (env_step _ _) as [env' [[[obs' reward] done] infs]] eqn:Hstep.
  destruct (discover_channels infs a) as [|loc1] eqn:Hd; [done|].
  destruct (reshape_reward (params s1)); [done|].
  intros [= <- _ _] i Hi.
  apply env_step_shape in Hstep as (_ & _ & _ & Hlen).
  unfold discover_channels in Hd.
  destruct (infs !! 0); [|done].
  repeat (match type of Hd with
          | context [match discover ?k ?i0 ?il ?h ?t with _ => _ end] =>
            destruct (discover k i0 il h t) as [?|[? ?]]; [done|]
          end).
  injection Hd as <-. simpl in Hi. by injection Hi as <-.
Qed.

(** The invariant of the histories between cycles: the counter is 0, the
    core histories hold [N] entries and the auxiliary ones at least [N]. *)
Record seeded (self : BaseAlgo Ext) : Prop := {
  sd_counter : log_done_counter (history self) = 0;
  sd_core :
    Forall (fun l => length l = num_procs (params self))
           (core_lists (history self));
  sd_aux :
    Forall (fun l => num_procs (params self) ≤ length l)
           (aux_lists (history self));
}.

Lemma Forall2_transfer {A} (P Q : A → Prop) (R : A → A → Prop) k1 k2 :
  (∀ x y, P x → R x y → Q y) →
  Forall P k1 → Forall2 R k1 k2 → Forall Q k2.
Proof.
  intros HQ HP HR. induction HR as [|x y k1 k2 Hxy _ IH];
    inversion_clear HP; constructor; eauto.
Qed.

Lemma extended_zero (P : nat → Prop) (k1 k2 : list vec) :
  (∀ n, P n → n = 0) → Forall2 (extended P) k1 k2 → k1 = k2.
Proof.
  intros HP. induction 1 as [|x y k1 k2 (app & -> & Happ) _ IH]; [done|].
  apply HP, nil_length_inv in Happ as ->. by rewrite app_nil_r, IH.
Qed.

(** The phases of a successful cycle from a seeded instance. *)
Lemma cycle_summary self w exps logs self' w' :
  shaped self → seeded self →
  collect_experiences (self, w) = Return (exps, logs) (self', w') →
  ∃ loc s1 w1 d,
    rollout (self, w) = Return loc (s1, w1)
    ∧ grows d (history self) (history s1)
    ∧ log_done_counter (history s1) = d
    ∧ params s1 = params self
    ∧ 0 < num_procs (params self)
    ∧ make_logs (params self) (history s1) loc = inr logs
    ∧ history self' = truncate (num_procs (params self)) (history s1)
    ∧ params self' = params self.
Proof.
  intros Hsh Hsd Hrun.
  apply collect_inv in Hrun
    as (loc & s1 & w1 & Hroll & _ & Hlogs & -> & _).
  destruct (rollout_shaped _ _ _ _ _ Hroll Hsh) as [_ Hpar].
  unfold rollout in Hroll.
  destruct (rollout_grows _ _ _ _ _ _ _ Hroll) as (d & Hd).
  rewrite Hpar in Hlogs. exists loc, s1, w1, d. cbn [history params].
  rewrite Hpar. split; [done|]. split; [done|]. split; [|split; [done|]].
  { destruct Hd as [Hc _]. destruct Hsd. lia. }
  split; [|done].
  apply make_logs_inv in Hlogs
    as (_ & _ & _ & infos & info0 & Hinfo & H0 & _).
  eapply rollout_info in Hinfo; [|done..].
  apply lookup_lt_Some in H0. destruct Hsh. lia.
Qed.

Lemma core_after self s1 d :
  seeded self → grows d (history self) (history s1) →
  Forall (fun l => length l = num_procs (params self) + d)
         (core_lists (history s1)).
Proof.
  intros [_ Hcore _] (_ & Hk & _).
  refine (Forall2_transfer _ _ _ _ _ _ Hcore Hk).
  intros x y Hx (app & -> & Happ). rewrite length_app. lia.
Qed.

Lemma aux_after self s1 d :
  seeded self → grows d (history self) (history s1) →
  Forall (fun l => num_procs (params self) ≤ length l)
         (aux_lists (history s1)).
Proof.
  intros [_ _ Haux] (_ & _ & Ha).
  refine (Forall2_transfer _ _ _ _ _ _ Haux Ha).
  intros x y Hx (app & -> & Happ). rewrite length_app. lia.
Qed.

(** The slice [l[-k:]] ends [l]. *)
Lemma last_n_suffix {A} k (l : list A) : last_n k l `suffix_of` l.
Proof. destruct k as [|k]; [done|]. apply suffix_drop. Qed.

(** C5. In a cycle, with [keep = max(done counter, num_procs)], the
    summary holds for every channel the last [keep] entries of its
    history: each window ends its history, with [keep] entries for the
    return, reshaped-return and frame-count histories (and as many as the
    history has, up to [keep], for an auxiliary one), and is never empty;
    with no completed episode the windows are the trailing [num_procs]
    entries the instance already held.  Afterwards the counter is 0, those
    three histories are cut to their last [num_procs] entries, and every
    auxiliary history is the one before the cycle with this cycle's
    entries appended. *)
Theorem summary_window self w exps logs self' w' :
  shaped self → seeded self →
  collect_experiences (self, w) = Return (exps, logs) (self', w') →
  ∃ loc s1 w1,
    rollout (self, w) = Return loc (s1, w1)
    ∧ let N := num_procs (params self) in
      let keep := log_done_counter (history s1) `max` N in
      Forall2 (fun win l => win `suffix_of` l ∧ length win = keep
                            ∧ win ≠ [])
              (core_windows logs) (core_lists (history s1))
      ∧ Forall2 (fun win l => win `suffix_of` l
                              ∧ length win = keep `min` length l
                              ∧ win ≠ [])
                (aux_windows logs) (aux_lists (history s1))
      ∧ (log_done_counter (history s1) = 0 →
         core_windows logs = core_lists (history self)
         ∧ Forall2 (fun win l => win `suffix_of` l ∧ length win = N)
                   (aux_windows logs) (aux_lists (history self)))
      ∧ log_done_counter (history self') = 0
      ∧ Forall2 (fun l' l => l' `suffix_of` l ∧ length l' = N)
                (core_lists (history self')) (core_lists (history s1))
      ∧ aux_lists (history self') = aux_lists (history s1)
      ∧ Forall2 (fun l l' => l `prefix_of` l')
                (aux_lists (history self)) (aux_lists (history self')).
Proof.
  intros Hsh Hsd Hrun.
  destruct (cycle_summary _ _ _ _ _ _ Hsh Hsd Hrun)
    as (loc & s1 & w1 & d & Hroll & Hd & Hcount & Hpar & HN & Hlogs
        & Hhist & _).
  exists loc, s1, w1. split; [done|]. intros N keep.
  apply make_logs_inv in Hlogs as (Hcw & Haw & _).
  unfold keep_of in Hcw, Haw. fold N in Hcw, Haw, HN. fold keep in Hcw, Haw.
  pose proof (core_after _ _ _ Hsd Hd) as Hcore. fold N in Hcore.
  pose proof (aux_after _ _ _ Hsd Hd) as Haux. fold N in Haux.
  assert (0 < keep ∧ keep ≤ N + d) as [Hk1 Hk2] by (subst keep; lia).
  split; [|split; [|split]].
  - rewrite Hcw. apply Forall2_fmap_l, Forall_Forall2_diag.
    eapply Forall_impl; [exact Hcore|]. simpl. intros l Hl.
    assert (length (last_n keep l) = keep) as Hlen
      by (rewrite length_last_n by done; lia).
    split; [apply last_n_suffix|]. split; [done|].
    intros Hnil. rewrite Hnil in Hlen. simpl in Hlen. lia.
  - rewrite Haw. apply Forall2_fmap_l, Forall_Forall2_diag.
    eapply Forall_impl; [exact Haux|]. simpl. intros l Hl.
    assert (length (last_n keep l) = keep `min` length l) as Hlen
      by by rewrite length_last_n.
    split; [apply last_n_suffix|]. split; [done|].
    intros Hnil. rewrite Hnil in Hlen. simpl in Hlen. lia.
  - intros Hzero. assert (d = 0) as -> by lia.
    destruct Hd as (_ & Hkd & Had).
    apply extended_zero in Hkd; [|done].
    apply extended_zero in Had; [|lia].
    assert (keep = N) as -> by (subst keep; lia).
    split.
    + rewrite Hcw, <- Hkd. destruct Hsd as [_ Hc _]. fold N in Hc.
      clear -Hc. induction Hc as [|l k Hl _ IH]; csimpl; [done|].
      rewrite IH, last_n_all by lia. done.
    + rewrite Haw, Had. apply Forall2_fmap_l, Forall_Forall2_diag.
      eapply Forall_impl; [exact Haux|]. simpl. intros l Hl.
      split; [apply last_n_suffix|]. rewrite length_last_n by done. lia.
  - rewrite Hhist. split; [done|]. split; [|split; [done|]].
    + change (core_lists (truncate ?n ?h)) with (last_n n <$> core_lists h).
      apply Forall2_fmap_l, Forall_Forall2_diag.
      eapply Forall_impl; [exact Hcore|]. simpl. intros l Hl.
      split; [apply last_n_suffix|]. rewrite length_last_n by done. lia.
    + cbn [aux_lists truncate log_return_MESSES log_return_PERFORMANCE_FULL
           log_return_PERFORMANCE log_reshaped_return_PERFORMANCE
           log_return_BUTTON_PRESSES log_reshaped_return_BUTTON_PRESSES
           log_return_PHONES_CLEANED log_reshaped_return_PHONES_CLEANED
           log_return_DIRT_CLEANED log_reshaped_return_DIRT_CLEANED].
      destruct Hd as (_ & _ & Had).
      eapply Forall2_impl; [exact Had|].
      intros l l' (app & -> & _). by exists app.
Qed.

Lemma init_seeded nf d l g ec vc mg rc rr w self w' :
  init nf d l g ec vc mg rc rr w = Return self w' → seeded self.
Proof.
  intros Hinit. apply init_Return in Hinit as [-> _].
  split; [done|..]; unfold core_lists, aux_lists; simpl;
    repeat (constructor; [rewrite length_replicate; lia|]); constructor.
Qed.

Lemma collect_seeded self w exps logs self' w' :
  shaped self → seeded self →
  collect_experiences (self, w) = Return (exps, logs) (self', w') →
  seeded self'.
Proof.
  intros Hsh Hsd Hrun.
  destruct (cycle_summary _ _ _ _ _ _ Hsh Hsd Hrun)
    as (loc & s1 & w1 & d & _ & Hd & _ & _ & HN & _ & Hhist & Hpar).
  pose proof (core_after _ _ _ Hsd Hd) as Hcore.
  pose proof (aux_after _ _ _ Hsd Hd) as Haux.
  split; rewrite Hhist, ?Hpar; [done| |exact Haux].
  change (core_lists (truncate ?n ?h)) with (last_n n <$> core_lists h).
  apply Forall_fmap. eapply Forall_impl; [exact Hcore|].
  simpl. intros x Hx. rewrite length_last_n by done. lia.
Qed.

End Summary.

(** The return history after the loop of one cycle over the ending
    script, in which one episode is completed, and the window the summary
    reports. *)
Definition ending_return_window : option (vec * vec) :=
  let E := Scripted.ext 2 1 true 0%Qc in
  '(self, w) ← returned
     (@init E 2 (q 99 100) 0%Qc (q 95 100) 0%Qc 0%Qc 0%Qc 1 None
            (Scripted.world 2 1 true 0%Qc ending_script));
  '(_, (s1, _)) ← returned (@rollout E (self, w));
  '(_, logs, _) ← returned (@collect_experiences E (self, w));
  Some (log_return (history s1), return_per_episode logs).

(** Three entries in the history, of which the window holds the last
    two. *)
Example ending_return_window_eq :
  ending_return_window = Some ([0%Qc; 0%Qc; 1%Qc], [0%Qc; 1%Qc]).
Proof. apply (bool_decide_unpack _). vm_compute. exact I. Qed.

(** One cycle over the ending script, in which process 0 completes an
    episode: the return window ends the return history. *)
Lemma summary_window_witness :
  ∃ self w exps logs self' w' loc s1 w1,
    @init (Scripted.ext 2 1 true 0%Qc)
          2 (q 99 100) 0%Qc (q 95 100) 0%Qc 0%Qc 0%Qc 1 None
          (Scripted.world 2 1 true 0%Qc ending_script) = Return self w
    ∧ @collect_experiences (Scripted.ext 2 1 true 0%Qc) (self, w)
      = Return (exps, logs) (self', w')
    ∧ @rollout (Scripted.ext 2 1 true 0%Qc) (self, w) = Return loc (s1, w1)
    ∧ return_per_episode logs `suffix_of` log_return (history s1)
    ∧ length (return_per_episode logs)
      = log_done_counter (history s1) `max` num_procs (params self).
Proof.
  destruct (first_cycle_inv
              (@init (Scripted.ext 2 1 true 0%Qc)
                     2 (q 99 100) 0%Qc (q 95 100) 0%Qc 0%Qc 0%Qc 1 None
                     (Scripted.world 2 1 true 0%Qc ending_script)))
    as (self & w & exps & logs & self' & w' & Hinit & Hrun);
    [vm_compute; reflexivity|].
  pose proof (@init_shaped _ (scripted_ok 2 1 true 0%Qc)
                _ _ _ _ _ _ _ _ _ _ _ _ Hinit) as Hsh.
  pose proof (init_seeded _ _ _ _ _ _ _ _ _ _ _ _ Hinit) as Hsd.
  destruct (@summary_window _ (scripted_ok 2 1 true 0%Qc)
              _ _ _ _ _ _ Hsh Hsd Hrun)
    as (loc & s1 & w1 & Hroll & Hcore & _).
  exists self, w, exps, logs, self', w', loc, s1, w1.
  split; [done|]. split; [done|]. split; [done|].
  apply Forall2_cons_1 in Hcore as [(Hsuf & Hlen & _) _]. by split.
Defined.

(** [k] cycles in a row, with their summaries. *)
Fixpoint collect_n `{Ext : Externals} (k : nat)
  : M (BaseAlgo Ext * World Ext) (list Logs) :=
  match k with
  | O => ret []
  | S k' =>
    bind collect_experiences
         (fun r => bind (collect_n k') (fun rest => ret (r.2 :: rest)))
  end.

(** Three steps of one process; every step ends an episode and reports
    the performance channel. *)
Definition finishing_script : list (list Scripted.cell) :=
  replicate 3
    [ (1%Qc, true, <["performance" := q 5 1]> Scripted.passthrough) ].

(** The return history and the performance history after three cycles of
    one step each. *)
Definition finishing_histories : option (vec * vec) :=
  let E := Scripted.ext 1 0 false 0%Qc in
  '(self, w) ← returned
     (@init E 1 (q 99 100) 0%Qc (q 95 100) 0%Qc 0%Qc 0%Qc 1 None
            (Scripted.world 1 0 false 0%Qc finishing_script));
  '(_, (self', _)) ← returned (@collect_n E 3 (self, w));
  Some (log_return (history self'),
        log_return_PERFORMANCE (history self')).

(** The return history stays at [num_procs] entries; the performance
    history keeps its seed and every entry since. *)
Example finishing_histories_eq :
  finishing_histories = Some ([1%Qc], [0%Qc; q 5 1; q 5 1; q 5 1]).
Proof. apply (bool_decide_unpack _). vm_compute. exact I. Qed.



(** The windows of the first summary over the steady script, in which no
    episode ends. *)
Definition steady_windows : option (list vec) :=
  let E := Scripted.ext 2 0 false 0%Qc in
  '(self, w) ← returned
     (@init E 3 (q 99 100) 0%Qc (q 95 100) 0%Qc 0%Qc 0%Qc 1 None
            (Scripted.world 2 0 false 0%Qc steady_script));
  '(_, logs, _) ← returned (@collect_experiences E (self, w));
  Some (core_windows logs ++ aux_windows logs).

Example steady_windows_eq :
  steady_windows = Some (replicate 13 [0%Qc; 0%Qc]).
Proof. apply (bool_decide_unpack _). vm_compute. exact I. Qed.

(** C10. The constructor sets the counter to 0 and seeds every history,
    core and auxiliary, with [num_procs] zeros.  In every cycle of an
    instance reached from the constructor each window of the summary holds
    at least [num_procs] entries, and the histories keep that seed
    invariant.  In a first cycle in which no episode ends, every window is
    the seed: [num_procs] zeros that stand for no completed episode. *)
Theorem histories_seeded `{Ok : ExternalsOk} :
  (∀ nf d l g ec vc mg rc rr w self w',
     init nf d l g ec vc mg rc rr w = Return self w' →
     num_procs (params self) = len_envs
     ∧ log_done_counter (history self) = 0
     ∧ Forall (fun h => h = replicate len_envs 0%Qc)
              (core_lists (history self) ++ aux_lists (history self)))
  ∧ (∀ self w exps logs self' w',
       shaped self → seeded self →
       collect_experiences (self, w) = Return (exps, logs) (self', w') →
       Forall (fun win => num_procs (params self) ≤ length win)
              (core_windows logs ++ aux_windows logs)
       ∧ seeded self')
  ∧ (∀ nf d l g ec vc mg rc rr w0 self w exps logs self' w' loc s1 w1,
       init nf d l g ec vc mg rc rr w0 = Return self w →
       collect_experiences (self, w) = Return (exps, logs) (self', w') →
       rollout (self, w) = Return loc (s1, w1) →
       log_done_counter (history s1) = 0 →
       Forall (fun win => win = replicate len_envs 0%Qc)
              (core_windows logs ++ aux_windows logs)).
Proof.
  split; [|split].
  - intros nf d l g ec vc mg rc rr w self w' Hinit.
    apply init_Return in Hinit as [-> _].
    split; [done|]. split; [done|]. repeat constructor.
  - intros self w exps logs self' w' Hsh Hsd Hrun.
    split; [|by eapply collect_seeded].
    destruct (cycle_summary _ _ _ _ _ _ Hsh Hsd Hrun)
      as (loc & s1 & w1 & d & _ & Hd & Hcount & _ & HN & Hlogs & _).
    apply make_logs_inv in Hlogs as (-> & -> & _).
    pose proof (core_after _ _ _ Hsd Hd) as Hcore.
    pose proof (aux_after _ _ _ Hsd Hd) as Haux.
    unfold keep_of. rewrite Hcount.
    apply Forall_app. split; apply Forall_fmap.
    + eapply Forall_impl; [exact Hcore|]. simpl. intros x Hx.
      rewrite length_last_n by lia. lia.
    + eapply Forall_impl; [exact Haux|]. simpl. intros x Hx.
      rewrite length_last_n by lia. lia.
  - intros nf d l g ec vc mg rc rr w0 self w exps logs self' w' loc s1 w1
      Hinit Hrun Hroll Hzero.
    pose proof (init_shaped _ _ _ _ _ _ _ _ _ _ _ _ Hinit) as Hsh.
    pose proof (init_seeded _ _ _ _ _ _ _ _ _ _ _ _ Hinit) as Hsd.
    destruct (cycle_summary _ _ _ _ _ _ Hsh Hsd Hrun)
      as (loc' & s1' & w1' & k & Hroll' & Hk & Hcount & _ & _ & Hlogs & _).
    rewrite Hroll in Hroll'. injection Hroll' as <- <- _.
    assert (k = 0) as -> by lia. destruct Hk as (_ & Hcore & Haux).
    apply extended_zero in Hcore; [|done].
    apply extended_zero in Haux; [|lia].
    apply make_logs_inv in Hlogs as (-> & -> & _).
    unfold keep_of. rewrite Hzero, <- Hcore, <- Haux.
    apply init_Return in Hinit as [-> _].
    unfold core_lists, aux_lists. simpl.
    repeat constructor; apply last_n_all; by rewrite length_replicate.
Qed.

(** The first summary over the steady script: thirteen windows of at
    least two entries. *)
Lemma histories_seeded_witness :
  ∃ self w exps logs self' w',
    @init (Scripted.ext 2 0 false 0%Qc)
          3 (q 99 100) 0%Qc (q 95 100) 0%Qc 0%Qc 0%Qc 1 None
          (Scripted.world 2 0 false 0%Qc steady_script) = Return self w
    ∧ @collect_experiences (Scripted.ext 2 0 false 0%Qc) (self, w)
      = Return (exps, logs) (self', w')
    ∧ Forall (fun win => num_procs (params self) ≤ length win)
             (core_windows logs ++ aux_windows logs).
Proof.
  destruct (first_cycle_inv
              (@init (Scripted.ext 2 0 false 0%Qc)
                     3 (q 99 100) 0%Qc (q 95 100) 0%Qc 0%Qc 0%Qc 1 None
                     (Scripted.world 2 0 false 0%Qc steady_script)))
    as (self & w & exps & logs & self' & w' & Hinit & Hrun);
    [vm_compute; reflexivity|].
  exists self, w, exps, logs, self', w'. split; [done|]. split; [done|].
  pose proof (@init_shaped _ (scripted_ok 2 0 false 0%Qc)
                _ _ _ _ _ _ _ _ _ _ _ _ Hinit) as Hsh.
  pose proof (init_seeded _ _ _ _ _ _ _ _ _ _ _ _ Hinit) as Hsd.
  apply (proj1 (proj2 (@histories_seeded _ (scripted_ok 2 0 false 0%Qc)))
               self w exps logs self' w' Hsh Hsd Hrun).
Defined.

(** ** Flushing a finished episode *)

(** The guards of lines 290-298: the button-press histories are appended
    under the phones flag, the phone histories under the button-press
    flag. *)
Lemma flush_one_buttons `{Ext : Externals} loc a p h :
  log_return_BUTTON_PRESSES (flush_one loc a p h)
  = (if hasPhonesCleaned loc
     then log_return_BUTTON_PRESSES h
          ++ [item (log_episode_return_BUTTON_PRESSES a) p]
     else log_return_BUTTON_PRESSES h)
  ∧ log_return_PHONES_CLEANED (flush_one loc a p h)
    = (if hasButtonPresses loc
       then log_return_PHONES_CLEANED h
            ++ [item (log_episode_return_PHONES_CLEANED a) p]
       else log_return_PHONES_CLEANED h).
Proof. done. Qed.

(** One step of one process: the episode ends, and the metadata reports
    three button presses and no phones channel. *)
Definition button_script : list (list Scripted.cell) :=
  [ [ (1%Qc, true, <["button_presses" := q 3 1]> Scripted.passthrough) ] ].

(** After that cycle: the done counter reached before the summary, the
    return history, the button-press history, the phone history, and the
    running sum of button presses. *)
Definition button_histories : option (nat * vec * vec * vec * vec) :=
  let E := Scripted.ext 1 0 false 0%Qc in
  '(self, w) ← returned
     (@init E 1 (q 99 100) 0%Qc (q 95 100) 0%Qc 0%Qc 0%Qc 1 None
            (Scripted.world 1 0 false 0%Qc button_script));
  '(_, (s1, _)) ← returned (@rollout E (self, w));
  '(_, (self', _)) ← returned (@collect_experiences E (self, w));
  Some (log_done_counter (history s1),
        log_return (history self'),
        log_return_BUTTON_PRESSES (history self'),
        log_return_PHONES_CLEANED (history self'),
        log_episode_return_BUTTON_PRESSES (episode self')).

(** C4 on that step.  One episode ends (the counter reads 1, the return
    history receives the reward 1), the button-press channel has been
    observed and the phones channel has not; the button-press history
    receives no entry (it still holds its seed alone), the phone history
    receives a 0, and the running sum 3 of button presses is cleared
    without having been recorded. *)
Theorem flush_guards_swapped :
  button_histories
  = Some (1, [1%Qc], [0%Qc], [0%Qc; 0%Qc], [0%Qc]).
Proof. apply (bool_decide_unpack _). vm_compute. exact I. Qed.

(** The bookkeeping scenario: five steps of two processes with the
    rewards of the grid, process 0 ending its episode at step 2. *)
Definition bookkeeping_script : list (list Scripted.cell) :=
  (fun t : Z =>
     (fun p : Z =>
        (q (10 * t + p) 1, bool_decide (t = 2 ∧ p = 0)%Z,
         Scripted.passthrough))
       <$> [0; 1]%Z)
    <$> [0; 1; 2; 3; 4]%Z.

(** The return window of the summary and the running returns after the
    cycle. *)
Definition bookkeeping : option (vec * vec) :=
  let E := Scripted.ext 2 0 false 0%Qc in
  '(self, w) ← returned
     (@init E 5 (q 99 100) 0%Qc (q 95 100) 0%Qc 0%Qc 0%Qc 1 None
            (Scripted.world 2 0 false 0%Qc bookkeeping_script));
  '(_, logs, (self', _)) ← returned (@collect_experiences E (self, w));
  Some (return_per_episode logs, log_episode_return (episode self')).

(** One entry, 0 + 10 + 20, joins the return history; the running return
    of process 0 restarts from 0 and holds 30 + 40 at the end, that of
    process 1 holds the sum of its five rewards. *)
Example bookkeeping_eq :
  bookkeeping = Some ([0%Qc; q 30 1], [q 70 1; q 105 1]).
Proof. apply (bool_decide_unpack _). vm_compute. exact I. Qed.

(** ** The advantage buffer before the estimator runs *)

(** X3. The estimator overwrites every row: its result does not depend on
    what the advantage buffer held before. *)
Theorem gae_overwrites T n dc lam (vals rews msks : mat) (msk nv : vec)
    (adv0 adv0' : mat) :
  length adv0 = T → length adv0' = T →
  gae T n dc lam vals rews msks msk nv adv0
  = gae T n dc lam vals rews msks msk nv adv0'.
Proof.
  intros H0 H0'.
  set (a := gae T n dc lam vals rews msks msk nv adv0).
  set (a' := gae T n dc lam vals rews msks msk nv adv0').
  assert (length a = T) as Hl by (subst a; unfold gae; by rewrite gae_foldl_length).
  assert (length a' = T) as Hl' by (subst a'; unfold gae; by rewrite gae_foldl_length).
  assert (∀ k t, T - t ≤ k → a !! t = a' !! t) as Hrows.
  { induction k as [|k IH]; intros t Hk.
    - assert (a !! t = None) as -> by (apply lookup_ge_None; lia).
      symmetry. apply lookup_ge_None. lia.
    - destruct (decide (t < T)) as [Ht|Ht].
      + subst a a'. rewrite !gae_rows by done. f_equal.
        apply gae_row_ext; [apply IH; lia|congruence|lia].
      + assert (a !! t = None) as -> by (apply lookup_ge_None; lia).
        symmetry. apply lookup_ge_None. lia. }
  apply list_eq. intros t. apply (Hrows T). lia.
Qed.

Lemma gae_overwrites_witness :
  gae 2 1 (q 1 2) (q 1 2) [[q 3 1]; [q 7 1]] [[q 5 1]; [q 1 1]]
      [[1%Qc]; [1%Qc]] [1%Qc] [q 4 1] [[0%Qc]; [0%Qc]]
  = gae 2 1 (q 1 2) (q 1 2) [[q 3 1]; [q 7 1]] [[q 5 1]; [q 1 1]]
        [[1%Qc]; [1%Qc]] [1%Qc] [q 4 1] [[q 9 1]; [q 8 1; q 2 1]].
Proof. by apply gae_overwrites. Defined.

(** ** The transitions a cycle records *)

Section Records.
Context `{Ok : ExternalsOk}.

(** What lines 213-240 record for one step when rewards are not reshaped:
    the observations, memory and mask the step started from, the sampled
    actions, the value estimates, the rewards of the bridge and the
    log-probabilities of the actions. *)
Record Transition : Type := {
  tr_obs : list Obs;
  tr_memory : mat;
  tr_mask : vec;
  tr_action : list Z;
  tr_value : vec;
  tr_reward : vec;
  tr_log_prob : vec;
}.

(** The transition of the step taken from the live state [e] in world
    [w]. *)
Definition step_transition (e : Experience) (w : World Ext) : Transition :=
  let r := interact e w in
  {| tr_obs := obs e;
     tr_memory := memory e;
     tr_mask := mask e;
     tr_action := r.1.1.2;
     tr_value := r.1.1.1.1.2;
     tr_reward := r.1.2.1.1.2;
     tr_log_prob := dist_log_prob r.1.1.1.1.1 r.1.1.2 |}.

(** Slot [t] of the buffers holds the transition [tr]. *)
Definition slot_holds (e : Experience) (t : nat) (tr : Transition) : Prop :=
  obss e !! t = Some (Some (tr_obs tr))
  ∧ masks e !! t = Some (tr_mask tr)
  ∧ actions e !! t = Some (tr_action tr)
  ∧ values e !! t = Some (tr_value tr)
  ∧ rewards e !! t = Some (tr_reward tr)
  ∧ log_probs e !! t = Some (tr_log_prob tr)
  ∧ (acmodel_recurrent = true → memories e !! t = Some (tr_memory tr)).

Lemma rollout_step_writes i loc self w loc' self' w' :
  rollout_step i loc (self, w) = Return loc' (self', w') →
  shaped self → i < num_frames_per_proc (params self) →
  slot_holds (exper self') i (step_transition (exper self) w).
Proof.
  unfold step_transition, rollout_step.
  destruct (interact (exper self) w)
    as [[[[[dist value] memory'] action] [[[obs' reward] done] infos]] w2].
  destruct (discover_channels infos loc) as [|loc1]; [done|].
  destruct (reshape_reward (params self)); [done|].
  intros [= <- <- <-] Hsh Hi.
  destruct Hsh as [_ _ Hobss _ _ [Hmems _] [Hmasks _] [Hacts _] [Hvals _]
                     [Hrews _] _ [Hlps _]].
  repeat split; simpl; try (apply list_lookup_insert_eq; lia).
  intros ->. apply list_lookup_insert_eq. lia.
Qed.

Lemma rollout_step_keeps i loc self w loc' self' w' t tr :
  rollout_step i loc (self, w) = Return loc' (self', w') →
  t ≠ i → slot_holds (exper self) t tr → slot_holds (exper self') t tr.
Proof.
  unfold rollout_step.
  destruct (interact (exper self) w)
    as [[[[[dist value] memory'] action] [[[obs' reward] done] infos]] w2].
  destruct (discover_channels infos loc) as [|loc1]; [done|].
  destruct (reshape_reward (params self)); [done|].
  intros [= <- <- <-] Hne (Ho & Hm & Ha & Hv & Hr & Hl & Hmem).
  repeat split; simpl; rewrite ?list_lookup_insert_ne by done; try done.
  intros Hrec. rewrite Hrec. rewrite list_lookup_insert_ne by done. auto.
Qed.

Lemma rollout_keeps xs loc self w loc' self' w' t tr :
  for_each xs rollout_step loc (self, w) = Return loc' (self', w') →
  t ∉ xs → slot_holds (exper self) t tr → slot_holds (exper self') t tr.
Proof.
  intros Hrun Ht Hslot.
  refine (for_each_inv (fun _ s => slot_holds (exper s.1) t tr)
            _ _ _ _ _ _ _ _ Hrun); [|done].
  intros x a [s1 w1] a' [s2 w2] Hx H1 Hstep. simpl in *.
  eapply rollout_step_keeps; [exact Hstep| |exact H1]. by intros ->.
Qed.

(** The slots after the loop, or after a prefix of it. *)
Lemma rollout_slots self w T' locT sT wT t :
  shaped self →
  for_each (seq 0 T') rollout_step init_locals (self, w)
  = Return locT (sT, wT) →
  T' ≤ num_frames_per_proc (params self) → t < T' →
  ∃ lt st wt,
    for_each (seq 0 t) rollout_step init_locals (self, w)
    = Return lt (st, wt)
    ∧ shaped st
    ∧ slot_holds (exper sT) t (step_transition (exper st) wt).
Proof.
  intros Hsh Hroll HT Ht.
  replace T' with (t + S (T' - S t)) in Hroll by lia.
  rewrite seq_app, for_each_app in Hroll. unfold bind in Hroll.
  destruct (for_each (seq 0 t) rollout_step init_locals (self, w))
    as [lt [st wt]|] eqn:Hpre; [|done].
  exists lt, st, wt. split; [done|].
  destruct (rollout_prefix_shaped _ _ _ _ _ _ _ Hpre Hsh) as [Hsht Hpar].
  split; [done|].
  simpl in Hroll. unfold bind in Hroll.
  destruct (rollout_step t lt (st, wt)) as [l1 [s1 w1]|] eqn:Hstep; [|done].
  assert (slot_holds (exper s1) t (step_transition (exper st) wt)) as H1.
  { eapply rollout_step_writes; [done..|]. rewrite Hpar. lia. }
  eapply rollout_keeps; [done| |done].
  intros Hin. apply elem_of_seq in Hin. lia.
Qed.

(** X4. After a successful cycle every slot [t] of the observation, mask,
    action, value, reward and log-probability buffers (and of the memory
    buffer for a recurrent policy) holds the transition of step [t]: what
    that step read from the live state after [t] steps and what the
    policy, the sampler and the bridge answered to it.  No later step and
    no later phase of the cycle writes it again. *)
Theorem slots_hold_transitions self w exps logs self' w' t :
  shaped self →
  collect_experiences (self, w) = Return (exps, logs) (self', w') →
  t < num_frames_per_proc (params self) →
  ∃ lt st wt,
    for_each (seq 0 t) rollout_step init_locals (self, w)
    = Return lt (st, wt)
    ∧ slot_holds (exper self') t (step_transition (exper st) wt).
Proof.
  intros Hsh Hrun Ht.
  apply collect_inv in Hrun as (locT & sT & wT & Hroll & _ & _ & -> & _).
  unfold rollout in Hroll.
  destruct (rollout_slots _ _ _ _ _ _ t Hsh Hroll (le_n _) Ht)
    as (lt & st & wt & Hpre & _ & Hslot).
  exists lt, st, wt. split; [done|]. exact Hslot.
Qed.

End Records.

(** On the grid script, slot 1 of the reward buffer holds the rewards the
    bridge returned at step 1. *)
Lemma slots_hold_transitions_witness :
  ∃ self w exps logs self' w' lt st wt,
    @init (Scripted.ext 2 1 true 0%Qc)
          3 (q 99 100) 0%Qc (q 95 100) 0%Qc 0%Qc 0%Qc 1 None
          (Scripted.world 2 1 true 0%Qc grid_script) = Return self w
    ∧ @collect_experiences (Scripted.ext 2 1 true 0%Qc) (self, w)
      = Return (exps, logs) (self', w')
    ∧ for_each (seq 0 1) rollout_step init_locals (self, w)
      = Return lt (st, wt)
    ∧ rewards (exper self') !! 1
      = Some (tr_reward (step_transition (exper st) wt)).
Proof.
  destruct (first_cycle_inv
              (@init (Scripted.ext 2 1 true 0%Qc)
                     3 (q 99 100) 0%Qc (q 95 100) 0%Qc 0%Qc 0%Qc 1 None
                     (Scripted.world 2 1 true 0%Qc grid_script)))
    as (self & w & exps & logs & self' & w' & Hinit & Hrun);
    [vm_compute; reflexivity|].
  pose proof (@init_shaped _ (scripted_ok 2 1 true 0%Qc)
                _ _ _ _ _ _ _ _ _ _ _ _ Hinit) as Hsh.
  destruct (init_Return _ _ _ _ _ _ _ _ _ _ _ _ Hinit) as [Hs _].
  assert (num_frames_per_proc (params self) = 3) as HT by by rewrite Hs.
  destruct (@slots_hold_transitions _ (scripted_ok 2 1 true 0%Qc)
              self w exps logs self' w' 1 Hsh Hrun
              ltac:(rewrite HT; lia))
    as (lt & st & wt & Hpre & Hslot).
  exists self, w, exps, logs, self', w', lt, st, wt.
  split; [done|]. split; [done|]. split; [done|]. apply Hslot.
Defined.

(** ** The running return and frame count at a step *)

(** The entries of [v] at the positions whose done flag is set, in process
    order. *)
Fixpoint finished (done : list bool) (v : vec) : vec :=
  match done, v with
  | done_ :: done', x :: v' => (if done_ then [x] else []) ++ finished done' v'
  | _, _ => []
  end.

(** The rewards and the done flags the bridge answers at the next step. *)
Definition step_reward `{Ext : Externals} (e : Experience) (w : World Ext)
  : vec :=
  (interact e w).1.2.1.1.2.

Section Running.
Context `{Ok : ExternalsOk}.

Lemma flush_done_core loc a p done h :
  p + length done ≤ length (log_episode_return a) →
  p + length done ≤ length (log_episode_num_frames a) →
  log_return (flush_done loc a p done h)
  = log_return h ++ finished done (drop p (log_episode_return a))
  ∧ log_num_frames (flush_done loc a p done h)
    = log_num_frames h ++ finished done (drop p (log_episode_num_frames a))
  ∧ log_done_counter (flush_done loc a p done h)
    = log_done_counter h + count_done done.
Proof.
  revert p h. induction done as [|d done IH]; intros p h Hr Hf; simpl.
  - by rewrite !app_nil_r, Nat.add_0_r.
  - simpl in Hr, Hf.
    destruct (lookup_lt_is_Some_2 (log_episode_return a) p) as [x Hx];
      [lia|].
    destruct (lookup_lt_is_Some_2 (log_episode_num_frames a) p) as [y Hy];
      [lia|].
    rewrite (drop_S _ _ _ Hx), (drop_S _ _ _ Hy).
    destruct (IH (S p) (if d then flush_one loc a p h else h))
      as (-> & -> & ->); [lia..|].
    destruct d; simpl.
    + unfold item. rewrite Hx, Hy. simpl.
      rewrite <- !app_assoc. simpl. repeat split; lia.
    + done.
Qed.

(** X5. A step without reward reshaping adds the rewards of the bridge to
    the running returns and 1 to the running frame counts; for each
    process whose done flag is set, in process order, it appends the
    running return to the return history and the running frame count to
    the frame history and raises the done counter by one; then it
    multiplies both running sums, entry by entry, by the new mask
    [1 - done]. *)
Theorem episode_step i loc self w loc' self' w' :
  rollout_step i loc (self, w) = Return loc' (self', w') →
  shaped self →
  length (log_episode_return (episode self)) = len_envs →
  length (log_episode_num_frames (episode self)) = len_envs →
  let done := step_done (exper self) w in
  let total :=
    vadd (log_episode_return (episode self)) (step_reward (exper self) w) in
  let frames :=
    vadd (log_episode_num_frames (episode self)) (ones len_envs) in
  log_return (history self') = log_return (history self) ++ finished done total
  ∧ log_num_frames (history self')
    = log_num_frames (history self) ++ finished done frames
  ∧ log_done_counter (history self')
    = log_done_counter (history self) + count_done done
  ∧ mask (exper self') = (fun d : bool => (1 - of_bool d)%Qc) <$> done
  ∧ log_episode_return (episode self')
    = zip_with Qcmult total (mask (exper self'))
  ∧ log_episode_num_frames (episode self')
    = zip_with Qcmult frames (mask (exper self'))
  ∧ length (log_episode_return (episode self')) = len_envs
  ∧ length (log_episode_num_frames (episode self')) = len_envs.
Proof.
  unfold step_done, step_reward, rollout_step, interact, forward.
  destruct (acmodel _ _) as [[dist value] memory'].
  destruct (dist_sample _ _) as [action rng'].
  destruct (env_step _ _) as [env' [[[obs' reward] done] infos]] eqn:Hstep.
  destruct (discover_channels infos loc) as [|loc1]; [done|].
  destruct (reshape_reward (params self)); [done|].
  intros [= <- <- <-] Hsh Hret Hfr. cbn [fst snd].
  apply env_step_shape in Hstep as (_ & Hr & Hd & _).
  destruct Hsh as [Hprocs _ _ _ _ _ _ _ _ _ _ _]. rewrite Hprocs.
  cbn [history episode exper accumulate reset_done store_rewards
       store_transition mask log_episode_return log_episode_num_frames].
  set (total := vadd (log_episode_return (episode self)) reward).
  set (frames := vadd (log_episode_num_frames (episode self)) (ones len_envs)).
  assert (length total = len_envs) as Htot
    by (subst total; unfold vadd; rewrite length_zip_with; lia).
  assert (length frames = len_envs) as Hfrm
    by (subst frames; unfold vadd, ones;
        rewrite length_zip_with, length_replicate; lia).
  destruct (flush_done_core loc1
              (accumulate len_envs i loc1
                 (store_rewards i loc1
                    (store_transition i (exper self) obs' memory' done
                       action value) reward (dist_log_prob dist action))
                 reward (episode self))
              0 done (history self)) as (H1 & H2 & H3).
  { simpl. fold total. lia. }
  { simpl. fold frames. lia. }
  rewrite H1, H2, H3. simpl. fold total frames. unfold vmul.
  split; [done|]. split; [done|]. split; [done|]. split; [done|].
  split; [done|]. split; [done|].
  split; rewrite length_zip_with, length_fmap; lia.
Qed.

End Running.

(** The first step of the ending script, at which process 0 is done. *)
Lemma episode_step_witness :
  ∃ self w loc' self' w',
    @init (Scripted.ext 2 1 true 0%Qc)
          2 (q 99 100) 0%Qc (q 95 100) 0%Qc 0%Qc 0%Qc 1 None
          (Scripted.world 2 1 true 0%Qc ending_script) = Return self w
    ∧ @rollout_step (Scripted.ext 2 1 true 0%Qc) 0 init_locals (self, w)
      = Return loc' (self', w')
    ∧ log_done_counter (history self')
      = log_done_counter (history self)
        + count_done (step_done (exper self) w).
Proof.
  destruct (succeeded_inv
              (@init (Scripted.ext 2 1 true 0%Qc)
                     2 (q 99 100) 0%Qc (q 95 100) 0%Qc 0%Qc 0%Qc 1 None
                     (Scripted.world 2 1 true 0%Qc ending_script)))
    as (self & w & Hinit); [vm_compute; reflexivity|].
  pose proof (@init_shaped _ (scripted_ok 2 1 true 0%Qc)
                _ _ _ _ _ _ _ _ _ _ _ _ Hinit) as Hsh.
  destruct (init_Return _ _ _ _ _ _ _ _ _ _ _ _ Hinit) as [Hs Hw].
  destruct (succeeded_inv
              (@rollout_step (Scripted.ext 2 1 true 0%Qc) 0 init_locals
                             (self, w)))
    as (loc' & [self' w'] & Hstep);
    [rewrite Hs, Hw; vm_compute; reflexivity|].
  exists self, w, loc', self', w'. split; [done|]. split; [done|].
  apply (@episode_step _ (scripted_ok 2 1 true 0%Qc)
           0 init_locals self w loc' self' w' Hstep Hsh);
    rewrite Hs; apply length_replicate.
Defined.

(** ** Cycles that raise *)

(** The keys [collect_experiences] reads in the metadata. *)
Definition metadata_keys : list string :=
  [ "messes_cleaned"; "performance_full"; "performance"; "button_presses";
    "phones_cleaned"; "dirt_cleaned"; "numberOfPermutes"; "buttonValue" ].

Lemma for_each_inv_raise {S A L} (I : L → S → Prop) (J : exn → S → Prop)
    (body : A → L → M S L) (xs : list A) acc s e s' :
  (∀ x a s a' s', x ∈ xs → I a s → body x a s = Return a' s' → I a' s') →
  (∀ x a s e s', x ∈ xs → I a s → body x a s = Raise e s' → J e s') →
  I acc s → for_each xs body acc s = Raise e s' → J e s'.
Proof.
  revert acc s. induction xs as [|x xs IH]; intros acc s Hret Hraise HI;
    simpl; [done|].
  unfold bind. destruct (body x acc s) as [a1 s1|e1 s1] eqn:Hx.
  - apply IH.
    + intros y a t a' t' Hy. apply Hret. by right.
    + intros y a t e' t' Hy. apply Hraise. by right.
    + eapply Hret; [by left|done|done].
  - intros [= <- <-]. eapply Hraise; [by left|done|done].
Qed.

Section Failures.
Context `{Ok : ExternalsOk}.

Lemma discover_channels_cause infos loc e :
  discover_channels infos loc = inl e →
  (e = IndexError ∧ infos !! 0 = None)
  ∨ (∃ k, k ∈ metadata_keys ∧ e = KeyError k).
Proof.
  unfold discover_channels. destruct (infos !! 0) as [info0|];
    [|intros [= <-]; by left].
  intros Hd. right. revert Hd.
  repeat (match goal with
          | |- context [match discover ?k ?i0 ?il ?h ?t with _ => _ end] =>
            let H := fresh "H" in
            destruct (discover k i0 il h t) as [?|[? ?]] eqn:H;
            [intros [= <-]; apply discover_inl in H as [-> _];
             eexists; split; [|done]; unfold metadata_keys; set_solver|]
          end).
  done.
Qed.

(** A step that raises leaves the parameters, the running sums and the
    histories as they were. *)
Lemma rollout_step_raise i loc self w e s' w' :
  rollout_step i loc (self, w) = Raise e (s', w') →
  params s' = params self ∧ episode s' = episode self
  ∧ history s' = history self
  ∧ ((e = IndexError ∧ len_envs = 0)
     ∨ (∃ k, k ∈ metadata_keys ∧ e = KeyError k)
     ∨ (e = AssertionError "no idea how to use performance here"
        ∧ is_Some (reshape_reward (params self)))).
Proof.
  unfold rollout_step, interact, forward.
  destruct (acmodel _ _) as [[dist value] memory'].
  destruct (dist_sample _ _) as [action rng'].
  destruct (env_step _ _) as [env' [[[obs' reward] done] infos]] eqn:Hstep.
  apply env_step_shape in Hstep as (_ & _ & _ & Hlen).
  destruct (discover_channels infos loc) as [err|loc1] eqn:Hd.
  - intros [= <- <- _]. repeat split.
    destruct (discover_channels_cause _ _ _ Hd) as [[-> H0]|Hk].
    + left. split; [done|]. apply lookup_ge_None in H0. lia.
    + right. by left.
  - destruct (reshape_reward (params self)) as [f|]; [|done].
    intros [= <- <- _]. repeat split. right. right. by eauto.
Qed.

Lemma rollout_step_params i loc self w loc' self' w' :
  rollout_step i loc (self, w) = Return loc' (self', w') →
  params self' = params self.
Proof.
  unfold rollout_step.
  destruct (interact (exper self) w)
    as [[[[[dist value] memory'] action] [[[obs' reward] done] infos]] w2].
  destruct (discover_channels infos loc) as [|loc1]; [done|].
  destruct (reshape_reward (params self)); [done|].
  by intros [= <- <- <-].
Qed.

(** X6. A cycle that raises never resets the done counter and never
    truncates a history: the instance keeps its parameters, and its
    histories are those before the call with the entries of the episodes
    completed before the exception appended. *)
Theorem failed_cycle_appends self w e s' w' :
  collect_experiences (self, w) = Raise e (s', w') →
  params s' = params self
  ∧ ∃ d, grows d (history self) (history s').
Proof.
  unfold collect_experiences, bind.
  destruct (rollout (self, w)) as [loc [s1 w1]|e1 [s1 w1]] eqn:Hroll.
  - unfold rollout in Hroll.
    assert (params s1 = params self ∧ ∃ d, grows d (history self) (history s1))
      as [Hpar Hgrow].
    { refine (for_each_inv
                (fun _ s => params s.1 = params self
                            ∧ ∃ d, grows d (history self) (history s.1))
                _ _ _ _ _ _ _ _ Hroll).
      - intros x a [t1 u1] a' [t2 u2] _ [Hp (d & Hd)] Hstep. simpl in *.
        split; [by rewrite (rollout_step_params _ _ _ _ _ _ _ Hstep)|].
        apply rollout_step_grows in Hstep. eexists. by eapply grows_trans.
      - split; [done|]. exists 0. apply grows_refl. }
    unfold bootstrap, forward.
    destruct (acmodel _ _) as [[dist next_value] mem'].
    unfold estimate, summarize. cbn [params exper with_exper history].
    destruct (make_exps _ _) as [|exps1]; [by intros [= _ <- _]|].
    destruct (make_logs _ _ _) as [|logs1]; [by intros [= _ <- _]|done].
  - intros [= _ <- <-]. unfold rollout in Hroll.
    refine (for_each_inv_raise
              (fun _ s => params s.1 = params self
                          ∧ ∃ d, grows d (history self) (history s.1))
              (fun _ s => params s.1 = params self
                          ∧ ∃ d, grows d (history self) (history s.1))
              _ _ _ _ _ _ _ _ _ Hroll).
    + intros x a [t1 u1] a' [t2 u2] _ [Hp (d & Hd)] Hstep. simpl in *.
      split; [by rewrite (rollout_step_params _ _ _ _ _ _ _ Hstep)|].
      apply rollout_step_grows in Hstep. eexists. by eapply grows_trans.
    + intros x a [t1 u1] e' [t2 u2] _ [Hp (d & Hd)] Hstep. simpl in *.
      apply rollout_step_raise in Hstep as (Hp2 & _ & Hh & _).
      rewrite Hp2, Hh. split; [done|by exists d].
    + split; [done|]. exists 0. apply grows_refl.
Qed.

Lemma sequence_all {A} (l : list (exn + A)) :
  Forall (fun r => ∃ x, r = inr x) l → ∃ flat, sequence l = inr flat.
Proof.
  induction 1 as [|r l [x ->] _ [flat IH]]; simpl; [by eexists|].
  rewrite IH. by eexists.
Qed.

(** After the loop every slot of [obss] holds one observation per
    process, and the comprehension of line 351 succeeds. *)
Lemma rollout_flat_obs self w loc s1 w1 :
  shaped self →
  rollout (self, w) = Return loc (s1, w1) →
  ∃ flat, flat_obs (num_frames_per_proc (params self))
                   (num_procs (params self)) (obss (exper s1)) = inr flat.
Proof.
  intros Hsh Hroll. unfold rollout in Hroll. unfold flat_obs.
  apply sequence_all, Forall_forall. intros r Hr.
  apply list_elem_of_bind in Hr as (j & Hr & Hj).
  apply list_elem_of_bind in Hr as (i & Hr & Hi).
  apply list_elem_of_singleton in Hr as ->.
  apply elem_of_seq in Hj, Hi.
  destruct (rollout_slots _ _ _ _ _ _ i Hsh Hroll (le_n _))
    as (lt & st & wt & _ & Hsht & Hslot & _); [lia|].
  unfold obs_cell. rewrite Hslot. cbn [tr_obs step_transition].
  destruct (lookup_lt_is_Some_2 (obs (exper st)) j) as [o ->]; [|by eexists].
  destruct Hsht as [_ Hobs _ _ _ _ _ _ _ _ _ _].
  destruct Hsh as [Hprocs _ _ _ _ _ _ _ _ _ _ _]. lia.
Qed.

(** After at least one step [info] is bound. *)
Lemma rollout_info_bound xs loc self w loc' self' w' :
  for_each xs rollout_step loc (self, w) = Return loc' (self', w') →
  xs ≠ [] ∨ is_Some (info loc) → is_Some (info loc').
Proof.
  revert loc self w. induction xs as [|i xs IH]; intros loc self w; simpl.
  - intros [= <- <- <-] [?|?]; done.
  - unfold bind. destruct (rollout_step i loc (self, w))
      as [loc1 [s1 w1]|] eqn:Hstep; [|done].
    intros Hrest _. eapply IH; [done|]. right.
    revert Hstep. unfold rollout_step.
    destruct (interact (exper self) w)
      as [[[[[dist value] memory'] action] [[[obs' reward] done] infos]] w2].
    destruct (discover_channels infos loc) as [|loc2] eqn:Hd; [done|].
    destruct (reshape_reward (params self)); [done|].
    intros [= <- _ _]. unfold discover_channels in Hd.
    destruct (infos !! 0); [|done].
    repeat (match type of Hd with
            | context [match discover ?k ?i0 ?il ?h ?t with _ => _ end] =>
              destruct (discover k i0 il h t) as [?|[? ?]]; [done|]
            end).
    injection Hd as <-. by eexists.
Qed.

(** X7. The exceptions of a cycle and their causes, for a well-shaped
    instance such as the constructor builds: a [KeyError] on one of the
    eight metadata keys the method reads; an [IndexError] on the metadata
    of process 0, with no process at all; an unbound [info], with no frame
    per process; the assertion of line 228, with a reward reshaper; the
    [RuntimeError] of the reshape of line 356, with a recurrent policy
    whose memory has size 0.  In particular the recorded observations are
    always found when the batch is built. *)
Theorem cycle_errors self w e s' :
  shaped self →
  collect_experiences (self, w) = Raise e s' →
  (∃ k, k ∈ metadata_keys ∧ e = KeyError k)
  ∨ (e = IndexError ∧ len_envs = 0)
  ∨ (e = UnboundLocalError "info"
     ∧ num_frames_per_proc (params self) = 0)
  ∨ (e = AssertionError "no idea how to use performance here"
     ∧ is_Some (reshape_reward (params self)))
  ∨ (e = RuntimeError reshape_error
     ∧ acmodel_recurrent = true ∧ acmodel_memory_size = 0).
Proof.
  intros Hsh. destruct s' as [s' w']. unfold collect_experiences, bind.
  destruct (rollout (self, w)) as [loc [s1 w1]|e1 [s1 w1]] eqn:Hroll.
  - destruct (rollout_flat_obs _ _ _ _ _ Hsh Hroll) as (flat & Hflat).
    destruct (rollout_shaped _ _ _ _ _ Hroll Hsh) as [_ Hpar].
    unfold bootstrap, forward.
    destruct (acmodel _ _) as [[dist next_value] mem'].
    unfold estimate, summarize. cbn [params exper with_exper history].
    unfold make_exps. cbn [obss compute_advantages set_advantages].
    rewrite Hpar, Hflat.
    destruct (acmodel_recurrent && _) eqn:Hzero.
    { intros [= <- _]. do 4 right. split; [done|].
      apply andb_true_iff in Hzero as [-> Hz].
      by apply bool_decide_eq_true in Hz. }
    unfold make_logs, last_info.
    destruct (info loc) as [infos|] eqn:Hinfo.
    + unfold rollout in Hroll.
      pose proof (rollout_info _ _ _ _ _ _ _ infos Hroll
                    ltac:(done) Hinfo) as Hlen.
      destruct (infos !! 0) as [info0|] eqn:H0.
      * destruct (info0 !! "numberOfPermutes");
          [|intros [= <- _]; left; eexists; split; [|done];
            unfold metadata_keys; set_solver].
        destruct (info0 !! "buttonValue"); [done|].
        intros [= <- _]. left. eexists. split; [|done].
        unfold metadata_keys. set_solver.
      * intros [= <- _]. right. left. split; [done|].
        apply lookup_ge_None in H0. lia.
    + intros [= <- _]. right. right. left. split; [done|].
      unfold rollout in Hroll.
      destruct (num_frames_per_proc (params self)) as [|T]; [done|].
      destruct (rollout_info_bound _ _ _ _ _ _ _ Hroll) as [x Hx];
        [by left|congruence].
  - intros [= <- _]. unfold rollout in Hroll.
    refine (for_each_inv_raise
              (fun _ s => params s.1 = params self)
              (fun e _ =>
                 (∃ k, k ∈ metadata_keys ∧ e = KeyError k)
                 ∨ (e = IndexError ∧ len_envs = 0)
                 ∨ (e = UnboundLocalError "info"
                    ∧ num_frames_per_proc (params self) = 0)
                 ∨ (e = AssertionError "no idea how to use performance here"
                    ∧ is_Some (reshape_reward (params self)))
                 ∨ (e = RuntimeError reshape_error
                    ∧ acmodel_recurrent = true ∧ acmodel_memory_size = 0))
              _ _ _ _ _ _ _ _ _ Hroll); [| |done].
    + intros x a [t1 u1] a' [t2 u2] _ Hp Hstep. simpl in *.
      by rewrite (rollout_step_params _ _ _ _ _ _ _ Hstep).
    + intros x a [t1 u1] e' [t2 u2] _ Hp Hstep. simpl in *.
      apply rollout_step_raise in Hstep as (_ & _ & _ & [H|[H|[-> H]]]).
      * right. by left.
      * by left.
      * right. right. right. left. split; [done|]. by rewrite <- Hp.
Qed.

Lemma bind_no_frames {A B} (l : list A) :
  (l ≫= fun _ => @nil B) = [].
Proof. induction l as [|x l IH]; csimpl; [done|]. by rewrite IH. Qed.

(** X8. With no frame per process, which the constructor accepts, the
    loop and the estimator do nothing, the policy is evaluated once for
    the bootstrap value, and the summary raises: on the reshape of line
    356 for a recurrent policy whose memory has size 0, on the unbound
    [info] of line 395 otherwise.  Every call raises, and leaves the
    instance as it was. *)
Theorem no_frames_raises self w :
  num_frames_per_proc (params self) = 0 →
  collect_experiences (self, w)
  = Raise (if acmodel_recurrent && bool_decide (acmodel_memory_size = 0)
           then RuntimeError reshape_error
           else UnboundLocalError "info")
          (self,
           {| env := env w; rng := rng w;
              forward_calls :=
                forward_calls w
                ++ [(preprocess_obss (obs (exper self)),
                     memory_argument (exper self))] |}).
Proof.
  intros HT. unfold collect_experiences, bind, rollout. rewrite HT. simpl.
  unfold bootstrap, forward.
  destruct (acmodel _ _) as [[dist next_value] mem'].
  unfold estimate, summarize. cbn [params exper with_exper history].
  unfold make_exps, flat_obs. rewrite HT. simpl.
  rewrite bind_no_frames. simpl.
  assert (with_exper self
            (compute_advantages (params self) next_value (exper self))
          = self) as ->.
  { unfold compute_advantages, gae. rewrite HT. simpl.
    destruct self as [p e a h]. unfold with_exper. simpl. f_equal.
    by destruct e. }
  by destruct (acmodel_recurrent && _).
Qed.

End Failures.

Lemma raised_inv {S A} (o : outcome S A) :
  succeeded o = false → ∃ e s, o = Raise e s.
Proof. destruct o as [|e s]; [done|by exists e, s]. Qed.

(** What a call raised, if it did. *)
Definition raised {S A} (o : outcome S A) : option (exn * S) :=
  match o with
  | Return _ _ => None
  | Raise e s => Some (e, s)
  end.

(** One step of one process that ends an episode; the metadata lacks the
    two diagnostics. *)
Definition bare_script : list (list Scripted.cell) :=
  [ [ (1%Qc, true, ∅) ] ].

(** The exception of the cycle over the bare script, and the done counter
    and return history it leaves. *)
Definition bare_failure : option (exn * nat * vec) :=
  let E := Scripted.ext 1 0 false 0%Qc in
  '(self, w) ← returned
     (@init E 1 (q 99 100) 0%Qc (q 95 100) 0%Qc 0%Qc 0%Qc 1 None
            (Scripted.world 1 0 false 0%Qc bare_script));
  '(e, (s', _)) ← raised (@collect_experiences E (self, w));
  Some (e, log_done_counter (history s'), log_return (history s')).

Example bare_failure_eq :
  bare_failure = Some (KeyError "numberOfPermutes", 1, [0%Qc; 1%Qc]).
Proof. vm_compute. reflexivity. Qed.

(** One step of two processes with a recurrent policy whose memory has
    size 0: the cycle raises at the reshape of line 356. *)
Definition empty_memory_failure : option exn :=
  let E := Scripted.ext 2 0 true 0%Qc in
  '(self, w) ← returned
     (@init E 1 (q 99 100) 0%Qc (q 95 100) 0%Qc 0%Qc 0%Qc 1 None
            (Scripted.world 2 0 true 0%Qc steady_script));
  '(e, _) ← raised (@collect_experiences E (self, w));
  Some e.

Example empty_memory_failure_eq :
  empty_memory_failure = Some (RuntimeError reshape_error).
Proof. vm_compute. reflexivity. Qed.

Lemma failed_cycle_appends_witness :
  ∃ self w e s' w',
    @init (Scripted.ext 1 0 false 0%Qc)
          1 (q 99 100) 0%Qc (q 95 100) 0%Qc 0%Qc 0%Qc 1 None
          (Scripted.world 1 0 false 0%Qc bare_script) = Return self w
    ∧ @collect_experiences (Scripted.ext 1 0 false 0%Qc) (self, w)
      = Raise e (s', w')
    ∧ params s' = params self.
Proof.
  destruct (succeeded_inv
              (@init (Scripted.ext 1 0 false 0%Qc)
                     1 (q 99 100) 0%Qc (q 95 100) 0%Qc 0%Qc 0%Qc 1 None
                     (Scripted.world 1 0 false 0%Qc bare_script)))
    as (self & w & Hinit); [vm_compute; reflexivity|].
  destruct (init_Return _ _ _ _ _ _ _ _ _ _ _ _ Hinit) as [Hs Hw].
  destruct (raised_inv
              (@collect_experiences (Scripted.ext 1 0 false 0%Qc) (self, w)))
    as (e & [s' w'] & Hrun); [rewrite Hs, Hw; vm_compute; reflexivity|].
  exists self, w, e, s', w'. split; [done|]. split; [done|].
  apply (@failed_cycle_appends _ (scripted_ok 1 0 false 0%Qc)
           self w e s' w' Hrun).
Defined.

Lemma cycle_errors_witness :
  ∃ self w e s',
    @init (Scripted.ext 1 0 false 0%Qc)
          1 (q 99 100) 0%Qc (q 95 100) 0%Qc 0%Qc 0%Qc 1 None
          (Scripted.world 1 0 false 0%Qc bare_script) = Return self w
    ∧ @collect_experiences (Scripted.ext 1 0 false 0%Qc) (self, w)
      = Raise e s'
    ∧ ((∃ k, k ∈ metadata_keys ∧ e = KeyError k)
       ∨ (e = IndexError ∧ @len_envs (Scripted.ext 1 0 false 0%Qc) = 0)
       ∨ (e = UnboundLocalError "info"
          ∧ num_frames_per_proc (params self) = 0)
       ∨ (e = AssertionError "no idea how to use performance here"
          ∧ is_Some (reshape_reward (params self)))
       ∨ (e = RuntimeError reshape_error
          ∧ @acmodel_recurrent (Scripted.ext 1 0 false 0%Qc) = true
          ∧ @acmodel_memory_size (Scripted.ext 1 0 false 0%Qc) = 0)).
Proof.
  destruct (succeeded_inv
              (@init (Scripted.ext 1 0 false 0%Qc)
                     1 (q 99 100) 0%Qc (q 95 100) 0%Qc 0%Qc 0%Qc 1 None
                     (Scripted.world 1 0 false 0%Qc bare_script)))
    as (self & w & Hinit); [vm_compute; reflexivity|].
  pose proof (@init_shaped _ (scripted_ok 1 0 false 0%Qc)
                _ _ _ _ _ _ _ _ _ _ _ _ Hinit) as Hsh.
  destruct (init_Return _ _ _ _ _ _ _ _ _ _ _ _ Hinit) as [Hs Hw].
  destruct (raised_inv
              (@collect_experiences (Scripted.ext 1 0 false 0%Qc) (self, w)))
    as (e & s' & Hrun); [rewrite Hs, Hw; vm_compute; reflexivity|].
  exists self, w, e, s'. split; [done|]. split; [done|].
  apply (@cycle_errors _ (scripted_ok 1 0 false 0%Qc) self w e s' Hsh Hrun).
Defined.

(** An instance with no frame per process, over two processes. *)
Lemma no_frames_raises_witness :
  ∃ self w,
    @init (Scripted.ext 2 0 false 0%Qc)
          0 (q 99 100) 0%Qc (q 95 100) 0%Qc 0%Qc 0%Qc 1 None
          (Scripted.world 2 0 false 0%Qc steady_script) = Return self w
    ∧ succeeded (@collect_experiences (Scripted.ext 2 0 false 0%Qc) (self, w))
      = false.
Proof.
  destruct (succeeded_inv
              (@init (Scripted.ext 2 0 false 0%Qc)
                     0 (q 99 100) 0%Qc (q 95 100) 0%Qc 0%Qc 0%Qc 1 None
                     (Scripted.world 2 0 false 0%Qc steady_script)))
    as (self & w & Hinit); [vm_compute; reflexivity|].
  destruct (init_Return _ _ _ _ _ _ _ _ _ _ _ _ Hinit) as [Hs _].
  exists self, w. split; [done|].
  rewrite (@no_frames_raises (Scripted.ext 2 0 false 0%Qc) self w);
    [done|by rewrite Hs].
Defined.

(** ** The diagnostics of the summary *)

Section Diagnostics.
Context `{Ok : ExternalsOk}.

Lemma rollout_step_info i loc self w loc' self' w' :
  rollout_step i loc (self, w) = Return loc' (self', w') →
  info loc' = Some (step_infos (exper self) w).
Proof.
  unfold step_infos, rollout_step.
  destruct (interact (exper self) w)
    as [[[[[dist value] memory'] action] [[[obs' reward] done] infos]] w2].
  simpl. destruct (discover_channels infos loc) as [|loc1] eqn:Hd; [done|].
  destruct (reshape_reward (params self)); [done|].
  intros [= <- _ _]. unfold discover_channels in Hd.
  destruct (infos !! 0); [|done].
  repeat (match type of Hd with
          | context [match discover ?k ?i0 ?il ?h ?t with _ => _ end] =>
            destruct (discover k i0 il h t) as [?|[? ?]]; [done|]
          end).
  by injection Hd as <-.
Qed.

(** X9. The two diagnostics of the summary are read in the metadata that
    process 0 reported at the last step of the cycle, and [num_frames] is
    the stored product of frames per process and processes. *)
Theorem diagnostics_of_last_step self w exps logs self' w' m :
  collect_experiences (self, w) = Return (exps, logs) (self', w') →
  num_frames_per_proc (params self) = S m →
  ∃ lm sm wm info0,
    for_each (seq 0 m) rollout_step init_locals (self, w)
    = Return lm (sm, wm)
    ∧ step_infos (exper sm) wm !! 0 = Some info0
    ∧ info0 !! "numberOfPermutes" = Some (numberOfPermutes logs)
    ∧ info0 !! "buttonValue" = Some (buttonValue logs)
    ∧ logs_num_frames logs = num_frames (params sm).
Proof.
  intros Hrun HT.
  apply collect_inv in Hrun as (loc & s1 & w1 & Hroll & _ & Hlogs & _).
  unfold rollout in Hroll. rewrite HT in Hroll.
  replace (S m) with (m + 1) in Hroll by lia.
  rewrite seq_app, for_each_app in Hroll. unfold bind in Hroll.
  destruct (for_each (seq 0 m) rollout_step init_locals (self, w))
    as [lm [sm wm]|] eqn:Hpre; [|done].
  simpl in Hroll. unfold bind in Hroll.
  destruct (rollout_step m lm (sm, wm)) as [l1 [s2 w2]|] eqn:Hstep; [|done].
  injection Hroll as <- <- <-.
  pose proof (rollout_step_info _ _ _ _ _ _ _ Hstep) as Hinfo.
  pose proof (rollout_step_params _ _ _ _ _ _ _ Hstep) as Hpar.
  apply make_logs_inv in Hlogs
    as (_ & _ & Hnf & infos & info0 & Hi & H0 & Hp & Hb).
  rewrite Hinfo in Hi. injection Hi as <-.
  exists lm, sm, wm, info0. by rewrite <- Hpar.
Qed.

End Diagnostics.

Lemma diagnostics_of_last_step_witness :
  ∃ self w exps logs self' w' lm sm wm info0,
    @init (Scripted.ext 2 1 true 0%Qc)
          3 (q 99 100) 0%Qc (q 95 100) 0%Qc 0%Qc 0%Qc 1 None
          (Scripted.world 2 1 true 0%Qc grid_script) = Return self w
    ∧ @collect_experiences (Scripted.ext 2 1 true 0%Qc) (self, w)
      = Return (exps, logs) (self', w')
    ∧ for_each (seq 0 2) rollout_step init_locals (self, w)
      = Return lm (sm, wm)
    ∧ step_infos (exper sm) wm !! 0 = Some info0
    ∧ info0 !! "numberOfPermutes" = Some (numberOfPermutes logs).
Proof.
  destruct (first_cycle_inv
              (@init (Scripted.ext 2 1 true 0%Qc)
                     3 (q 99 100) 0%Qc (q 95 100) 0%Qc 0%Qc 0%Qc 1 None
                     (Scripted.world 2 1 true 0%Qc grid_script)))
    as (self & w & exps & logs & self' & w' & Hinit & Hrun);
    [vm_compute; reflexivity|].
  destruct (init_Return _ _ _ _ _ _ _ _ _ _ _ _ Hinit) as [Hs _].
  assert (num_frames_per_proc (params self) = 3) as HT by by rewrite Hs.
  destruct (@diagnostics_of_last_step (Scripted.ext 2 1 true 0%Qc)
              self w exps logs self' w' 2 Hrun HT)
    as (lm & sm & wm & info0 & Hpre & H0 & Hp & _).
  by exists self, w, exps, logs, self', w', lm, sm, wm, info0.
Defined.

(** ** A policy without memory *)

Section Feedforward.
Context `{Ext : Externals}.

Lemma rollout_step_feedforward i loc self w loc' self' w' :
  acmodel_recurrent = false →
  rollout_step i loc (self, w) = Return loc' (self', w') →
  memory (exper self') = memory (exper self)
  ∧ memories (exper self') = memories (exper self)
  ∧ forward_calls w'
    = forward_calls w ++ [(preprocess_obss (obs (exper self)), None)].
Proof.
  intros Hrec. unfold rollout_step, interact, forward, memory_argument.
  rewrite Hrec.
  destruct (acmodel _ _) as [[dist value] memory'].
  destruct (dist_sample _ _) as [action rng'].
  destruct (env_step _ _) as [env' [[[obs' reward] done] infos]].
  destruct (discover_channels infos loc) as [|loc1]; [done|].
  destruct (reshape_reward (params self)); [done|].
  intros [= <- <- <-]. simpl. by rewrite Hrec.
Qed.

Lemma rollout_feedforward xs loc self w loc' self' w' :
  acmodel_recurrent = false →
  for_each xs rollout_step loc (self, w) = Return loc' (self', w') →
  memory (exper self') = memory (exper self)
  ∧ memories (exper self') = memories (exper self)
  ∧ ∃ calls, forward_calls w' = forward_calls w ++ calls
      ∧ length calls = length xs
      ∧ Forall (fun c : PObs * option mat => c.2 = None) calls.
Proof.
  intros Hrec. revert loc self w.
  induction xs as [|i xs IH]; intros loc self w; simpl.
  - intros [= <- <- <-]. split; [done|]. split; [done|].
    exists []. by rewrite app_nil_r.
  - unfold bind. destruct (rollout_step i loc (self, w))
      as [loc1 [s1 w1]|] eqn:Hstep; [|done].
    intros Hrest. apply IH in Hrest as (Hm & Hms & calls & Hc & Hl & Hn).
    apply (rollout_step_feedforward _ _ _ _ _ _ _ Hrec) in Hstep
      as (Hm1 & Hms1 & Hc1).
    split; [congruence|]. split; [congruence|].
    exists ((preprocess_obss (obs (exper self)), None) :: calls).
    split; [by rewrite Hc, Hc1, <- app_assoc|].
    split; [simpl; by rewrite Hl|]. by constructor.
Qed.

(** X10. With a policy that is not recurrent a cycle neither reads nor
    writes the memory: [self.memory] and [self.memories] are after the
    cycle what they were before it, and each of the [T + 1] forward passes
    of the cycle is made without a memory argument. *)
Theorem feedforward_ignores_memory self w exps logs self' w' :
  acmodel_recurrent = false →
  collect_experiences (self, w) = Return (exps, logs) (self', w') →
  memory (exper self') = memory (exper self)
  ∧ memories (exper self') = memories (exper self)
  ∧ ∃ calls, forward_calls w' = forward_calls w ++ calls
      ∧ length calls = num_frames_per_proc (params self) + 1
      ∧ Forall (fun c : PObs * option mat => c.2 = None) calls.
Proof.
  intros Hrec Hrun.
  apply collect_inv in Hrun as (loc & s1 & w1 & Hroll & _ & _ & -> & ->).
  unfold rollout in Hroll.
  apply (rollout_feedforward _ _ _ _ _ _ _ Hrec) in Hroll
    as (Hm & Hms & calls & Hc & Hl & Hn).
  rewrite length_seq in Hl. cbn [exper forward_calls].
  split; [done|]. split; [done|].
  exists (calls ++ [(preprocess_obss (obs (exper s1)),
                     memory_argument (exper s1))]).
  split; [by rewrite Hc, <- app_assoc|].
  split; [rewrite length_app; simpl; lia|].
  apply Forall_app. split; [done|]. constructor; [|done].
  unfold memory_argument. by rewrite Hrec.
Qed.

End Feedforward.

Lemma feedforward_ignores_memory_witness :
  ∃ self w exps logs self' w',
    @init (Scripted.ext 2 0 false 0%Qc)
          3 (q 99 100) 0%Qc (q 95 100) 0%Qc 0%Qc 0%Qc 1 None
          (Scripted.world 2 0 false 0%Qc steady_script) = Return self w
    ∧ @collect_experiences (Scripted.ext 2 0 false 0%Qc) (self, w)
      = Return (exps, logs) (self', w')
    ∧ memories (exper self') = memories (exper self).
Proof.
  destruct (first_cycle_inv
              (@init (Scripted.ext 2 0 false 0%Qc)
                     3 (q 99 100) 0%Qc (q 95 100) 0%Qc 0%Qc 0%Qc 1 None
                     (Scripted.world 2 0 false 0%Qc steady_script)))
    as (self & w & exps & logs & self' & w' & Hinit & Hrun);
    [vm_compute; reflexivity|].
  exists self, w, exps, logs, self', w'. split; [done|]. split; [done|].
  apply (@feedforward_ignores_memory (Scripted.ext 2 0 false 0%Qc)
           self w exps logs self' w' eq_refl Hrun).
Defined.

(** ** Cycles in a row *)

Section Cycles.
Context `{Ok : ExternalsOk}.

Lemma collect_calls self w exps logs self' w' :
  collect_experiences (self, w) = Return (exps, logs) (self', w') →
  length (forward_calls w')
  = length (forward_calls w) + (num_frames_per_proc (params self) + 1).
Proof.
  intros Hrun.
  apply collect_inv in Hrun as (loc & s1 & w1 & Hroll & _ & _ & _ & ->).
  unfold rollout in Hroll.
  apply rollout_calls in Hroll as (calls & Hc & Hl).
  rewrite length_seq in Hl. cbn [forward_calls].
  rewrite length_app, Hc, length_app. simpl. lia.
Qed.

Lemma collect_windows self w exps logs self' w' :
  shaped self → seeded self →
  collect_experiences (self, w) = Return (exps, logs) (self', w') →
  logs_num_frames logs = num_frames (params self)
  ∧ Forall (fun win => num_procs (params self) ≤ length win)
           (core_windows logs ++ aux_windows logs)
  ∧ Forall2 (fun l l' => l `prefix_of` l')
            (aux_lists (history self)) (aux_lists (history self')).
Proof.
  intros Hsh Hsd Hrun.
  destruct (cycle_summary _ _ _ _ _ _ Hsh Hsd Hrun)
    as (loc & s1 & w1 & d & _ & Hd & Hcount & _ & HN & Hlogs & Hhist & _).
  pose proof (core_after _ _ _ Hsd Hd) as Hcore.
  pose proof (aux_after _ _ _ Hsd Hd) as Haux.
  apply make_logs_inv in Hlogs as (-> & -> & Hnf & _).
  split; [done|]. split.
  - unfold keep_of. rewrite Hcount.
    apply Forall_app. split; apply Forall_fmap.
    + eapply Forall_impl; [exact Hcore|]. simpl. intros x Hx.
      rewrite length_last_n by lia. lia.
    + eapply Forall_impl; [exact Haux|]. simpl. intros x Hx.
      rewrite length_last_n by lia. lia.
  - rewrite Hhist.
    change (aux_lists (truncate ?n ?h)) with (aux_lists h).
    destruct Hd as (_ & _ & Ha).
    eapply Forall2_impl; [exact Ha|].
    intros x y (app & -> & _). by exists app.
Qed.

(** X11. Any number [k] of cycles made in a row on a well-shaped, seeded
    instance, all returning: the instance stays well-shaped and seeded and
    keeps its parameters; there is one summary per cycle, each reporting
    [num_frames] frames and windows of at least [num_procs] entries; the
    policy has been evaluated [k * (T + 1)] times; and every auxiliary
    history still begins with what it held before the first cycle, since
    no cycle cuts it. *)
Theorem cycles_compose k self w logs self' w' :
  shaped self → seeded self →
  collect_n k (self, w) = Return logs (self', w') →
  shaped self' ∧ seeded self' ∧ params self' = params self
  ∧ length logs = k
  ∧ Forall (fun l => logs_num_frames l = num_frames (params self)
              ∧ Forall (fun win => num_procs (params self) ≤ length win)
                       (core_windows l ++ aux_windows l)) logs
  ∧ length (forward_calls w')
    = length (forward_calls w)
      + k * (num_frames_per_proc (params self) + 1)
  ∧ Forall2 (fun l l' => l `prefix_of` l')
            (aux_lists (history self)) (aux_lists (history self')).
Proof.
  revert self w logs. induction k as [|k IH]; intros self w logs Hsh Hsd.
  - intros [= <- <- <-]. split; [done|]. split; [done|]. split; [done|].
    split; [done|]. split; [constructor|]. split; [simpl; lia|].
    apply Forall_Forall2_diag, Forall_forall. by intros x _.
  - cbn [collect_n]. unfold bind at 1.
    destruct (collect_experiences (self, w))
      as [[exps l1] [s1 w1]|] eqn:Hrun; [|done].
    unfold bind. destruct (collect_n k (s1, w1))
      as [rest [s2 w2]|] eqn:Hrest; [|done].
    intros [= <- <- <-].
    destruct (collect_shaped _ _ _ _ _ _ Hrun Hsh) as [Hsh1 Hpar1].
    pose proof (collect_seeded _ _ _ _ _ _ Hsh Hsd Hrun) as Hsd1.
    destruct (collect_windows _ _ _ _ _ _ Hsh Hsd Hrun)
      as (Hnf & Hwin & Hpre).
    pose proof (collect_calls _ _ _ _ _ _ Hrun) as Hcalls.
    destruct (IH _ _ _ Hsh1 Hsd1 Hrest)
      as (Hsh2 & Hsd2 & Hpar2 & Hlen & Hall & Hc2 & Hpre2).
    rewrite Hpar1 in *.
    split; [done|]. split; [done|]. split; [done|].
    split; [simpl; by rewrite Hlen|].
    split; [by constructor|].
    split; [simpl; lia|].
    eapply Forall2_trans; [|exact Hpre|exact Hpre2].
    intros x y z Hxy Hyz. by etrans.
Qed.

End Cycles.

(** Three cycles over the finishing script. *)
Lemma cycles_compose_witness :
  ∃ self w logs self' w',
    @init (Scripted.ext 1 0 false 0%Qc)
          1 (q 99 100) 0%Qc (q 95 100) 0%Qc 0%Qc 0%Qc 1 None
          (Scripted.world 1 0 false 0%Qc finishing_script) = Return self w
    ∧ @collect_n (Scripted.ext 1 0 false 0%Qc) 3 (self, w)
      = Return logs (self', w')
    ∧ length logs = 3
    ∧ length (forward_calls w') = length (forward_calls w) + 6.
Proof.
  destruct (succeeded_inv
              (@init (Scripted.ext 1 0 false 0%Qc)
                     1 (q 99 100) 0%Qc (q 95 100) 0%Qc 0%Qc 0%Qc 1 None
                     (Scripted.world 1 0 false 0%Qc finishing_script)))
    as (self & w & Hinit); [vm_compute; reflexivity|].
  pose proof (@init_shaped _ (scripted_ok 1 0 false 0%Qc)
                _ _ _ _ _ _ _ _ _ _ _ _ Hinit) as Hsh.
  pose proof (init_seeded _ _ _ _ _ _ _ _ _ _ _ _ Hinit) as Hsd.
  destruct (init_Return _ _ _ _ _ _ _ _ _ _ _ _ Hinit) as [Hs Hw].
  destruct (succeeded_inv
              (@collect_n (Scripted.ext 1 0 false 0%Qc) 3 (self, w)))
    as (logs & [self' w'] & Hrun); [rewrite Hs, Hw; vm_compute; reflexivity|].
  assert (num_frames_per_proc (params self) = 1) as HT by by rewrite Hs.
  destruct (@cycles_compose _ (scripted_ok 1 0 false 0%Qc)
              3 self w logs self' w' Hsh Hsd Hrun)
    as (_ & _ & _ & Hlen & _ & Hcalls & _).
  exists self, w, logs, self', w'. rewrite HT in Hcalls.
  split; [done|]. split; [done|]. split; [done|]. exact Hcalls.
Defined.

(** ** What a step writes for a channel, and when a step raises *)

(** The tuple a channel carries from step to step. *)
Definition channel_tuple (c : channel) (loc : Locals) : vec :=
  match c with
  | PERFORMANCE => performances loc
  | BUTTON_PRESSES => button_presses loc
  | PHONES_CLEANED => phones_cleaned loc
  | DIRT_CLEANED => dirt_cleaned loc
  end.

(** The keys channel discovery looks for, in the order of the source. *)
Definition step_keys : list string :=
  [ "messes_cleaned"; "performance_full"; "performance"; "button_presses";
    "phones_cleaned"; "dirt_cleaned" ].

(** The key of a [KeyError], if the call raised one. *)
Definition raised_key {S A} (o : outcome S A) : option string :=
  match o with
  | Raise (KeyError k) _ => Some k
  | _ => None
  end.

Lemma raised_key_inv {S A} (o : outcome S A) k :
  raised_key o = Some k → ∃ s, o = Raise (KeyError k) s.
Proof.
  destruct o as [|[] s]; try done. simpl. intros [= ->]. by exists s.
Qed.

Section Discovery.
Context `{Ext : Externals}.

Lemma discover_present key info0 infos has tup has' tup' :
  discover key info0 infos has tup = inr (has', tup') →
  is_Some (info0 !! key) →
  has' = true ∧ mapM (fun d : info_dict => d !! key) infos = Some tup'.
Proof.
  unfold discover, comprehension. intros Hd Hk.
  rewrite bool_decide_eq_true_2 in Hd by done.
  destruct (mapM _ _); [|done]. by injection Hd as <- <-.
Qed.

Lemma discover_absent key info0 infos has tup has' tup' :
  discover key info0 infos has tup = inr (has', tup') →
  info0 !! key = None → has' = has ∧ tup' = tup.
Proof.
  unfold discover. intros Hd Hk.
  rewrite bool_decide_eq_false_2 in Hd by (rewrite Hk; by intros [? ?]).
  by injection Hd as <- <-.
Qed.

Lemma discover_channels_tuple c infos loc loc' :
  discover_channels infos loc = inr loc' →
  ∃ info0, infos !! 0 = Some info0
    ∧ (is_Some (info0 !! channel_key c) →
       channel_flag c loc' = true
       ∧ mapM (fun d : info_dict => d !! channel_key c) infos
         = Some (channel_tuple c loc'))
    ∧ (info0 !! channel_key c = None →
       channel_flag c loc' = channel_flag c loc
       ∧ channel_tuple c loc' = channel_tuple c loc).
Proof.
  unfold discover_channels. destruct (infos !! 0) as [info0|]; [|done].
  repeat (match goal with
          | |- context [match discover ?k ?i0 ?il ?h ?t with _ => _ end] =>
            let H := fresh "H" in
            destruct (discover k i0 il h t) as [?|[? ?]] eqn:H; [done|]
          end).
  intros [= <-]. exists info0. split; [done|].
  split; intros Hk; destruct c; simpl in *;
    first [ by eapply discover_present | by eapply discover_absent ].
Qed.

(** X12. What a step that returns writes for an auxiliary channel.  When
    the key is in the metadata of process 0, slot [i] of the channel's
    reward buffer receives the values of that key over all processes.
    When the key is absent but was seen at an earlier step of the cycle,
    slot [i] receives the tuple carried over from that earlier step. *)
Theorem channel_slot_written c i loc self w loc' self' w' :
  rollout_step i loc (self, w) = Return loc' (self', w') →
  ∃ info0, step_infos (exper self) w !! 0 = Some info0
    ∧ (is_Some (info0 !! channel_key c) →
       mapM (fun d : info_dict => d !! channel_key c)
            (step_infos (exper self) w)
       = Some (channel_tuple c loc')
       ∧ channel_flag c loc' = true
       ∧ channel_rewards c (exper self')
         = <[i := channel_tuple c loc']> (channel_rewards c (exper self)))
    ∧ (info0 !! channel_key c = None → channel_flag c loc = true →
       channel_flag c loc' = true
       ∧ channel_tuple c loc' = channel_tuple c loc
       ∧ channel_rewards c (exper self')
         = <[i := channel_tuple c loc]> (channel_rewards c (exper self))).
Proof.
  unfold step_infos, rollout_step.
  destruct (interact (exper self) w)
    as [[[[[dist value] memory'] action] [[[obs' reward] done] infos]] w2].
  simpl. destruct (discover_channels infos loc) as [|loc1] eqn:Hd; [done|].
  destruct (reshape_reward (params self)); [done|].
  intros [= <- <- <-].
  destruct (discover_channels_tuple c _ _ _ Hd) as (info0 & H0 & Hin & Hout).
  exists info0. split; [done|]. split.
  - intros Hk. destruct (Hin Hk) as [Hflag Htup].
    split; [done|]. split; [done|].
    destruct c; simpl in *; by rewrite Hflag.
  - intros Hk Hon. destruct (Hout Hk) as [Hflag Htup].
    rewrite Hon in Hflag. split; [done|]. split; [done|].
    rewrite <- Htup. destruct c; simpl in *; by rewrite Hflag.
Qed.

Lemma discover_ok key info0 infos has tup :
  is_Some (match discover key info0 infos has tup with
           | inl _ => None | inr r => Some r end)
  ↔ (is_Some (info0 !! key) →
     Forall (fun d : info_dict => is_Some (d !! key)) infos).
Proof.
  unfold discover, comprehension. case_bool_decide as Hk.
  - destruct (mapM _ _) as [v|] eqn:Hm.
    + split; [|by eauto]. intros _ _.
      apply (mapM_is_Some (fun d : info_dict => d !! key)). by eauto.
    + split; [by intros [? ?]|]. intros Hall.
      apply Hall, (mapM_is_Some (fun d : info_dict => d !! key)) in Hk.
      rewrite Hm in Hk. by destruct Hk.
  - split; [done|by eauto].
Qed.

Lemma discover_channels_ok infos loc :
  (∃ loc', discover_channels infos loc = inr loc')
  ↔ ∃ info0, infos !! 0 = Some info0
      ∧ ∀ k, k ∈ step_keys → is_Some (info0 !! k) →
             Forall (fun d : info_dict => is_Some (d !! k)) infos.
Proof.
  unfold discover_channels. destruct (infos !! 0) as [info0|];
    [|split; [by intros [? ?]|by intros (? & ? & _)]].
  pose proof (fun k h t => discover_ok k info0 infos h t) as Hok.
  split.
  - intros [loc' Hd]. exists info0. split; [done|]. intros k Hk.
    revert Hd.
    repeat (match goal with
            | |- context [match discover ?k ?i0 ?il ?h ?t with _ => _ end] =>
              let H := fresh "H" in
              pose proof (proj1 (Hok k h t)) as H;
              destruct (discover k i0 il h t) as [?|[? ?]]; [done|];
              specialize (H ltac:(by eauto))
            end).
    intros _. unfold step_keys in Hk.
    repeat (apply elem_of_cons in Hk as [->|Hk]; [done|]).
    by apply elem_of_nil in Hk.
  - intros (? & [= <-] & Hall).
    repeat (match goal with
            | |- context [match discover ?k ?i0 ?il ?h ?t with _ => _ end] =>
              let H := fresh "H" in
              assert (is_Some (match discover k i0 il h t with
                               | inl _ => None | inr r => Some r end)) as H
                by (apply Hok, Hall; unfold step_keys;
                    repeat constructor);
              destruct (discover k i0 il h t) as [?|[? ?]];
              [by destruct H|clear H]
            end).
    by eauto.
Qed.

(** X13. A step returns exactly when no reward reshaper is configured,
    the bridge reported metadata for at least one process, and each of the
    six channel keys found in the metadata of process 0 is in the metadata
    of every process. *)
Theorem step_returns_iff i loc self w :
  succeeded (rollout_step i loc (self, w)) = true
  ↔ reshape_reward (params self) = None
    ∧ ∃ info0, step_infos (exper self) w !! 0 = Some info0
        ∧ ∀ k, k ∈ step_keys → is_Some (info0 !! k) →
               Forall (fun d : info_dict => is_Some (d !! k))
                      (step_infos (exper self) w).
Proof.
  unfold step_infos, rollout_step.
  destruct (interact (exper self) w)
    as [[[[[dist value] memory'] action] [[[obs' reward] done] infos]] w2].
  simpl. rewrite <- (discover_channels_ok infos loc).
  destruct (discover_channels infos loc) as [err|loc1]; simpl.
  - split; [done|]. by intros (_ & ? & ?).
  - destruct (reshape_reward (params self)); simpl.
    + split; [done|]. by intros [? _].
    + split; [|done]. intros _. by eauto.
Qed.

(** X14. A step raises [KeyError k] only in channel discovery: [k] is in
    the metadata of process 0 and missing from the metadata of a later
    process.  The bridge has been stepped by then and the policy
    evaluated, and the instance is as it was before the step: nothing of
    the transition is recorded. *)
Theorem key_error_cause i loc self w k s' :
  rollout_step i loc (self, w) = Raise (KeyError k) s' →
  s' = (self, (interact (exper self) w).2)
  ∧ k ∈ step_keys
  ∧ ∃ info0 p d,
      step_infos (exper self) w !! 0 = Some info0
      ∧ is_Some (info0 !! k)
      ∧ 0 < p
      ∧ step_infos (exper self) w !! p = Some d
      ∧ d !! k = None.
Proof.
  unfold step_infos, rollout_step.
  destruct (interact (exper self) w)
    as [[[[[dist value] memory'] action] [[[obs' reward] done] infos]] w2].
  simpl. destruct (discover_channels infos loc) as [err|loc1] eqn:Hd;
    [|destruct (reshape_reward (params self)); done].
  intros [= -> <-]. split; [done|].
  unfold discover_channels in Hd.
  destruct (infos !! 0) as [info0|] eqn:H0; [|done].
  assert (∀ key h t, discover key info0 infos h t = inl (KeyError k) →
            key = k ∧ is_Some (info0 !! k)
            ∧ ∃ p d, 0 < p ∧ infos !! p = Some d ∧ d !! k = None) as Hone.
  { intros key h t Hdis. pose proof Hdis as Hdis'.
    apply discover_inl in Hdis as [[= <-] Hk]. split; [done|].
    split; [done|].
    pose proof (proj2 (discover_ok k info0 infos h t)) as Hok.
    rewrite Hdis' in Hok.
    destruct (decide (Forall (fun d : info_dict => is_Some (d !! k))
                             infos)) as [Hall|Hnot].
    { destruct Hok as [? [=]]. done. }
    apply not_Forall_Exists in Hnot; [|apply _].
    apply Exists_exists in Hnot as (d & Hd' & Hmiss).
    apply list_elem_of_lookup in Hd' as [p Hp].
    assert (d !! k = None) as Hnone.
    { destruct (d !! k) eqn:E; [|done]. exfalso. apply Hmiss. by eauto. }
    exists p, d. split; [|done].
    destruct p; [|lia]. rewrite H0 in Hp. injection Hp as ->.
    rewrite Hnone in Hk. by destruct Hk. }
  revert Hd.
  repeat (match goal with
          | |- context [match discover ?key ?i0 ?il ?h ?t with _ => _ end] =>
            let H := fresh "H" in
            destruct (discover key i0 il h t) as [?|[? ?]] eqn:H;
            [intros [= ->]; apply Hone in H as (<- & Hk & p & d & Hp);
             split; [unfold step_keys; repeat constructor|];
             by exists info0, p, d|]
          end).
  done.
Qed.

End Discovery.

(** The first step of the sticky script reports the performance channel. *)
Lemma channel_slot_written_witness :
  ∃ self w loc' self' w',
    @init (Scripted.ext 1 0 false 0%Qc)
          2 (q 99 100) 0%Qc (q 95 100) 0%Qc 0%Qc 0%Qc 1 None
          (Scripted.world 1 0 false 0%Qc sticky_script) = Return self w
    ∧ @rollout_step (Scripted.ext 1 0 false 0%Qc) 0 init_locals (self, w)
      = Return loc' (self', w')
    ∧ rewards_PERFORMANCE (exper self')
      = <[0 := performances loc']> (rewards_PERFORMANCE (exper self)).
Proof.
  destruct (succeeded_inv
              (@init (Scripted.ext 1 0 false 0%Qc)
                     2 (q 99 100) 0%Qc (q 95 100) 0%Qc 0%Qc 0%Qc 1 None
                     (Scripted.world 1 0 false 0%Qc sticky_script)))
    as (self & w & Hinit); [vm_compute; reflexivity|].
  destruct (init_Return _ _ _ _ _ _ _ _ _ _ _ _ Hinit) as [Hs Hw].
  destruct (succeeded_inv
              (@rollout_step (Scripted.ext 1 0 false 0%Qc) 0 init_locals
                             (self, w)))
    as (loc' & [self' w'] & Hstep); [rewrite Hs, Hw; vm_compute; reflexivity|].
  exists self, w, loc', self', w'. split; [done|]. split; [done|].
  destruct (@channel_slot_written (Scripted.ext 1 0 false 0%Qc) PERFORMANCE
              0 init_locals self w loc' self' w' Hstep)
    as (info0 & H0 & Hin & _).
  apply Hin.
  assert (@step_infos (Scripted.ext 1 0 false 0%Qc) (exper self) w !! 0
          = Some (<["performance" := q 5 1]> Scripted.passthrough)) as Hi
    by (rewrite Hs, Hw; apply (bool_decide_unpack _); vm_compute; exact I).
  rewrite Hi in H0. injection H0 as <-.
  rewrite lookup_insert_eq. by eexists.
Defined.

Lemma step_returns_iff_witness :
  ∃ self w,
    @init (Scripted.ext 2 0 false 0%Qc)
          3 (q 99 100) 0%Qc (q 95 100) 0%Qc 0%Qc 0%Qc 1 None
          (Scripted.world 2 0 false 0%Qc steady_script) = Return self w
    ∧ ∃ info0,
        @step_infos (Scripted.ext 2 0 false 0%Qc) (exper self) w !! 0
        = Some info0.
Proof.
  destruct (succeeded_inv
              (@init (Scripted.ext 2 0 false 0%Qc)
                     3 (q 99 100) 0%Qc (q 95 100) 0%Qc 0%Qc 0%Qc 1 None
                     (Scripted.world 2 0 false 0%Qc steady_script)))
    as (self & w & Hinit); [vm_compute; reflexivity|].
  destruct (init_Return _ _ _ _ _ _ _ _ _ _ _ _ Hinit) as [Hs Hw].
  exists self, w. split; [done|].
  destruct (proj1 (@step_returns_iff (Scripted.ext 2 0 false 0%Qc)
                     0 init_locals self w))
    as (_ & info0 & H0 & _); [rewrite Hs, Hw; vm_compute; reflexivity|].
  by exists info0.
Defined.

(** One step of two processes; only process 0 reports the performance
    channel. *)
Definition ragged_script : list (list Scripted.cell) :=
  [ [ (1%Qc, false, <["performance" := q 5 1]> Scripted.passthrough);
      (1%Qc, false, Scripted.passthrough) ] ].

Lemma key_error_cause_witness :
  ∃ self w s',
    @init (Scripted.ext 2 0 false 0%Qc)
          1 (q 99 100) 0%Qc (q 95 100) 0%Qc 0%Qc 0%Qc 1 None
          (Scripted.world 2 0 false 0%Qc ragged_script) = Return self w
    ∧ @rollout_step (Scripted.ext 2 0 false 0%Qc) 0 init_locals (self, w)
      = Raise (KeyError "performance") s'
    ∧ s'.1 = self.
Proof.
  destruct (succeeded_inv
              (@init (Scripted.ext 2 0 false 0%Qc)
                     1 (q 99 100) 0%Qc (q 95 100) 0%Qc 0%Qc 0%Qc 1 None
                     (Scripted.world 2 0 false 0%Qc ragged_script)))
    as (self & w & Hinit); [vm_compute; reflexivity|].
  destruct (init_Return _ _ _ _ _ _ _ _ _ _ _ _ Hinit) as [Hs Hw].
  destruct (raised_key_inv
              (@rollout_step (Scripted.ext 2 0 false 0%Qc) 0 init_locals
                             (self, w)) "performance")
    as (s' & Hstep); [rewrite Hs, Hw; vm_compute; reflexivity|].
  exists self, w, s'. split; [done|]. split; [done|].
  destruct (@key_error_cause (Scripted.ext 2 0 false 0%Qc)
              0 init_locals self w "performance" s' Hstep) as [-> _].
  reflexivity.
Defined.

(** ** The reshaped return of a cycle that returns *)

Section Twin.
Context `{Ok : ExternalsOk}.

(** The running reshaped return is the running return, and the
    reshaped-return history is the return history. *)
Definition twin (self : BaseAlgo Ext) : Prop :=
  log_episode_reshaped_return (episode self)
  = log_episode_return (episode self)
  ∧ log_reshaped_return (history self) = log_return (history self).

Lemma flush_done_twin loc a p done h :
  log_episode_reshaped_return a = log_episode_return a →
  log_reshaped_return h = log_return h →
  log_reshaped_return (flush_done loc a p done h)
  = log_return (flush_done loc a p done h).
Proof.
  intros Ha. revert p h.
  induction done as [|d done IH]; intros p h Hh; simpl; [done|].
  apply IH. destruct d; [|done]. simpl. by rewrite Ha, Hh.
Qed.

Lemma rollout_step_twin i loc self w loc' self' w' :
  rollout_step i loc (self, w) = Return loc' (self', w') →
  i < length (rewards (exper self)) → twin self → twin self'.
Proof.
  unfold rollout_step.
  destruct (interact (exper self) w)
    as [[[[[dist value] memory'] action] [[[obs' reward] done] infos]] w2].
  destruct (discover_channels infos loc) as [|loc1]; [done|].
  destruct (reshape_reward (params self)); [done|].
  intros [= <- <- <-] Hi [He Hh].
  assert (row (<[i := reward]> (rewards (exper self))) i = reward) as Hrow
    by (unfold row; by rewrite list_lookup_insert_eq).
  split; cbn [episode history reset_done accumulate store_rewards
              store_transition rewards log_episode_reshaped_return
              log_episode_return].
  - by rewrite Hrow, He.
  - apply flush_done_twin; [|done].
    cbn [accumulate store_rewards store_transition rewards
         log_episode_reshaped_return log_episode_return].
    by rewrite Hrow, He.
Qed.

Lemma init_twin nf d l g ec vc mg rc rr w self w' :
  init nf d l g ec vc mg rc rr w = Return self w' → twin self.
Proof. intros Hinit. by apply init_Return in Hinit as [-> _]. Qed.

(** X15. A cycle returns only without a reward reshaper, and then the
    reshaped return is the return: on an instance in which the running
    reshaped return and its history equal the running return and its
    history (as they do after the constructor), the summary reports the
    same list under [reshaped_return_per_episode] and
    [return_per_episode], and the equality holds again after the
    cycle. *)
Theorem reshaped_return_is_return self w exps logs self' w' :
  shaped self → twin self →
  collect_experiences (self, w) = Return (exps, logs) (self', w') →
  reshaped_return_per_episode logs = return_per_episode logs
  ∧ twin self'.
Proof.
  intros Hsh Htw Hrun.
  apply collect_inv in Hrun as (loc & s1 & w1 & Hroll & _ & Hlogs & -> & _).
  unfold rollout in Hroll.
  assert (shaped s1 ∧ params s1 = params self ∧ twin s1)
    as (_ & _ & He & Hh).
  { refine (for_each_inv
              (fun _ s => shaped s.1 ∧ params s.1 = params self ∧ twin s.1)
              _ _ _ _ _ _ _ _ Hroll); [|done].
    intros x a [t1 u1] a' [t2 u2] Hx (H1 & H2 & H3) Hstep. simpl in *.
    destruct (rollout_step_shaped _ _ _ _ _ _ _ Hstep H1) as [H4 H5].
    split; [done|]. split; [congruence|].
    apply (rollout_step_twin _ _ _ _ _ _ _ Hstep); [|done].
    apply elem_of_seq in Hx.
    destruct H1 as [_ _ _ _ _ _ _ _ _ [-> _] _ _]. rewrite H2. lia. }
  apply make_logs_inv in Hlogs as (Hcore & _).
  unfold core_windows, core_lists in Hcore.
  injection Hcore as Hr Hrr _.
  split; [by rewrite Hr, Hrr, Hh|].
  split; cbn [episode history truncate log_reshaped_return log_return];
    [done|by rewrite Hh].
Qed.

End Twin.

(** One cycle over the ending script, from the constructor. *)
Lemma reshaped_return_is_return_witness :
  ∃ self w exps logs self' w',
    @init (Scripted.ext 2 1 true 0%Qc)
          2 (q 99 100) 0%Qc (q 95 100) 0%Qc 0%Qc 0%Qc 1 None
          (Scripted.world 2 1 true 0%Qc ending_script) = Return self w
    ∧ @collect_experiences (Scripted.ext 2 1 true 0%Qc) (self, w)
      = Return (exps, logs) (self', w')
    ∧ reshaped_return_per_episode logs = return_per_episode logs.
Proof.
  destruct (first_cycle_inv
              (@init (Scripted.ext 2 1 true 0%Qc)
                     2 (q 99 100) 0%Qc (q 95 100) 0%Qc 0%Qc 0%Qc 1 None
                     (Scripted.world 2 1 true 0%Qc ending_script)))
    as (self & w & exps & logs & self' & w' & Hinit & Hrun);
    [vm_compute; reflexivity|].
  exists self, w, exps, logs, self', w'. split; [done|]. split; [done|].
  pose proof (@init_shaped _ (scripted_ok 2 1 true 0%Qc)
                _ _ _ _ _ _ _ _ _ _ _ _ Hinit) as Hsh.
  pose proof (init_twin _ _ _ _ _ _ _ _ _ _ _ _ Hinit) as Htw.
  apply (@reshaped_return_is_return _ (scripted_ok 2 1 true 0%Qc)
           self w exps logs self' w' Hsh Htw Hrun).
Defined.
